(** * pyui view tree: reconciliation, layout and hit testing

    A shallow embedding of [pyui/views/base.py] (class [View] and
    [ForEach]).

    - [Geom] holds the geometry values the views compute with.
    - [Tree] is the reconciled view hierarchy as a value: a node owns its
      [subviews], and a method that mutates frames is a function that
      returns the updated node.  It carries the measuring, layout and
      hit-testing methods.
    - [Store] is the object store: views and environments live at
      locations, [parent], [subviews] and [env] are references, and the
      methods thread the store and may raise.  It carries [rebuild],
      [root], [state_changed] and [layout], with the [resize] and
      [reposition] that [layout] calls.
    - [TreeSpec] and [StoreSpec] hold the notions the statements use,
      [TreeExamples] and [StoreExamples] the concrete trees and stores.

    The statements follow, first about the tree, then about the store,
    then on the examples. *)

From Stdlib Require Import ZArith Lia List String Bool.
From stdpp Require Import base option list gmap strings pretty.
Import ListNotations.

Local Open Scope Z_scope.

(** ** Geometry *)

Module Geom.

(** Modelled from the spec: [pyui.geom] is not among the sources.  A
    point and a size are pairs of integers. *)
Record Point := mkPoint { x : Z; y : Z }.
Record Size := mkSize { w : Z; h : Z }.

(** Modelled from the spec: a rect is an origin and a size ("frame
    (origin + size)"). *)
Record Rect := mkRect { origin : Point; size : Size }.

(** Modelled from the spec: insets are the four per-edge amounts
    ("padding (10,10,10,10)"). *)
Record Insets := mkInsets { itop : Z; ileft : Z; ibottom : Z; iright : Z }.

(** Modelled from the spec: the two axes of [pyui.geom.Axis]. *)
Inductive Axis := HORIZONTAL | VERTICAL.

(** Modelled from the spec: [Size()], [Rect()] and [Insets()], the zero
    values ("before the first layout it is zero-valued"). *)
Definition Size0 : Size := mkSize 0 0.
Definition Rect0 : Rect := mkRect (mkPoint 0 0) Size0.
Definition Insets0 : Insets := mkInsets 0 0 0 0.

(** Modelled from the spec: the edges and extents of a rect,
    [rect.left], [rect.top], [rect.width], [rect.height], [rect.right]
    and [rect.bottom]. *)
Definition left (r : Rect) : Z := x (origin r).
Definition top (r : Rect) : Z := y (origin r).
Definition width (r : Rect) : Z := w (size r).
Definition height (r : Rect) : Z := h (size r).
Definition right (r : Rect) : Z := left r + width r.
Definition bottom (r : Rect) : Z := top r + height r.

(** Modelled from the spec: [insets.width] and [insets.height], the
    total inset along each axis. *)
Definition iwidth (i : Insets) : Z := ileft i + iright i.
Definition iheight (i : Insets) : Z := itop i + ibottom i.

(** Modelled from the spec: [insets[axis]] ("child.padding[axis]"), the
    total inset along an axis. *)
Definition iaxis (i : Insets) (a : Axis) : Z :=
  match a with HORIZONTAL => iwidth i | VERTICAL => iheight i end.

(** Modelled from the spec: [rect - insets] ("frame - padding - border"),
    the rect shrunk by the insets on each edge. *)
Definition rect_sub (r : Rect) (i : Insets) : Rect :=
  mkRect (mkPoint (left r + ileft i) (top r + itop i))
         (mkSize (width r - iwidth i) (height r - iheight i)).

(** Modelled from the spec: [pt in rect] ("point ∈ frame"), edges
    included. *)
Definition contains (r : Rect) (p : Point) : bool :=
  (left r <=? x p) && (x p <=? right r) && (top r <=? y p) && (y p <=? bottom r).

(** Modelled from the spec: the assignments [frame.size = s] and
    [frame.origin = p]. *)
Definition set_size (r : Rect) (s : Size) : Rect := mkRect (origin r) s.
Definition set_origin (r : Rect) (p : Point) : Rect := mkRect p (size r).

End Geom.

Import Geom.

(** ** Attribute values and filters *)

(** The values an attribute filter compares. *)
Inductive pyval :=
| PNone
| PBool (b : bool)
| PInt (n : Z)
| PStr (s : string).

(** Python's [==] on these values; [True == 1] and [False == 0]. *)
Definition py_eqb (a b : pyval) : bool :=
  match a, b with
  | PNone, PNone => true
  | PBool p, PBool q => Bool.eqb p q
  | PBool p, PInt n | PInt n, PBool p => Z.b2z p =? n
  | PInt n, PInt m => n =? m
  | PStr s, PStr t => String.eqb s t
  | _, _ => false
  end.

(** ** The view tree as a value *)

Module Tree.

(** A view with the fields the methods below read or write.
    [options] holds the further attributes of the instance: the
    keyword options of the constructor, which [__init__] sets with
    [setattr], and what a widget class adds to those of [View].
    [minimum_size_hook] and [content_size_hook] stand for the two
    measuring methods a widget class overrides ([Slider], [TextField]);
    [None] and [fun _ => Size0] are the methods of [View] itself. *)
#[local] Unset Elimination Schemes.
Inductive View := mkView {
  frame : Rect;
  padding : Insets;
  border : Insets;
  interactive : bool;
  disabled : bool;
  dirty : bool;
  index : Z;
  options : gmap string pyval;
  minimum_size_hook : option Size;
  content_size_hook : Size -> Size;
  subviews : list View
}.
#[local] Set Elimination Schemes.

Definition with_frame (v : View) (f : Rect) : View :=
  mkView f (padding v) (border v) (interactive v) (disabled v) (dirty v)
         (index v) (options v) (minimum_size_hook v) (content_size_hook v)
         (subviews v).

Definition with_subviews (v : View) (l : list View) : View :=
  mkView (frame v) (padding v) (border v) (interactive v) (disabled v)
         (dirty v) (index v) (options v) (minimum_size_hook v)
         (content_size_hook v) l.

(** *** minimum_size *)

(** The loop of [View.minimum_size] over the subviews; [msize] is the
    subview's own [minimum_size()], [acc] is [(min_w, min_h)]. *)
Definition minimum_size_loop (msize : View -> Size) : list View -> Size -> Size :=
  fix loop (views : list View) (acc : Size) : Size :=
    match views with
    | [] => acc
    | view :: rest =>
        let m := msize view in
        loop rest
          (mkSize
             (Z.max (w m) (w acc + iaxis (padding view) HORIZONTAL
                                 + iaxis (border view) HORIZONTAL))
             (Z.max (h m) (h acc + iaxis (padding view) VERTICAL
                                 + iaxis (border view) VERTICAL)))
    end.

(** [view.minimum_size()]: the class's override when it has one, else
    [View.minimum_size]. *)
Fixpoint minimum_size (v : View) : Size :=
  match minimum_size_hook v with
  | Some s => s
  | None => minimum_size_loop minimum_size (subviews v) (mkSize 0 0)
  end.

(** [View.minimum_size] itself, on a node of any class. *)
Definition View_minimum_size (v : View) : Size :=
  minimum_size_loop minimum_size (subviews v) (mkSize 0 0).

(** *** resize and reposition *)

(** The loop of [View.resize]: every subview resized, with the running
    [(max_w, max_h)]. *)
Definition resize_loop (resize_in : View -> View) : list View -> Z -> Z -> list View * Z * Z :=
  fix loop (views : list View) (max_w max_h : Z) : list View * Z * Z :=
    match views with
    | [] => ([], max_w, max_h)
    | view :: rest =>
        let view' := resize_in view in
        let '(rest', mw, mh) :=
          loop rest (Z.max max_w (width (frame view')))
                    (Z.max max_h (height (frame view'))) in
        (view' :: rest', mw, mh)
    end.

(** [View.resize]: returns the node with its subviews resized and its
    frame size set. *)
Fixpoint resize (available : Size) (v : View) : View :=
  let inside :=
    mkSize (Z.max 0 (w available - iwidth (padding v) - iwidth (border v)))
           (Z.max 0 (h available - iheight (padding v) - iheight (border v))) in
  let '(views', max_w, max_h) := resize_loop (resize inside) (subviews v) 0 0 in
  let size := content_size_hook v inside in
  let max_w := Z.max max_w (w size) in
  let max_h := Z.max max_h (h size) in
  with_frame (with_subviews v views')
    (set_size (frame v)
       (mkSize (max_w + iwidth (padding v) + iwidth (border v))
               (max_h + iheight (padding v) + iheight (border v)))).

(** The loop of [View.reposition]. *)
Definition reposition_loop (reposition_in : View -> View) : list View -> list View :=
  fix loop (views : list View) : list View :=
    match views with
    | [] => []
    | view :: rest => reposition_in view :: loop rest
    end.

(** [View.reposition]: returns the node with its frame origin set and
    its subviews repositioned. *)
Fixpoint reposition (inside : Rect) (v : View) : View :=
  let origin' :=
    mkPoint (left inside + (width inside - width (frame v)) / 2)
            (top inside + (height inside - height (frame v)) / 2) in
  let inner := rect_sub (rect_sub inside (padding v)) (border v) in
  with_frame (with_subviews v (reposition_loop (reposition inner) (subviews v)))
             (set_origin (frame v) origin').

(** *** find and find_all *)

(** [getattr(self, attr, None)] for the attributes a filter can name:
    the four flags and numbers of a view that the tree carries, and the
    attributes set on the instance.  The tree carries neither the class
    of a view nor its parent, its window or the objects it refers to:
    the other names of the class [View] are not among the attributes
    this function answers for. *)
Definition getattr (v : View) (attr : string) : pyval :=
  if String.eqb attr "interactive" then PBool (interactive v)
  else if String.eqb attr "disabled" then PBool (disabled v)
  else if String.eqb attr "dirty" then PBool (dirty v)
  else if String.eqb attr "index" then PInt (index v)
  else default PNone (options v !! attr).

(** [all(getattr(self, attr, None) == value for attr, value in filters.items())]. *)
Definition matches (filters : list (string * pyval)) (v : View) : bool :=
  forallb (fun kv => py_eqb (getattr v (fst kv)) (snd kv)) filters.

(** The loop of [View.find]: the first subview, in order, whose [find]
    gives a view. *)
Definition find_loop (find_in : View -> option View) : list View -> option View :=
  fix loop (views : list View) : option View :=
    match views with
    | [] => None
    | view :: rest =>
        match find_in view with
        | Some found => Some found
        | None => loop rest
        end
    end.

(** [View.find]; [None] is Python's [None]. *)
Fixpoint find (pt : Point) (filters : list (string * pyval)) (v : View) : option View :=
  if contains (frame v) pt then
    match find_loop (find pt filters) (subviews v) with
    | Some found => Some found
    | None => if matches filters v then Some v else None
    end
  else None.

(** The loop of [View.find_all]. *)
Definition find_all_loop (find_all_in : View -> list View) : list View -> list View :=
  fix loop (views : list View) : list View :=
    match views with
    | [] => []
    | view :: rest => find_all_in view ++ loop rest
    end.

(** [View.find_all]. *)
Fixpoint find_all (filters : list (string * pyval)) (v : View) : list View :=
  (if matches filters v then [v] else []) ++
  find_all_loop (find_all filters) (subviews v).

End Tree.

(** ** The object store *)

Module Store.

(** A location of the store: the identity of a Python object. *)
Definition loc := nat.

(** Modelled from the spec: [pyui.env.Environment] is not among the
    sources.  An environment holds the fields its owner set explicitly
    ([own]) and the ones it inherited; "each child's Environment starts
    as a copy of the parent's, then has the child's own explicit
    overrides applied", and a read sees the nearest override. *)
Record Environment := mkEnv {
  own : gmap string pyval;
  inherited : gmap string pyval
}.

(** Modelled from the spec: the fields an environment reads, its own
    overrides laid over what it inherited. *)
Definition env_fields (e : Environment) : gmap string pyval :=
  own e ∪ inherited e.

(** Modelled from the spec: reading a field of an environment. *)
Definition env_read (e : Environment) (field : string) : option pyval :=
  env_fields e !! field.

(** Modelled from the spec: [self.inherit(env)] replaces what [self]
    inherited by a copy of the fields [env] reads. *)
Definition inherit (self env : Environment) : Environment :=
  mkEnv (own self) (env_fields env).

(** What iterating a declared child yields: a view, or a value of
    another runtime type. *)
Inductive value :=
| VView (view : loc)
| VOther (tyname : string).

(** A declared child in [contents].  A [View] yields itself
    ([View.__iter__]); a [ForEach] yields from [builder(item)] for each
    item ([ForEach.__iter__]), [builder item] being the values that
    iterating the builder's result yields.  The views a builder returns
    are objects of the store: a builder that constructs its views is
    taken with those views in the store already, the same ones at every
    call.  A declared child that cannot be iterated is not a value of
    this type. *)
Inductive descr :=
| DView (view : loc)
| DForEach (items : list pyval) (builder : pyval -> list value).

(** A view object, with the attributes the methods below read or
    write.  [minimum_size_hook] and [content_size_hook] stand for the
    two measuring methods a widget class overrides; [None] and
    [fun _ => Size0] are the methods of [View] itself. *)
Record ViewObj := mkObj {
  frame : Rect;
  padding : Insets;
  border : Insets;
  dirty : bool;
  parent : option loc;
  index : Z;
  env : loc;
  contents : list descr;
  subviews : list loc;
  minimum_size_hook : option Size;
  content_size_hook : Size -> Size
}.

Definition set_frame (f : Rect) (o : ViewObj) : ViewObj :=
  mkObj f (padding o) (border o) (dirty o) (parent o) (index o) (env o)
        (contents o) (subviews o) (minimum_size_hook o) (content_size_hook o).
Definition set_dirty (d : bool) (o : ViewObj) : ViewObj :=
  mkObj (frame o) (padding o) (border o) d (parent o) (index o) (env o)
        (contents o) (subviews o) (minimum_size_hook o) (content_size_hook o).
Definition set_parent (p : option loc) (o : ViewObj) : ViewObj :=
  mkObj (frame o) (padding o) (border o) (dirty o) p (index o) (env o)
        (contents o) (subviews o) (minimum_size_hook o) (content_size_hook o).
Definition set_index (i : Z) (o : ViewObj) : ViewObj :=
  mkObj (frame o) (padding o) (border o) (dirty o) (parent o) i (env o)
        (contents o) (subviews o) (minimum_size_hook o) (content_size_hook o).
Definition set_subviews (l : list loc) (o : ViewObj) : ViewObj :=
  mkObj (frame o) (padding o) (border o) (dirty o) (parent o) (index o) (env o)
        (contents o) l (minimum_size_hook o) (content_size_hook o).

(** The store: the view objects and the environment objects. *)
Record state := mkState {
  views : gmap loc ViewObj;
  envs : gmap loc Environment
}.

(** [View.env = Environment()] is evaluated once, in the class body:
    every view whose options give it no [env] of its own refers to this
    one object. *)
Definition class_env : loc := 0%nat.

Inductive exn :=
| ValueError (msg : string).

(** The outcome of a call: a result, an exception (both with the store
    as the call left it), recursion deeper than the fuel, or a reference
    to no object. *)
Inductive outcome (A : Type) :=
| Ok (a : A) (s : state)
| Raise (e : exn) (s : state)
| OutOfFuel
| Dangling.
Arguments Ok {A} a s.
Arguments Raise {A} e s.
Arguments OutOfFuel {A}.
Arguments Dangling {A}.

Definition M (A : Type) : Type := state -> outcome A.

Definition ret {A} (a : A) : M A := fun s => Ok a s.
Definition raise {A} (e : exn) : M A := fun s => Raise e s.
Definition out_of_fuel {A} : M A := fun _ => OutOfFuel.
Definition bind {A B} (c : M A) (k : A -> M B) : M B :=
  fun s =>
    match c s with
    | Ok a s' => k a s'
    | Raise e s' => Raise e s'
    | OutOfFuel => OutOfFuel
    | Dangling => Dangling
    end.

#[global] Instance M_ret : MRet M := @ret.
#[global] Instance M_bind : MBind M := fun A B k c => bind c k.

Definition get_view (l : loc) : M ViewObj :=
  fun s => match views s !! l with Some o => Ok o s | None => Dangling end.

Definition update_view (l : loc) (f : ViewObj -> ViewObj) : M unit :=
  fun s =>
    match views s !! l with
    | Some o => Ok tt (mkState (<[l := f o]> (views s)) (envs s))
    | None => Dangling
    end.

(** [child.inherit(parent)] on the environment objects at the two
    locations. *)
Definition env_inherit (child parent : loc) : M unit :=
  fun s =>
    match envs s !! child, envs s !! parent with
    | Some ec, Some ep => Ok tt (mkState (views s) (<[child := inherit ec ep]> (envs s)))
    | _, _ => Dangling
    end.

(** *** rebuild *)

(** [iter(view)] for a declared child: the values it yields. *)
Definition iter (d : descr) : list value :=
  match d with
  | DView view => [VView view]
  | DForEach items builder => flat_map builder items
  end.

(** [View.content]: the values the declared children yield, in order. *)
Definition content (o : ViewObj) : list value := flat_map iter (contents o).

(** The message of the [ValueError], [tyname] being
    [view.__class__.__name__]. *)
Definition error_message (tyname : string) : string :=
  ("Subviews must be instances of View (got " ++ tyname ++ ").")%string.

(** The loop of [View.rebuild] over [enumerate(self.content())], from
    index [idx] on, with [new_subviews] as collected so far; [rebuild] is
    the recursive call. *)
Fixpoint rebuild_loop (rebuild : loc -> M unit) (self : loc)
    (produced : list value) (idx : Z) (new_subviews : list loc) : M (list loc) :=
  match produced with
  | [] => ret new_subviews
  | VOther tyname :: _ => raise (ValueError (error_message tyname))
  | VView view :: rest =>
      update_view view (set_parent (Some self));;
      update_view view (set_index idx);;
      child ← get_view view;
      me ← get_view self;
      env_inherit (env child) (env me);;
      rebuild view;;
      rebuild_loop rebuild self rest (idx + 1) (new_subviews ++ [view])
  end.

(** [View.rebuild]; [self.subviews] is assigned once the loop is
    through. *)
Fixpoint rebuild (fuel : nat) (self : loc) : M unit :=
  match fuel with
  | O => out_of_fuel
  | S n =>
      me ← get_view self;
      new_subviews ← rebuild_loop (rebuild n) self (content me) 0 [];
      update_view self (set_subviews new_subviews)
  end.

(** *** root and state_changed *)

(** [View.root]: follow [parent] until a view has none. *)
Fixpoint root (fuel : nat) (view : loc) : M loc :=
  match fuel with
  | O => out_of_fuel
  | S n =>
      o ← get_view view;
      match parent o with
      | Some p => root n p
      | None => ret view
      end
  end.

(** [View.state_changed]; it uses neither [name] nor [value]. *)
Definition state_changed (fuel : nat) (self : loc) (name : string) (value : pyval) : M unit :=
  rebuild fuel self;;
  r ← root fuel self;
  update_view r (set_dirty true).

(** *** minimum_size, resize, reposition, layout *)

(** The loop of [View.minimum_size] over the subviews. *)
Fixpoint minimum_size_loop (minimum_size : loc -> M Size) (views : list loc)
    (min_w min_h : Z) : M Size :=
  match views with
  | [] => ret (mkSize min_w min_h)
  | view :: rest =>
      m ← minimum_size view;
      o ← get_view view;
      minimum_size_loop minimum_size rest
        (Z.max (w m) (min_w + iaxis (padding o) HORIZONTAL + iaxis (border o) HORIZONTAL))
        (Z.max (h m) (min_h + iaxis (padding o) VERTICAL + iaxis (border o) VERTICAL))
  end.

(** [view.minimum_size()]: the class's override when it has one, else
    [View.minimum_size]. *)
Fixpoint minimum_size (fuel : nat) (self : loc) : M Size :=
  match fuel with
  | O => out_of_fuel
  | S n =>
      me ← get_view self;
      match minimum_size_hook me with
      | Some s => ret s
      | None => minimum_size_loop (minimum_size n) (subviews me) 0 0
      end
  end.

(** The loop of [View.resize]: each subview is resized, then its frame
    is read for [(max_w, max_h)]. *)
Fixpoint resize_loop (resize : loc -> Size -> M unit) (inside : Size)
    (views : list loc) (max_w max_h : Z) : M (Z * Z) :=
  match views with
  | [] => ret (max_w, max_h)
  | view :: rest =>
      resize view inside;;
      o ← get_view view;
      resize_loop resize inside rest
        (Z.max max_w (width (frame o))) (Z.max max_h (height (frame o)))
  end.

(** [View.resize] on the store. *)
Fixpoint resize (fuel : nat) (self : loc) (available : Size) : M unit :=
  match fuel with
  | O => out_of_fuel
  | S n =>
      me ← get_view self;
      let inside :=
        mkSize (Z.max 0 (w available - iwidth (padding me) - iwidth (border me)))
               (Z.max 0 (h available - iheight (padding me) - iheight (border me))) in
      maxes ← resize_loop (resize n) inside (subviews me) 0 0;
      me ← get_view self;
      let size := content_size_hook me inside in
      let max_w := Z.max (fst maxes) (w size) in
      let max_h := Z.max (snd maxes) (h size) in
      update_view self (fun o =>
        set_frame (set_size (frame o)
          (mkSize (max_w + iwidth (padding o) + iwidth (border o))
                  (max_h + iheight (padding o) + iheight (border o)))) o)
  end.

(** The loop of [View.reposition]. *)
Fixpoint reposition_loop (reposition : loc -> Rect -> M unit) (inner : Rect)
    (views : list loc) : M unit :=
  match views with
  | [] => ret tt
  | view :: rest => reposition view inner;; reposition_loop reposition inner rest
  end.

(** [View.reposition] on the store: the origin is assigned first, then
    the subviews are placed within [inside] less padding and border. *)
Fixpoint reposition (fuel : nat) (self : loc) (inside : Rect) : M unit :=
  match fuel with
  | O => out_of_fuel
  | S n =>
      update_view self (fun o =>
        set_frame (set_origin (frame o)
          (mkPoint (left inside + (width inside - width (frame o)) / 2)
                   (top inside + (height inside - height (frame o)) / 2))) o);;
      me ← get_view self;
      let inner := rect_sub (rect_sub inside (padding me)) (border me) in
      reposition_loop (reposition n) inner (subviews me)
  end.

(** [View.layout]: [if not self.subviews: self.rebuild()], then resize,
    reposition and [self.dirty = False]. *)
Definition layout (fuel : nat) (self : loc) (rect : Rect) : M unit :=
  me ← get_view self;
  match subviews me with
  | [] => rebuild fuel self
  | _ :: _ => ret tt
  end;;
  resize fuel self (size rect);;
  reposition fuel self rect;;
  update_view self (set_dirty false).

End Store.

(** ** Notions the statements about the tree use *)

Module TreeSpec.
Import Tree.

(** The nodes of a tree in pre-order: a node before the nodes of its
    subviews, the subviews in declaration order. *)
Fixpoint preorder (v : View) : list View :=
  v :: flat_map preorder (subviews v).

(** [Hit pt filters v d]: [d] is a node of the tree [v] that satisfies
    the filters, at the end of a chain of nodes from [v] whose frames
    all contain [pt]. *)
Inductive Hit (pt : Point) (filters : list (string * pyval)) : View -> View -> Prop :=
| hit_here v :
    contains (frame v) pt = true -> matches filters v = true ->
    Hit pt filters v v
| hit_below v c d :
    contains (frame v) pt = true -> In c (subviews v) ->
    Hit pt filters c d ->
    Hit pt filters v d.

(** The largest width, and height, among the frames of a list of views;
    zero for no view. *)
Definition max_width (views : list View) : Z :=
  fold_right Z.max 0 (map (fun c => width (frame c)) views).
Definition max_height (views : list View) : Z :=
  fold_right Z.max 0 (map (fun c => height (frame c)) views).

(** One step of the fold of the minimum size over the subviews, in the
    words of the specification. *)
Definition min_fold_step (running : Size) (child : View) : Size :=
  mkSize
    (Z.max (w (minimum_size child))
           (w running + iaxis (padding child) HORIZONTAL + iaxis (border child) HORIZONTAL))
    (Z.max (h (minimum_size child))
           (h running + iaxis (padding child) VERTICAL + iaxis (border child) VERTICAL)).

(** [inner = frame - padding - border], as the specification words the
    reposition pass. *)
Definition inner_of_frame (v : View) : Rect :=
  rect_sub (rect_sub (frame v) (padding v)) (border v).

End TreeSpec.

(** ** Example trees *)

Module TreeExamples.
Import Tree.

(** A view of class [View] but for its [content_size], with no insets
    and a zero frame. *)
Definition plain (cs : Size) (sub : list View) : View :=
  mkView Rect0 Insets0 Insets0 false false false 0 ∅ None (fun _ => cs) sub.

(** A node whose content measures 5 by 5, with one subview whose content
    measures 2 by 2, resized for a 10 by 10 area. *)
Definition off_center : View :=
  resize (mkSize 10 10) (plain (mkSize 5 5) [plain (mkSize 2 2) []]).

(** Two leaves that overlap on the square from (5,5) to (10,10), the
    first declared [sibling_a], under one parent. *)
Definition at_rect (r : Rect) (sub : list View) : View :=
  mkView r Insets0 Insets0 false false false 0 ∅ None (fun _ => Size0) sub.

Definition sibling_a : View := at_rect (mkRect (mkPoint 0 0) (mkSize 10 10)) [].
Definition sibling_b : View := at_rect (mkRect (mkPoint 5 5) (mkSize 10 10)) [].
Definition two_siblings : View :=
  at_rect (mkRect (mkPoint 0 0) (mkSize 20 20)) [sibling_a; sibling_b].

(** Three levels, every frame containing the point (3,3). *)
Definition level3 : View := at_rect (mkRect (mkPoint 2 2) (mkSize 2 2)) [].
Definition level2 : View := at_rect (mkRect (mkPoint 1 1) (mkSize 4 4)) [level3].
Definition level1 : View := at_rect (mkRect (mkPoint 0 0) (mkSize 6 6)) [level2].

End TreeExamples.

(** ** Notions the statements about the store use *)

Module StoreSpec.
Import Store.

(** The views among produced values, in order. *)
Fixpoint views_of (produced : list value) : list loc :=
  match produced with
  | [] => []
  | VView c :: rest => c :: views_of rest
  | VOther _ :: rest => views_of rest
  end.

(** [Malformed s l ty]: reconciling [l] meets a value of runtime type
    [ty] that is no view, among the values [l] declares or, through the
    views it declares, further down. *)
Inductive Malformed (s : state) : loc -> string -> Prop :=
| malformed_here l o ty :
    views s !! l = Some o -> In (VOther ty) (content o) ->
    Malformed s l ty
| malformed_below l o c ty :
    views s !! l = Some o -> In (VView c) (content o) ->
    Malformed s c ty ->
    Malformed s l ty.

(** The same for a list of produced values. *)
Definition Offends (s : state) (produced : list value) (ty : string) : Prop :=
  In (VOther ty) produced \/ exists c, In (VView c) produced /\ Malformed s c ty.

(** A store is well formed for a rank [rk] below [N] when every
    reference is to an object, the views a view declares and its
    subviews have a smaller rank, and its parent a larger one: the
    declarations have no cycle. *)
Record wf (rk : loc -> nat) (N : nat) (s : state) : Prop := mkWf {
  wf_rank : forall l o, views s !! l = Some o -> (rk l < N)%nat;
  wf_env : forall l o, views s !! l = Some o -> is_Some (envs s !! env o);
  wf_content : forall l o c, views s !! l = Some o -> In (VView c) (content o) ->
    is_Some (views s !! c) /\ (rk c < rk l)%nat;
  wf_subviews : forall l o c, views s !! l = Some o -> In c (subviews o) ->
    is_Some (views s !! c) /\ (rk c < rk l)%nat;
  wf_parent : forall l o p, views s !! l = Some o -> parent o = Some p ->
    is_Some (views s !! p) /\ (rk l < rk p)%nat
}.

(** [wf], as a check that computes. *)
Definition wfb (rk : loc -> nat) (N : nat) (s : state) : bool :=
  forallb (fun lo =>
    let l := fst lo in
    let o := snd lo in
    (rk l <? N)%nat
    && bool_decide (is_Some (envs s !! env o))
    && forallb (fun v =>
         match v with
         | VView c => bool_decide (is_Some (views s !! c)) && (rk c <? rk l)%nat
         | VOther _ => true
         end) (content o)
    && forallb (fun c => bool_decide (is_Some (views s !! c)) && (rk c <? rk l)%nat)
         (subviews o)
    && match parent o with
       | Some p => bool_decide (is_Some (views s !! p)) && (rk l <? rk p)%nat
       | None => true
       end) (map_to_list (views s)).

(** Every value a view declares is a view, as a check that computes. *)
Definition declares_viewsb (s : state) : bool :=
  forallb (fun lo =>
    forallb (fun v => match v with VView _ => true | VOther _ => false end)
      (content (snd lo)))
    (map_to_list (views s)).

(** [private_envs], as a check that computes. *)
Definition private_envsb (s : state) : bool :=
  forallb (fun a =>
    forallb (fun b => negb (Nat.eqb (env (snd a)) (env (snd b))) || Nat.eqb (fst a) (fst b))
      (map_to_list (views s)))
    (map_to_list (views s)).

(** [o'] is [o] but for its links [parent], [index] and [subviews]. *)
Definition relinked (o o' : ViewObj) : Prop :=
  o' = mkObj (frame o) (padding o) (border o) (dirty o) (parent o') (index o')
             (env o) (contents o) (subviews o') (minimum_size_hook o)
             (content_size_hook o).

(** [o'] is [o] but for its frame. *)
Definition reframed (o o' : ViewObj) : Prop := o' = set_frame (frame o') o.

(** [evolves rk T s s']: from [s] to [s'] only views of rank below [T]
    were relinked, and only environments of such views were made to
    inherit; no environment lost or gained an override of its own. *)
Record evolves (rk : loc -> nat) (T : nat) (s s' : state) : Prop := mkEvolves {
  ev_views : forall x,
    match views s !! x, views s' !! x with
    | Some o, Some o' => relinked o o' /\ ((T <= rk x)%nat -> o' = o)
    | None, None => True
    | _, _ => False
    end;
  ev_envs : forall e,
    match envs s !! e, envs s' !! e with
    | Some E, Some E' =>
        own E' = own E /\
        ((forall x o, views s !! x = Some o -> env o = e -> (T <= rk x)%nat) -> E' = E)
    | None, None => True
    | _, _ => False
    end
}.

(** [relaid s s']: from [s] to [s'] only frames changed. *)
Record relaid (s s' : state) : Prop := mkRelaid {
  rl_views : forall x,
    match views s !! x, views s' !! x with
    | Some o, Some o' => reframed o o'
    | None, None => True
    | _, _ => False
    end;
  rl_envs : envs s' = envs s
}.

(** Every view has an environment object of its own. *)
Definition private_envs (s : state) : Prop :=
  forall x y ox oy, views s !! x = Some ox -> views s !! y = Some oy ->
    env ox = env oy -> x = y.

(** Ranks strictly decreasing along a list of views. *)
Fixpoint descending (rk : loc -> nat) (l : list loc) : Prop :=
  match l with
  | [] => True
  | c :: rest => Forall (fun d => (rk d < rk c)%nat) rest /\ descending rk rest
  end.

(** What reconciling the view [c] does to a store [s], as an outcome.
    Either only views below [c] were relinked, up to a store [m], and
    the call returns [m] with the views [c] declares installed as its
    subviews, nothing being malformed; or it raises the [ValueError] for
    a malformed value, and only views below [c] changed. *)
Definition reconciles (rk : loc -> nat) (N : nat) (c : loc) (o : ViewObj)
    (s : state) (out : outcome unit) : Prop :=
  (exists m,
     out = Ok tt (mkState (<[c := set_subviews (views_of (content o)) o]> (views m))
                          (envs m)) /\
     evolves rk (rk c) s m /\
     wf rk N (mkState (<[c := set_subviews (views_of (content o)) o]> (views m))
                      (envs m)) /\
     forall ty, ~ Malformed s c ty) \/
  (exists ty s', out = Raise (ValueError (error_message ty)) s' /\
     evolves rk (rk c) s s' /\ wf rk N s' /\ Malformed s c ty).

(** One more than the rank of the first view of a list. *)
Definition rank_bound (rk : loc -> nat) (cs : list loc) : nat :=
  match cs with
  | [] => O
  | c :: _ => S (rk c)
  end.

(** A view as [rebuild] on [self] leaves it when it is produced at
    index [idx]. *)
Definition attached (self : loc) (idx : Z) (o : ViewObj) : ViewObj :=
  set_subviews (views_of (content o)) (set_index idx (set_parent (Some self) o)).

Definition dirty_of (s : state) (l : loc) : option bool := dirty <$> views s !! l.
Definition frame_of (s : state) (l : loc) : option Rect := frame <$> views s !! l.

(** [below s l x]: the view [x] is declared in the subtree of [l], by
    [l] itself or by a view declared below [l]. *)
Inductive below (s : state) (l : loc) : loc -> Prop :=
| below_child o c :
    views s !! l = Some o -> In (VView c) (content o) -> below s l c
| below_deeper p o c :
    below s l p -> views s !! p = Some o -> In (VView c) (content o) ->
    below s l c.

(** The declarations form a tree: a view declares no view twice, and no
    view is declared by two views. *)
Definition declared_once (s : state) : Prop :=
  (forall l o, views s !! l = Some o -> NoDup (views_of (content o))) /\
  (forall l l' o o' c, views s !! l = Some o -> views s !! l' = Some o' ->
     In (VView c) (content o) -> In (VView c) (content o') -> l = l').

(** [declared_once], as a check that computes. *)
Definition declared_onceb (s : state) : bool :=
  forallb (fun a =>
    bool_decide (NoDup (views_of (content (snd a)))) &&
    forallb (fun b =>
      forallb (fun c =>
        negb (bool_decide (c ∈ views_of (content (snd b)))) || Nat.eqb (fst a) (fst b))
        (views_of (content (snd a))))
      (map_to_list (views s)))
    (map_to_list (views s)).

(** [settled s x]: the view [x] is as a completed [rebuild] leaves it:
    its [subviews] are the views it declares, in order, and the one at
    position [i] has [x] as [parent] and [i] as [index]. *)
Definition settled (s : state) (x : loc) : Prop :=
  exists o, views s !! x = Some o /\
    subviews o = views_of (content o) /\
    forall i c, subviews o !! i = Some c ->
      exists oc, views s !! c = Some oc /\
        parent oc = Some x /\ index oc = Z.of_nat i.

(** The subtree of [l] is reconciled: [l] and every view declared below
    it are settled. *)
Definition subtree_reconciled (s : state) (l : loc) : Prop :=
  settled s l /\ forall x, below s l x -> settled s x.

(** From [s] to [s'] no view but [l] and the views declared below it
    was written to. *)
Definition outside_untouched (s s' : state) (l : loc) : Prop :=
  forall x, x <> l -> ~ below s l x -> views s' !! x = views s !! x.

(** The views of [s'] declare what they declare in [s]. *)
Definition same_contents (s s' : state) : Prop :=
  forall x, content <$> views s' !! x = content <$> views s !! x.

(** An outcome that left the store [s']: a result or an exception. *)
Definition leaves {A} (out : outcome A) (s' : state) : Prop :=
  (exists a, out = Ok a s') \/ (exists e, out = Raise e s').

(** A frame is centered in a rect, with the rounding of [reposition]. *)
Definition centered_in (inner f : Rect) : Prop :=
  left f = left inner + (width inner - width f) / 2 /\
  top f = top inner + (height inner - height f) / 2.

End StoreSpec.

(** ** Example stores *)

Module StoreExamples.
Import Store StoreSpec.
Local Open Scope nat_scope.

(** A freshly constructed view of class [View]: zero frame, no insets,
    no parent, no subviews yet. *)
Definition fresh (e : loc) (declared : list descr) : ViewObj :=
  mkObj Rect0 Insets0 Insets0 false None 0 e declared [] None (fun _ => Size0).

Definition empty_env : Environment := mkEnv ∅ ∅.

(** The rank of a location in the examples: the root is at 0 and a view
    declared later or deeper has a larger location. *)
Definition rank (l : loc) : nat := 4 - l.

(** A root that declares the views 1 and 2, then a [ForEach] whose
    builder yields an [int], then the view 3; view 1 declares view 3.
    Every view has an environment of its own. *)
Definition broken : state :=
  mkState
    (<[0 := fresh 0 [DView 1; DView 2;
                         DForEach [PInt 7] (fun _ => [VOther "int"]); DView 3]]>
     (<[1 := fresh 1 [DView 3]]>
     (<[2 := fresh 2 []]>
     (<[3 := fresh 3 []]> ∅))))
    (<[0 := mkEnv {[ "font" := PStr "serif" ]} ∅]>
     (<[1 := empty_env]>
     (<[2 := empty_env]>
     (<[3 := empty_env]> ∅)))).

(** A root with the children 1 and 2, and 3 under 1.  The root and the
    views 2 and 3 were given no [env]: theirs is the one of the class.
    View 1 was constructed with an environment of its own, at location
    1, holding the overrides [own1]. *)
Definition family (own1 : gmap string pyval) : state :=
  mkState
    (<[0 := fresh class_env [DView 1; DView 2]]>
     (<[1 := fresh 1 [DView 3]]>
     (<[2 := fresh class_env []]>
     (<[3 := fresh class_env []]> ∅))))
    (<[class_env := empty_env]>
     (<[1 := mkEnv own1 ∅]> ∅)).

(** The family once the root was reconciled and view 1 was then given
    view 3 to declare ([View.__call__]): the views 1 and 2 are attached
    to the root, view 1 has no subviews yet and view 3 no parent. *)
Definition grown : state :=
  mkState
    (<[0 := set_subviews [1; 2] (fresh class_env [DView 1; DView 2])]>
     (<[1 := set_parent (Some 0) (fresh 1 [DView 3])]>
     (<[2 := set_index 1 (set_parent (Some 0) (fresh class_env []))]>
     (<[3 := fresh class_env []]> ∅))))
    (<[class_env := empty_env]>
     (<[1 := empty_env]> ∅)).

Definition broken_root : ViewObj :=
  fresh 0 [DView 1; DView 2; DForEach [PInt 7] (fun _ => [VOther "int"]); DView 3].

(** The store an outcome left, [s] when there is none. *)
Definition store_after {A} (s : state) (out : outcome A) : state :=
  match out with
  | Ok _ s' => s'
  | Raise _ s' => s'
  | _ => s
  end.

(** The family once the root was reconciled. *)
Definition family_built (own1 : gmap string pyval) : state :=
  store_after (family own1) (rebuild 5 0 (family own1)).

(** What the view at [l] reads for an environment field. *)
Definition reads (s : state) (l : loc) (field : string) : option pyval :=
  o ← views s !! l; e ← envs s !! env o; env_read e field.

(** A root with padding 10 on every edge that declares one leaf; the
    leaf's class overrides [minimum_size] and [content_size] as given. *)
Definition scene (leaf_minimum : option Size) (leaf_content : Size -> Size) : state :=
  mkState
    (<[0 := mkObj Rect0 (mkInsets 10 10 10 10) Insets0 false None 0 class_env
                      [DView 1] [] None (fun _ => Size0)]>
     (<[1 := mkObj Rect0 Insets0 Insets0 false None 0 class_env
                      [] [] leaf_minimum leaf_content]> ∅))
    (<[class_env := empty_env]> ∅).

Definition viewport (x0 y0 : Z) : Rect := mkRect (mkPoint x0 y0) (mkSize 200 100).

(** The scene once the root was laid out in the viewport. *)
Definition scene_laid_out (leaf_minimum : option Size) (leaf_content : Size -> Size)
    (x0 y0 : Z) : state :=
  store_after (scene leaf_minimum leaf_content)
    (layout 2 0 (viewport x0 y0) (scene leaf_minimum leaf_content)).

(** [frame - padding - border] of the view at [l]. *)
Definition inner_of (s : state) (l : loc) : option Rect :=
  (fun o => rect_sub (rect_sub (frame o) (padding o)) (border o)) <$> views s !! l.

End StoreExamples.

(** ** Rendering, and what a laid-out tree satisfies *)

Module TreeExtra.
Import Tree TreeSpec.

(** The loop of [View.render] over the subviews. *)
Definition render_loop (render_in : View -> list (View * Rect)) :
    list View -> list (View * Rect) :=
  fix loop (views : list View) : list (View * Rect) :=
    match views with
    | [] => []
    | view :: rest => render_in view ++ loop rest
    end.

(** [View.render], as the calls [self.draw(renderer, inner)] it makes,
    in order: the view drawn and the rect it is given. *)
Fixpoint render (v : View) : list (View * Rect) :=
  (v, rect_sub (rect_sub (frame v) (padding v)) (border v))
    :: render_loop render (subviews v).

#[local] Unset Elimination Schemes.

(** [Fits v]: the frame of every node of [v] holds its padding and
    border, and beside them each of its subviews' frames. *)
Inductive Fits : View -> Prop :=
| fits v :
    iwidth (padding v) + iwidth (border v) <= width (frame v) ->
    iheight (padding v) + iheight (border v) <= height (frame v) ->
    Forall (fun c =>
      width (frame c) + iwidth (padding v) + iwidth (border v) <= width (frame v) /\
      height (frame c) + iheight (padding v) + iheight (border v) <= height (frame v))
      (subviews v) ->
    Forall Fits (subviews v) ->
    Fits v.

(** A rect lies within another. *)
Definition within (r q : Rect) : Prop :=
  left q <= left r /\ right r <= right q /\ top q <= top r /\ bottom r <= bottom q.

(** [Nested v]: in every node of [v], each subview's frame lies within
    the node's frame less its padding and border. *)
Inductive Nested : View -> Prop :=
| nested v :
    Forall (fun c => within (frame c) (inner_of_frame v)) (subviews v) ->
    Forall Nested (subviews v) ->
    Nested v.

#[local] Set Elimination Schemes.

(** The frame sizes, and the frame origins, of the nodes in pre-order. *)
Definition sizes (v : View) : list Size := map (fun c => size (frame c)) (preorder v).
Definition origins (v : View) : list Point := map (fun c => origin (frame c)) (preorder v).

(** The names every view answers to: the attributes of the class
    [View], those its [__init__] sets, its properties and its methods. *)
Definition names_of_View : list string :=
  [ "priority"; "interactive"; "dirty"; "disabled"; "_window"; "parent";
    "index"; "env";
    "frame"; "padding"; "border"; "background_color"; "item_view";
    "contents"; "subviews";
    "id"; "id_path"; "root"; "window";
    "rebuild"; "content"; "dump"; "minimum_size"; "content_size"; "draw";
    "resize"; "reposition"; "layout"; "render"; "pad"; "disable";
    "background"; "item"; "resolve"; "find"; "find_all";
    "mousedown"; "mousemotion"; "mouseup"; "click"; "focus"; "blur";
    "keydown"; "keyup"; "textinput"; "state_changed" ]%string.

(** [optional attr]: a view has the attribute [attr] only if it was set
    on the instance.  The name is none of those every view answers to,
    and it does not start with an underscore, as do the names that
    Python gives every object ([__class__], [__dict__], ...). *)
Definition optional (attr : string) : Prop :=
  existsb (String.eqb attr) names_of_View = false /\
  String.prefix "_" attr = false.

(** A container of class [View] with two widgets whose classes override
    [minimum_size], the second with padding. *)
Definition widget (minimum : Size) (pad : Insets) : View :=
  mkView Rect0 pad Insets0 false false false 0 ∅ (Some minimum) (fun _ => Size0) [].

Definition two_widgets : View :=
  mkView Rect0 Insets0 Insets0 false false false 0 ∅ None (fun _ => Size0)
    [widget (mkSize 40 20) Insets0; widget (mkSize 10 30) (mkInsets 2 3 2 3)].

End TreeExtra.

(** ** Identifiers and lookup by path *)

Module Lookup.
Import Store.

(** What [__getitem__] and [resolve] answer: a view, [None], the
    [IndexError] of a list index out of range, or a reference to no
    object. *)
Inductive answer :=
| Found (view : loc)
| Nothing
| IndexError
| NoObject.

(** What a view is indexed by, and what a path is made of: an [int] or
    a string. *)
Inductive key :=
| KInt (i : Z)
| KStr (name : string).

Section Classes.

(** [view.__class__.__name__], fixed for each object. *)
Variable class_name : loc -> string.

(** [View.id]: ["{}-{}".format(self.__class__.__name__, self.index)]. *)
Definition id_of (l : loc) (o : ViewObj) : string :=
  (class_name l ++ "-" ++ pretty (index o))%string.

Definition id (s : state) (l : loc) : option string :=
  id_of l <$> views s !! l.

(** [View.id_path]: [path.insert(0, view.id)] along the parents, from
    the view up.  [None] when the fuel runs out or a reference is to no
    object. *)
Fixpoint id_path_loop (fuel : nat) (s : state) (view : option loc)
    (path : list string) : option (list string) :=
  match view with
  | None => Some path
  | Some v =>
      match fuel with
      | O => None
      | S n =>
          match views s !! v with
          | Some o => id_path_loop n s (parent o) (id_of v o :: path)
          | None => None
          end
      end
  end.

Definition id_path (fuel : nat) (s : state) (view : loc) : option (list string) :=
  id_path_loop fuel s (Some view) [].

(** The loop of [View.__getitem__] for a key that is no [int]: the first
    subview whose id is the key; falling off the loop returns [None]. *)
Fixpoint getitem_loop (s : state) (name : string) (views : list loc) : answer :=
  match views with
  | [] => Nothing
  | view :: rest =>
      match id s view with
      | Some i => if String.eqb i name then Found view else getitem_loop s name rest
      | None => NoObject
      end
  end.

(** [self.subviews[i]], with Python's negative indices. *)
Definition list_index (l : list loc) (i : Z) : answer :=
  let n := Z.of_nat (length l) in
  if (0 <=? i) && (i <? n) then
    match l !! Z.to_nat i with Some v => Found v | None => NoObject end
  else if (- n <=? i) && (i <? 0) then
    match l !! Z.to_nat (n + i) with Some v => Found v | None => NoObject end
  else IndexError.

(** [View.__getitem__]. *)
Definition getitem (s : state) (self : loc) (vid : key) : answer :=
  match views s !! self with
  | Some me =>
      match vid with
      | KInt i => list_index (subviews me) i
      | KStr name => getitem_loop s name (subviews me)
      end
  | None => NoObject
  end.

(** The loop of [View.resolve] over [path[1:]]. *)
Fixpoint descend (s : state) (view : loc) (parts : list key) : answer :=
  match parts with
  | [] => Found view
  | part :: rest =>
      match getitem s view part with
      | Found v => descend s v rest
      | other => other
      end
  end.

(** [View.resolve]. *)
Definition resolve (s : state) (self : loc) (path : list key) : answer :=
  match path with
  | [] => Nothing
  | KStr name :: rest =>
      match id s self with
      | Some i => if String.eqb name i then descend s self rest else Nothing
      | None => NoObject
      end
  | KInt _ :: _ =>
      match id s self with
      | Some _ => Nothing
      | None => NoObject
      end
  end.

(** [linked s]: every view with a parent is what its parent's lookup by
    id gives for the view's own id: the parent holds it among its
    subviews and no earlier sibling has the same id. *)
Definition linked (s : state) : Prop :=
  forall c o p, views s !! c = Some o -> parent o = Some p ->
    getitem s p (KStr (id_of c o)) = Found c.

(** [linked], as a check that computes. *)
Definition linkedb (s : state) : bool :=
  forallb (fun co =>
    match parent (snd co) with
    | Some p =>
        match getitem s p (KStr (id_of (fst co) (snd co))) with
        | Found c => Nat.eqb c (fst co)
        | _ => false
        end
    | None => true
    end) (map_to_list (views s)).

(** [adopted s]: every subview has the view that holds it as parent. *)
Definition adopted (s : state) : Prop :=
  forall p op c, views s !! p = Some op -> In c (subviews op) ->
    exists oc, views s !! c = Some oc /\ parent oc = Some p.

(** [adopted], as a check that computes. *)
Definition adoptedb (s : state) : bool :=
  forallb (fun po =>
    forallb (fun c =>
      match views s !! c with
      | Some oc =>
          match parent oc with
          | Some q => Nat.eqb q (fst po)
          | None => false
          end
      | None => false
      end) (subviews (snd po))) (map_to_list (views s)).

End Classes.

End Lookup.

(** ** Controls: text fields and sliders *)

Module Control.

(** A Python [str]: its code points. *)
Abbreviation str := (list N).

Definition newline : N := 10%N.
(** The bullet, U+2022. *)
Definition bullet : N := 8226%N.

(** Key codes and modifier masks of the SDL2 library, which
    [control.py] compares with. *)
Definition SDLK_BACKSPACE : Z := 8.
Definition SDLK_RETURN : Z := 13.
Definition SDLK_RIGHT : Z := 1073741903.
Definition SDLK_LEFT : Z := 1073741904.
Definition KMOD_SHIFT : Z := 3.

(** Python's [t[:i]] and [t[i:]]: a negative index counts from the end,
    and an index beyond either end stops there. *)
Definition slice_to {A} (t : list A) (i : Z) : list A :=
  if i <? 0 then take (Z.to_nat (Z.max 0 (Z.of_nat (length t) + i))) t
  else take (Z.to_nat i) t.

Definition slice_from {A} (t : list A) (i : Z) : list A :=
  if i <? 0 then drop (Z.to_nat (Z.max 0 (Z.of_nat (length t) + i))) t
  else drop (Z.to_nat i) t.

(** A [TextField]: the value of its [text] binding, and [_start] and
    [_end], [None] or an index. *)
Record TextField := mkTextField {
  text : str;
  placeholder : str;
  start_ : option Z;
  end_ : option Z
}.

(** [TextField.selection]: [None], or
    [set(range(min(start, end), max(start, end) + 1))]. *)
Definition selection (f : TextField) : option (gset Z) :=
  match start_ f, end_ f with
  | Some a, Some b =>
      Some (list_to_set (seqZ (Z.min a b) (Z.max a b + 1 - Z.min a b)))
  | _, _ => None
  end.

(** [TextField.keydown]; [mods] is not used. *)
Definition keydown (f : TextField) (key mods : Z) : TextField :=
  if key =? SDLK_BACKSPACE then
    match start_ f, end_ f with
    | Some a, Some b =>
        let s := Z.min a b in
        let e := Z.max a b in
        mkTextField (slice_to (text f) s ++ slice_from (text f) e) (placeholder f)
                    None None
    | _, _ =>
        mkTextField (slice_to (text f) (-1)) (placeholder f) (start_ f) (end_ f)
    end
  else if key =? SDLK_RETURN then
    mkTextField (text f ++ [newline]) (placeholder f) (start_ f) (end_ f)
  else f.

(** [TextField.textinput]. *)
Definition textinput (f : TextField) (typed : str) : TextField :=
  mkTextField (text f ++ typed) (placeholder f) (start_ f) (end_ f).

(** [TextField.mousedown], [found] being what [self._font.find] gives for
    the point, an index or [None]; returns the field and
    [self._start is not None]. *)
Definition mousedown (f : TextField) (found : option Z) : TextField * bool :=
  (mkTextField (text f) (placeholder f) found None,
   match found with Some _ => true | None => false end).

(** [TextField.mousemotion], [found] as for [mousedown]. *)
Definition mousemotion (f : TextField) (found : option Z) : TextField :=
  match found with
  | Some idx => mkTextField (text f) (placeholder f) (start_ f) (Some idx)
  | None => f
  end.

(** [TextField.text_representation], and [SecureField]'s. *)
Definition text_representation (f : TextField) : str := text f.
Definition secure_text_representation (f : TextField) : str :=
  repeat bullet (length (text f)).

(** A [Slider]: its bounds, the value of its [current] binding, and
    how many times that value was assigned. *)
Record Slider := mkSlider {
  minimum : Z;
  maximum : Z;
  current : Z;
  writes : nat
}.

(** [Slider.span]. *)
Definition span (sl : Slider) : Z := maximum sl - minimum sl + 1.

Section Clamp.

(** [pyui.utils.clamp], which is not among the sources. *)
Variable clamp : Z -> Z -> Z -> Z.

(** [Slider._set] for an [int]: the binding is assigned only when the
    clamped value differs. *)
Definition slider_set (sl : Slider) (value : Z) : Slider :=
  let clamped := clamp value (minimum sl) (maximum sl) in
  if negb (current sl =? clamped) then
    mkSlider (minimum sl) (maximum sl) clamped (S (writes sl))
  else sl.

(** [Slider.keydown]. *)
Definition slider_keydown (sl : Slider) (key mods : Z) : Slider :=
  let amt := if negb (Z.land mods KMOD_SHIFT =? 0) then span sl / 10 else 1 in
  if key =? SDLK_LEFT then slider_set sl (current sl - amt)
  else if key =? SDLK_RIGHT then slider_set sl (current sl + amt)
  else sl.

End Clamp.

End Control.

(** ** Facts about the tree *)

Section TreeFacts.
Import Tree TreeSpec TreeExamples.

(** Induction over a view with the hypothesis for every subview. *)
Lemma View_induction (P : View -> Prop) :
  (forall v, Forall P (subviews v) -> P v) -> forall v, P v.
Proof.
  intros IH.
  fix rec 1.
  intros [f p b i d dy ix o mh ch sub].
  apply IH. simpl.
  induction sub as [|c sub IHsub]; constructor.
  - apply rec.
  - exact IHsub.
Qed.

(** *** The loops as list functions *)

Lemma minimum_size_loop_fold (views : list View) (acc : Size) :
  minimum_size_loop minimum_size views acc = fold_left min_fold_step views acc.
Proof.
  revert acc. induction views as [|c rest IH]; intros acc; simpl.
  - reflexivity.
  - rewrite IH. reflexivity.
Qed.

Lemma fold_right_max_init (l : list Z) (a b : Z) :
  fold_right Z.max (Z.max a b) l = Z.max b (fold_right Z.max a l).
Proof. induction l as [|z l IH]; simpl; lia. Qed.

Lemma resize_loop_spec (f : View -> View) (views : list View) (mw mh : Z) :
  resize_loop f views mw mh
  = (map f views,
     fold_right Z.max mw (map (fun c => width (frame c)) (map f views)),
     fold_right Z.max mh (map (fun c => height (frame c)) (map f views))).
Proof.
  revert mw mh. induction views as [|c rest IH]; intros mw mh.
  - reflexivity.
  - simpl. rewrite IH, !fold_right_max_init. reflexivity.
Qed.

Lemma reposition_loop_map (f : View -> View) (views : list View) :
  reposition_loop f views = map f views.
Proof. induction views as [|c rest IH]; simpl; congruence. Qed.

Lemma find_all_loop_flat_map (f : View -> list View) (views : list View) :
  find_all_loop f views = flat_map f views.
Proof. induction views as [|c rest IH]; simpl; congruence. Qed.

(** The methods, one call unfolded. *)
Lemma find_unfold pt filters v :
  find pt filters v =
  if contains (frame v) pt then
    match find_loop (find pt filters) (subviews v) with
    | Some found => Some found
    | None => if matches filters v then Some v else None
    end
  else None.
Proof. destruct v; reflexivity. Qed.

Lemma find_all_unfold filters v :
  find_all filters v =
  (if matches filters v then [v] else []) ++ flat_map (find_all filters) (subviews v).
Proof. destruct v; simpl. rewrite find_all_loop_flat_map. reflexivity. Qed.

Lemma preorder_unfold v : preorder v = v :: flat_map preorder (subviews v).
Proof. destruct v; reflexivity. Qed.

(** *** minimum_size *)

(** C8.  [View.minimum_size] of a node is the fold over its subviews, in
    order and from zero on both axes, that takes on each axis the larger
    of the subview's own [minimum_size()] and the running minimum plus
    the subview's padding and border along that axis. *)
Theorem minimum_size_is_fold (v : View) :
  View_minimum_size v = fold_left min_fold_step (subviews v) (mkSize 0 0) /\
  minimum_size v =
    match minimum_size_hook v with
    | Some s => s
    | None => fold_left min_fold_step (subviews v) (mkSize 0 0)
    end.
Proof.
  split; [apply minimum_size_loop_fold|].
  destruct v as [f p b i d dy ix o mh ch sub]; simpl.
  destruct mh; [reflexivity | apply minimum_size_loop_fold].
Qed.

(** *** resize *)

(** C4.  For every node and offered size, [resize] offers the subviews
    [inside], the offered size less the node's padding and border and
    not below zero on either axis, resizes every subview with it, and
    sets the frame size to the larger, on each axis, of
    [content_size(inside)] and the largest subview frame, plus the
    node's padding and border.  The largest subview extent counts from
    zero, as the loop's [max_w] and [max_h] do. *)
Theorem resize_clamps_and_takes_maximum (available : Size) (v : View) :
  let inside :=
    mkSize (Z.max 0 (w available - iwidth (padding v) - iwidth (border v)))
           (Z.max 0 (h available - iheight (padding v) - iheight (border v))) in
  let v' := resize available v in
  0 <= w inside /\ 0 <= h inside /\
  subviews v' = map (resize inside) (subviews v) /\
  size (frame v') =
    mkSize (Z.max (max_width (subviews v')) (w (content_size_hook v inside))
              + iwidth (padding v) + iwidth (border v))
           (Z.max (max_height (subviews v')) (h (content_size_hook v inside))
              + iheight (padding v) + iheight (border v)) /\
  origin (frame v') = origin (frame v) /\
  padding v' = padding v /\ border v' = border v.
Proof.
  destruct v as [f p b i d dy ix o mh ch sub].
  cbn zeta. unfold resize; fold resize.
  cbn [subviews padding border frame content_size_hook].
  rewrite resize_loop_spec.
  cbn. unfold max_width, max_height.
  repeat split; lia.
Qed.

(** *** reposition *)

(** C2, as the code has it.  For every node, [reposition(inside)] sets
    the frame origin to [inside.origin + (inside.size - frame.size) / 2]
    with floor division on each axis, leaves the frame size as it was,
    and repositions every subview within [inside] less the node's
    padding and border. *)
Theorem reposition_centers_and_descends (inside : Rect) (v : View) :
  let v' := reposition inside v in
  let inner := rect_sub (rect_sub inside (padding v)) (border v) in
  origin (frame v') =
    mkPoint (left inside + (width inside - width (frame v)) / 2)
            (top inside + (height inside - height (frame v)) / 2) /\
  size (frame v') = size (frame v) /\
  subviews v' = map (reposition inner) (subviews v).
Proof.
  destruct v as [f p b i d dy ix o mh ch sub].
  cbn zeta. unfold reposition; fold reposition.
  rewrite reposition_loop_map. cbn. auto.
Qed.

(** C2, the claim as worded fails: the subview is placed within
    [inside] less the insets, at 4, and not within the node's own frame
    less the insets, which would put it at 3. *)
Lemma reposition_inner_is_not_from_frame :
  let inside := mkRect (mkPoint 0 0) (mkSize 10 10) in
  let v' := reposition inside off_center in
  frame v' = mkRect (mkPoint 2 2) (mkSize 5 5) /\
  map frame (subviews v') = [mkRect (mkPoint 4 4) (mkSize 2 2)] /\
  map frame (map (reposition (inner_of_frame v')) (subviews off_center))
    = [mkRect (mkPoint 3 3) (mkSize 2 2)] /\
  subviews v' <> map (reposition (inner_of_frame v')) (subviews off_center).
Proof.
  cbn zeta.
  assert (H1 : map frame (subviews (reposition (mkRect (mkPoint 0 0) (mkSize 10 10)) off_center))
               = [mkRect (mkPoint 4 4) (mkSize 2 2)]) by (vm_compute; reflexivity).
  assert (H2 : map frame (map (reposition (inner_of_frame
                 (reposition (mkRect (mkPoint 0 0) (mkSize 10 10)) off_center)))
                 (subviews off_center))
               = [mkRect (mkPoint 3 3) (mkSize 2 2)]) by (vm_compute; reflexivity).
  split; [vm_compute; reflexivity|].
  split; [exact H1|]. split; [exact H2|].
  intros E. rewrite E, H2 in H1. discriminate.
Qed.

(** *** find *)

Lemma find_loop_none (f : View -> option View) (views : list View) :
  find_loop f views = None <-> Forall (fun c => f c = None) views.
Proof.
  induction views as [|c rest IH]; simpl.
  - split; [constructor | reflexivity].
  - destruct (f c) eqn:E.
    + split; [discriminate | intros H; inversion H; congruence].
    + rewrite IH. split; [intros H; constructor; assumption | intros H; inversion H; assumption].
Qed.

Lemma find_loop_some (f : View -> option View) (views : list View) (r : View) :
  find_loop f views = Some r -> exists c, In c views /\ f c = Some r.
Proof.
  induction views as [|c rest IH]; simpl; [discriminate|].
  destruct (f c) eqn:E.
  - intros [= <-]. exists c. auto.
  - intros H. destruct (IH H) as (c' & Hin & Hc'). exists c'. auto.
Qed.

Lemma find_loop_skip (f : View -> option View) (pre post : list View) (a : View) :
  Forall (fun c => f c = None) pre ->
  find_loop f (pre ++ a :: post) =
  match f a with Some r => Some r | None => find_loop f post end.
Proof.
  induction 1 as [|c pre Hc _ IH]; simpl.
  - reflexivity.
  - rewrite Hc. exact IH.
Qed.

Lemma find_in_tree pt filters (v r : View) :
  find pt filters v = Some r -> In r (preorder v).
Proof.
  revert r. induction v as [v IH] using View_induction. intros r.
  rewrite find_unfold, preorder_unfold.
  destruct (contains (frame v) pt); [|discriminate].
  destruct (find_loop (find pt filters) (subviews v)) as [found|] eqn:E.
  - intros [= <-]. apply find_loop_some in E as (c & Hin & Hc).
    right. apply in_flat_map. exists c. split; [assumption|].
    rewrite Forall_forall in IH. apply (IH c); [|assumption].
    apply list_elem_of_In; assumption.
  - destruct (matches filters v); [|discriminate].
    intros [= <-]. left. reflexivity.
Qed.

Lemma find_of_match pt filters (a : View) :
  contains (frame a) pt = true -> matches filters a = true ->
  exists r, find pt filters a = Some r.
Proof.
  intros Hc Hm. rewrite find_unfold, Hc, Hm.
  destruct (find_loop _ _); eauto.
Qed.

(** C1, as the code has it.  [find] searches the subviews before it
    tests the node itself, and in declaration order: when the first
    subview whose [find] gives a view is [a] (every subview declared
    before it gives none), [find] on the parent gives what [find] on [a]
    gives, a node of [a]'s subtree, whatever is declared after [a]. *)
Theorem find_first_declared_sibling_wins pt filters (v a : View) (pre post : list View) :
  contains (frame v) pt = true ->
  subviews v = pre ++ a :: post ->
  Forall (fun c => find pt filters c = None) pre ->
  contains (frame a) pt = true ->
  matches filters a = true ->
  exists r, find pt filters a = Some r /\ In r (preorder a) /\
            find pt filters v = Some r.
Proof.
  intros Hv Hsub Hpre Ha Hm.
  destruct (find_of_match pt filters a Ha Hm) as [r Hr].
  exists r. split; [assumption|]. split; [eapply find_in_tree; eassumption|].
  rewrite find_unfold, Hv, Hsub, (find_loop_skip _ _ _ _ Hpre), Hr. reflexivity.
Qed.

Lemma find_first_declared_sibling_wins_witness :
  exists r, find (mkPoint 7 7) [] sibling_a = Some r /\ In r (preorder sibling_a) /\
            find (mkPoint 7 7) [] two_siblings = Some r.
Proof.
  apply (find_first_declared_sibling_wins (mkPoint 7 7) [] two_siblings sibling_a [] [sibling_b]).
  - reflexivity.
  - reflexivity.
  - constructor.
  - reflexivity.
  - reflexivity.
Defined.

(** C1, the claim as worded fails: both siblings' frames contain the
    point (7,7), and [find] gives the one declared first, not the one
    declared second. *)
Lemma find_front_sibling_loses :
  subviews two_siblings = [sibling_a; sibling_b] /\
  contains (frame sibling_a) (mkPoint 7 7) = true /\
  contains (frame sibling_b) (mkPoint 7 7) = true /\
  find (mkPoint 7 7) [] two_siblings = Some sibling_a /\
  find (mkPoint 7 7) [] two_siblings <> Some sibling_b.
Proof.
  assert (H : find (mkPoint 7 7) [] two_siblings = Some sibling_a) by reflexivity.
  repeat (split; [reflexivity|]).
  rewrite H. intros [= E]. 
Qed.

(** *** find against find_all *)

Lemma hit_found pt filters (v d : View) :
  Hit pt filters v d -> exists r, find pt filters v = Some r.
Proof.
  induction 1 as [v Hc Hm | v c d Hc Hin _ [r Hr]].
  - apply find_of_match; assumption.
  - rewrite find_unfold, Hc.
    destruct (find_loop (find pt filters) (subviews v)) as [found|] eqn:E; [eauto|].
    apply find_loop_none in E. rewrite Forall_forall in E.
    rewrite (E c) in Hr; [discriminate | apply list_elem_of_In; assumption].
Qed.

Lemma find_hit pt filters (v : View) :
  forall r, find pt filters v = Some r ->
    Hit pt filters v r /\
    forall c d, In c (subviews r) -> ~ Hit pt filters c d.
Proof.
  induction v as [v IH] using View_induction. intros r.
  rewrite Forall_forall in IH.
  rewrite find_unfold.
  destruct (contains (frame v) pt) eqn:Hc; [|discriminate].
  destruct (find_loop (find pt filters) (subviews v)) as [found|] eqn:E.
  - intros [= <-]. apply find_loop_some in E as (c & Hin & Hfc).
    destruct (IH c (proj2 (list_elem_of_In _ _) Hin) _ Hfc) as [Hh Hinner].
    split; [|assumption]. eapply hit_below; eassumption.
  - destruct (matches filters v) eqn:Hm; [|discriminate].
    intros [= <-]. split; [apply hit_here; assumption|].
    intros c d Hin Hh. apply hit_found in Hh as [r Hr].
    apply find_loop_none in E. rewrite Forall_forall in E.
    rewrite (E c) in Hr; [discriminate | apply list_elem_of_In; assumption].
Qed.

Lemma find_all_preorder filters (v : View) :
  find_all filters v = List.filter (matches filters) (preorder v).
Proof.
  induction v as [v IH] using View_induction.
  rewrite find_all_unfold, preorder_unfold. simpl.
  assert (E : flat_map (find_all filters) (subviews v)
              = List.filter (matches filters) (flat_map preorder (subviews v))).
  { induction IH as [|c rest Hc _ IHrest]; simpl; [reflexivity|].
    rewrite List.filter_app, Hc, IHrest. reflexivity. }
  rewrite E. destruct (matches filters v); reflexivity.
Qed.

(** C6.  [find] gives the innermost match: a node that satisfies the
    filters at the end of a chain of frames containing the point, with
    no such node below it; it gives nothing exactly when there is no
    such node.  [find_all] lists the matching nodes in pre-order, a
    matching node before the matching nodes of its subviews.  On three
    levels that all match, [find] gives the deepest node, which
    [find_all] lists last, after its two ancestors. *)
Theorem find_innermost_find_all_preorder pt filters (v : View) :
  (forall r, find pt filters v = Some r ->
     Hit pt filters v r /\
     forall c d, In c (subviews r) -> ~ Hit pt filters c d) /\
  (find pt filters v = None <-> forall d, ~ Hit pt filters v d) /\
  find_all filters v = List.filter (matches filters) (preorder v) /\
  find_all filters v =
    (if matches filters v then [v] else []) ++ flat_map (find_all filters) (subviews v) /\
  find (mkPoint 3 3) [] level1 = Some level3 /\
  find_all [] level1 = [level1; level2; level3].
Proof.
  split; [apply find_hit|].
  split.
  { split.
    - intros Hn d Hh. apply hit_found in Hh as [r Hr]. congruence.
    - intros Hno. destruct (find pt filters v) as [r|] eqn:E; [|reflexivity].
      apply find_hit in E as [Hh _]. destruct (Hno r Hh). }
  split; [apply find_all_preorder|].
  split; [apply find_all_unfold|].
  split; reflexivity.
Qed.

End TreeFacts.


(** ** Facts about the store *)

Section StoreFacts.
Import Store StoreSpec.

Variable rk : loc -> nat.
Variable N : nat.

(** *** Running the monad *)

Lemma bind_Ok {A B} (c : M A) (k : A -> M B) s a s' :
  c s = Ok a s' -> (mbind k c) s = k a s'.
Proof. intros H. unfold mbind, M_bind, bind. rewrite H. reflexivity. Qed.

Lemma bind_Raise {A B} (c : M A) (k : A -> M B) s e s' :
  c s = Raise e s' -> (mbind k c) s = Raise e s'.
Proof. intros H. unfold mbind, M_bind, bind. rewrite H. reflexivity. Qed.

Lemma get_view_Ok l s o : views s !! l = Some o -> get_view l s = Ok o s.
Proof. intros H. unfold get_view. rewrite H. reflexivity. Qed.

Lemma update_view_Ok l f s o :
  views s !! l = Some o ->
  update_view l f s = Ok tt (mkState (<[l := f o]> (views s)) (envs s)).
Proof. intros H. unfold update_view. rewrite H. reflexivity. Qed.

Lemma env_inherit_Ok c p s Ec Ep :
  envs s !! c = Some Ec -> envs s !! p = Some Ep ->
  env_inherit c p s = Ok tt (mkState (views s) (<[c := inherit Ec Ep]> (envs s))).
Proof. intros H1 H2. unfold env_inherit. rewrite H1, H2. reflexivity. Qed.

(** *** Objects that differ in their links or in their frame *)

Lemma relinked_refl o : relinked o o.
Proof. destruct o; reflexivity. Qed.

Lemma relinked_trans o1 o2 o3 : relinked o1 o2 -> relinked o2 o3 -> relinked o1 o3.
Proof.
  unfold relinked. intros H1 H2. rewrite H2 at 1. rewrite H1 at 1 2 3 4 5 6 7 8.
  reflexivity.
Qed.

Lemma relinked_content o o' : relinked o o' -> content o' = content o.
Proof. intros H. rewrite H. reflexivity. Qed.

Lemma relinked_env o o' : relinked o o' -> env o' = env o.
Proof. intros H. rewrite H. reflexivity. Qed.

Lemma reframed_refl o : reframed o o.
Proof. destruct o; reflexivity. Qed.

Lemma reframed_trans o1 o2 o3 : reframed o1 o2 -> reframed o2 o3 -> reframed o1 o3.
Proof.
  unfold reframed. intros H1 H2. rewrite H2, H1. destruct o1; reflexivity.
Qed.

(** *** Stores that evolved *)

Lemma evolves_refl T s : evolves rk T s s.
Proof.
  split.
  - intros x. destruct (views s !! x); [|exact I].
    split; [apply relinked_refl | reflexivity].
  - intros e. destruct (envs s !! e); [|exact I]. split; reflexivity.
Qed.

Lemma evolves_lookup T s s' x o :
  evolves rk T s s' -> views s !! x = Some o ->
  exists o', views s' !! x = Some o' /\ relinked o o' /\ ((T <= rk x)%nat -> o' = o).
Proof.
  intros [Hv _] Hx. specialize (Hv x). rewrite Hx in Hv.
  destruct (views s' !! x) as [o'|]; [|contradiction]. exists o'. tauto.
Qed.

Lemma evolves_lookup_inv T s s' x o' :
  evolves rk T s s' -> views s' !! x = Some o' ->
  exists o, views s !! x = Some o /\ relinked o o' /\ ((T <= rk x)%nat -> o' = o).
Proof.
  intros [Hv _] Hx. specialize (Hv x). rewrite Hx in Hv.
  destruct (views s !! x) as [o|]; [|contradiction]. exists o. tauto.
Qed.

Lemma evolves_is_Some T s s' x :
  evolves rk T s s' -> is_Some (views s !! x) -> is_Some (views s' !! x).
Proof.
  intros He [o Ho]. destruct (evolves_lookup _ _ _ _ _ He Ho) as (o' & Ho' & _).
  exists o'. exact Ho'.
Qed.

Lemma evolves_env_lookup T s s' e E :
  evolves rk T s s' -> envs s !! e = Some E ->
  exists E', envs s' !! e = Some E' /\ own E' = own E /\
    ((forall x o, views s !! x = Some o -> env o = e -> (T <= rk x)%nat) -> E' = E).
Proof.
  intros [_ Hen] He. specialize (Hen e). rewrite He in Hen.
  destruct (envs s' !! e) as [E'|]; [|contradiction]. exists E'. tauto.
Qed.

Lemma evolves_trans T s1 s2 s3 :
  evolves rk T s1 s2 -> evolves rk T s2 s3 -> evolves rk T s1 s3.
Proof.
  intros H12 H23. split.
  - intros x. pose proof (ev_views _ _ _ _ H12 x) as A.
    pose proof (ev_views _ _ _ _ H23 x) as B.
    destruct (views s1 !! x) as [o1|], (views s2 !! x) as [o2|],
             (views s3 !! x) as [o3|]; try tauto.
    destruct A as [A1 A2], B as [B1 B2]. split.
    + eapply relinked_trans; eassumption.
    + intros Hle. rewrite (B2 Hle). apply A2, Hle.
  - intros e. pose proof (ev_envs _ _ _ _ H12 e) as A.
    pose proof (ev_envs _ _ _ _ H23 e) as B.
    destruct (envs s1 !! e) as [E1|], (envs s2 !! e) as [E2|],
             (envs s3 !! e) as [E3|]; try tauto.
    destruct A as [A1 A2], B as [B1 B2]. split; [congruence|].
    intros Hall. rewrite B2, A2; [reflexivity | assumption |].
    intros x o2 Hx He.
    destruct (evolves_lookup_inv _ _ _ _ _ H12 Hx) as (o1 & Ho1 & Hrel & _).
    apply (Hall x o1 Ho1). rewrite <- (relinked_env _ _ Hrel). exact He.
Qed.

Lemma evolves_mono T T' s s' :
  (T <= T')%nat -> evolves rk T s s' -> evolves rk T' s s'.
Proof.
  intros Hle [Hv He]. split.
  - intros x. specialize (Hv x).
    destruct (views s !! x), (views s' !! x); try tauto.
    destruct Hv as [Hr Hk]. split; [assumption|]. intros H. apply Hk. lia.
  - intros e. specialize (He e).
    destruct (envs s !! e), (envs s' !! e); try tauto.
    destruct He as [Ho Hk]. split; [assumption|]. intros H. apply Hk.
    intros x o Hx Hen. specialize (H x o Hx Hen). lia.
Qed.

Lemma evolves_update T s l o o' :
  views s !! l = Some o -> relinked o o' -> (rk l < T)%nat ->
  evolves rk T s (mkState (<[l := o']> (views s)) (envs s)).
Proof.
  intros Hl Hr Hlt. split; simpl.
  - intros x. destruct (decide (l = x)) as [<-|Hne].
    + rewrite Hl, lookup_insert_eq. split; [assumption | lia].
    + rewrite lookup_insert_ne by assumption.
      destruct (views s !! x); [|exact I]. split; [apply relinked_refl | reflexivity].
  - intros e. destruct (envs s !! e); [|exact I]. split; reflexivity.
Qed.

Lemma evolves_inherit T s e E Ep x o :
  views s !! x = Some o -> env o = e -> (rk x < T)%nat ->
  envs s !! e = Some E ->
  evolves rk T s (mkState (views s) (<[e := inherit E Ep]> (envs s))).
Proof.
  intros Hx Hen Hlt He. split; simpl.
  - intros y. destruct (views s !! y); [|exact I].
    split; [apply relinked_refl | reflexivity].
  - intros e'. destruct (decide (e = e')) as [<-|Hne].
    + rewrite He, lookup_insert_eq. split; [reflexivity|].
      intros Hall. specialize (Hall x o Hx Hen). lia.
    + rewrite lookup_insert_ne by assumption.
      destruct (envs s !! e'); [|exact I]. split; reflexivity.
Qed.

(** *** Well-formed stores stay well formed *)

Lemma wf_update s l o o' :
  wf rk N s -> views s !! l = Some o ->
  env o' = env o -> content o' = content o ->
  (forall c, In c (subviews o') -> is_Some (views s !! c) /\ (rk c < rk l)%nat) ->
  (forall p, parent o' = Some p -> is_Some (views s !! p) /\ (rk l < rk p)%nat) ->
  wf rk N (mkState (<[l := o']> (views s)) (envs s)).
Proof.
  intros W Hl Henv Hcont Hsub Hpar.
  assert (Hdom : forall c, is_Some (views s !! c) -> is_Some (<[l := o']> (views s) !! c)).
  { intros c Hc. destruct (decide (l = c)) as [<-|Hne].
    - rewrite lookup_insert_eq. eauto.
    - rewrite lookup_insert_ne by assumption. exact Hc. }
  split; simpl; intros x ox.
  - intros Hx. destruct (decide (l = x)) as [<-|Hne].
    + eapply wf_rank; eassumption.
    + rewrite lookup_insert_ne in Hx by assumption. eapply wf_rank; eassumption.
  - intros Hx. destruct (decide (l = x)) as [<-|Hne].
    + rewrite lookup_insert_eq in Hx. injection Hx as <-. rewrite Henv.
      eapply wf_env; eassumption.
    + rewrite lookup_insert_ne in Hx by assumption. eapply wf_env; eassumption.
  - intros c Hx Hin. destruct (decide (l = x)) as [<-|Hne].
    + rewrite lookup_insert_eq in Hx. injection Hx as <-. rewrite Hcont in Hin.
      destruct (wf_content _ _ _ W _ _ _ Hl Hin). auto.
    + rewrite lookup_insert_ne in Hx by assumption.
      destruct (wf_content _ _ _ W _ _ _ Hx Hin). auto.
  - intros c Hx Hin. destruct (decide (l = x)) as [<-|Hne].
    + rewrite lookup_insert_eq in Hx. injection Hx as <-.
      destruct (Hsub _ Hin). auto.
    + rewrite lookup_insert_ne in Hx by assumption.
      destruct (wf_subviews _ _ _ W _ _ _ Hx Hin). auto.
  - intros q Hx Hq. destruct (decide (l = x)) as [<-|Hne].
    + rewrite lookup_insert_eq in Hx. injection Hx as <-.
      destruct (Hpar _ Hq). auto.
    + rewrite lookup_insert_ne in Hx by assumption.
      destruct (wf_parent _ _ _ W _ _ _ Hx Hq). auto.
Qed.

Lemma wf_env_insert s e E :
  wf rk N s -> wf rk N (mkState (views s) (<[e := E]> (envs s))).
Proof.
  intros W. split; simpl.
  - apply (wf_rank _ _ _ W).
  - intros l o Hl. destruct (wf_env _ _ _ W _ _ Hl) as [E' HE'].
    destruct (decide (e = env o)) as [<-|Hne].
    + rewrite lookup_insert_eq. eauto.
    + rewrite lookup_insert_ne by assumption. eauto.
  - apply (wf_content _ _ _ W).
  - apply (wf_subviews _ _ _ W).
  - apply (wf_parent _ _ _ W).
Qed.

(** *** What is malformed does not depend on the links *)

Lemma malformed_transfer s s' l ty :
  (forall x o, views s !! x = Some o ->
     exists o', views s' !! x = Some o' /\ content o' = content o) ->
  Malformed s l ty -> Malformed s' l ty.
Proof.
  intros Hsame. induction 1 as [l o ty Hl Hin | l o c ty Hl Hin _ IH].
  - destruct (Hsame _ _ Hl) as (o' & Ho' & Hc).
    eapply malformed_here; [eassumption|]. rewrite Hc. assumption.
  - destruct (Hsame _ _ Hl) as (o' & Ho' & Hc).
    eapply malformed_below; [eassumption | | eassumption]. rewrite Hc. assumption.
Qed.

Lemma malformed_evolves T s s' l ty :
  evolves rk T s s' -> (Malformed s l ty <-> Malformed s' l ty).
Proof.
  intros He. split; apply malformed_transfer; intros x o Hx.
  - destruct (evolves_lookup _ _ _ _ _ He Hx) as (o' & Ho' & Hr & _).
    exists o'. split; [assumption | apply relinked_content; assumption].
  - destruct (evolves_lookup_inv _ _ _ _ _ He Hx) as (o' & Ho' & Hr & _).
    exists o'. split; [assumption|]. symmetry. apply relinked_content. assumption.
Qed.

Lemma offends_evolves T s s' produced ty :
  evolves rk T s s' -> (Offends s produced ty <-> Offends s' produced ty).
Proof.
  intros He. unfold Offends. split.
  - intros [H|(c & Hin & Hm)]; [left; assumption|].
    right. exists c. split; [assumption|]. apply (malformed_evolves _ _ _ _ _ He). assumption.
  - intros [H|(c & Hin & Hm)]; [left; assumption|].
    right. exists c. split; [assumption|]. apply (malformed_evolves _ _ _ _ _ He). assumption.
Qed.

Lemma malformed_offends s l o ty :
  views s !! l = Some o -> (Malformed s l ty <-> Offends s (content o) ty).
Proof.
  intros Hl. split.
  - intros H. inversion H as [l' o' ty' Hl' Hin | l' o' c ty' Hl' Hin Hm]; subst;
      rewrite Hl in Hl'; injection Hl' as <-.
    + left. assumption.
    + right. exists c. auto.
  - intros [H|(c & Hin & Hm)].
    + eapply malformed_here; eassumption.
    + eapply malformed_below; eassumption.
Qed.

Lemma private_envs_evolves T s s' :
  evolves rk T s s' -> private_envs s -> private_envs s'.
Proof.
  intros E P x y ox oy Hx Hy He.
  destruct (evolves_lookup_inv _ _ _ _ _ E Hx) as (ox0 & Hx0 & Rx & _).
  destruct (evolves_lookup_inv _ _ _ _ _ E Hy) as (oy0 & Hy0 & Ry & _).
  apply (P x y ox0 oy0 Hx0 Hy0).
  rewrite <- (relinked_env _ _ Rx), <- (relinked_env _ _ Ry). exact He.
Qed.

Lemma attached_relinked self idx o o' :
  relinked o o' -> attached self idx o' = attached self idx o.
Proof.
  intros H. rewrite H. destruct o; reflexivity.
Qed.

(** *** rebuild *)

Lemma reconciles_cases c o s out :
  views s !! c = Some o -> reconciles rk N c o s out ->
  (exists s', out = Ok tt s' /\ evolves rk (S (rk c)) s s' /\ wf rk N s' /\
     views s' !! c = Some (set_subviews (views_of (content o)) o) /\
     (forall ty, ~ Malformed s c ty) /\
     (forall e E, envs s !! e = Some E ->
        (forall x ox, views s !! x = Some ox -> env ox = e -> (rk c <= rk x)%nat) ->
        envs s' !! e = Some E)) \/
  (exists ty s', out = Raise (ValueError (error_message ty)) s' /\
     evolves rk (rk c) s s' /\ wf rk N s' /\ Malformed s c ty).
Proof.
  intros Hc [(m & Hout & E & W & Hwell) | H]; [left | right; exact H].
  destruct (evolves_lookup _ _ _ _ _ E Hc) as (o' & Ho' & _ & Hsame).
  rewrite (Hsame ltac:(lia)) in Ho'.
  eexists. split; [exact Hout|].
  split.
  { eapply evolves_trans.
    - eapply evolves_mono; [|exact E]. lia.
    - apply evolves_update with (o := o); [assumption | destruct o; reflexivity | lia]. }
  split; [assumption|].
  split; [simpl; apply lookup_insert_eq|].
  split; [assumption|].
  intros e En He Hall. simpl.
  destruct (evolves_env_lookup _ _ _ _ _ E He) as (E' & HE' & _ & Hk).
  rewrite HE', (Hk Hall). reflexivity.
Qed.

Section RebuildLoop.

Variable rec : loc -> M unit.
Variable R : nat.
Hypothesis rec_reconciles : forall c s o,
  wf rk N s -> views s !! c = Some o -> (rk c < R)%nat ->
  reconciles rk N c o s (rec c s).

Lemma rebuild_loop_spec self (produced : list value) :
  (rk self <= R)%nat ->
  forall idx acc s,
  wf rk N s -> is_Some (views s !! self) ->
  (forall c, In (VView c) produced -> is_Some (views s !! c) /\ (rk c < rk self)%nat) ->
  (exists s', rebuild_loop rec self produced idx acc s = Ok (acc ++ views_of produced) s' /\
     evolves rk (rk self) s s' /\ wf rk N s' /\ forall ty, ~ Offends s produced ty) \/
  (exists ty s', rebuild_loop rec self produced idx acc s
                 = Raise (ValueError (error_message ty)) s' /\
     evolves rk (rk self) s s' /\ wf rk N s' /\ Offends s produced ty).
Proof.
  intros HR. induction produced as [|[c|tyname] rest IH]; intros idx acc s W Hself Hprod.
  - left. exists s. simpl. rewrite app_nil_r.
    split; [reflexivity|]. split; [apply evolves_refl|]. split; [assumption|].
    intros ty [H|(c & H & _)]; contradiction.
  - (* a view *)
    destruct (Hprod c (in_eq _ _)) as [[oc Hoc] Hlt].
    destruct Hself as [me Hme].
    assert (Hne : c <> self) by (intros ->; lia).
    set (oc1 := set_parent (Some self) oc).
    set (s1 := mkState (<[c := oc1]> (views s)) (envs s)).
    assert (W1 : wf rk N s1).
    { apply wf_update with (o := oc); try assumption; try reflexivity.
      - intros c' Hin. apply (wf_subviews _ _ _ W _ _ _ Hoc Hin).
      - intros p [= <-]. eauto. }
    assert (E1 : evolves rk (rk self) s s1).
    { apply evolves_update with (o := oc); [assumption| |assumption].
      destruct oc; reflexivity. }
    assert (Hoc1 : views s1 !! c = Some oc1) by apply lookup_insert_eq.
    set (oc2 := set_index idx oc1).
    set (s2 := mkState (<[c := oc2]> (views s1)) (envs s1)).
    assert (W2 : wf rk N s2).
    { apply wf_update with (o := oc1); try assumption; try reflexivity.
      - intros c' Hin. destruct (wf_subviews _ _ _ W1 _ _ _ Hoc1 Hin). auto.
      - intros p Hp. apply (wf_parent _ _ _ W1 _ _ _ Hoc1 Hp). }
    assert (E2 : evolves rk (rk self) s1 s2).
    { apply evolves_update with (o := oc1); [assumption| |assumption].
      destruct oc; reflexivity. }
    assert (Hoc2 : views s2 !! c = Some oc2) by apply lookup_insert_eq.
    assert (Hme2 : views s2 !! self = Some me).
    { unfold s2, s1; simpl. rewrite !lookup_insert_ne by assumption. assumption. }
    destruct (wf_env _ _ _ W2 _ _ Hoc2) as [Ec HEc].
    destruct (wf_env _ _ _ W2 _ _ Hme2) as [Em HEm].
    set (s3 := mkState (views s2) (<[env oc2 := inherit Ec Em]> (envs s2))).
    assert (W3 : wf rk N s3) by (apply wf_env_insert; assumption).
    assert (E3 : evolves rk (rk self) s2 s3).
    { apply evolves_inherit with (x := c) (o := oc2); auto. }
    assert (E03 : evolves rk (rk self) s s3).
    { eapply evolves_trans; [|exact E3]. eapply evolves_trans; eassumption. }
    assert (Hrun : rebuild_loop rec self (VView c :: rest) idx acc s
                   = (rec c ;; rebuild_loop rec self rest (idx + 1) (acc ++ [c])) s3).
    { simpl.
      rewrite (bind_Ok _ _ _ _ _ (update_view_Ok c _ s oc Hoc)).
      rewrite (bind_Ok _ _ _ _ _ (update_view_Ok c _ s1 oc1 Hoc1)).
      rewrite (bind_Ok _ _ _ _ _ (get_view_Ok c s2 oc2 Hoc2)).
      rewrite (bind_Ok _ _ _ _ _ (get_view_Ok self s2 me Hme2)).
      rewrite (bind_Ok _ _ _ _ _ (env_inherit_Ok _ _ s2 Ec Em HEc HEm)).
      reflexivity. }
    rewrite Hrun.
    destruct (reconciles_cases c oc2 s3 _ Hoc2 (rec_reconciles c s3 oc2 W3 Hoc2 ltac:(lia)))
      as [(s4 & Hout & E4 & W4 & Hc4 & Hwell & _) | (ty & s4 & Hout & E4 & W4 & Hbad)].
    + rewrite (bind_Ok _ _ _ _ _ Hout).
      assert (E04 : evolves rk (rk self) s s4).
      { eapply evolves_trans; [exact E03|]. eapply evolves_mono; [|exact E4]. lia. }
      destruct (IH (idx + 1) (acc ++ [c]) s4 W4) as
        [(s' & Hloop & E' & W' & Hno) | (ty & s' & Hloop & E' & W' & Hoff)].
      { eapply evolves_is_Some; [exact E04|]. eauto. }
      { intros c' Hin. destruct (Hprod c' (in_cons _ _ _ Hin)) as [Hs Hr].
        split; [|assumption]. eapply evolves_is_Some; eassumption. }
      * left. exists s'. rewrite Hloop. simpl. rewrite <- app_assoc. simpl.
        split; [reflexivity|]. split; [eapply evolves_trans; eassumption|].
        split; [assumption|].
        intros ty [Hin|(c' & Hin & Hm)].
        -- destruct Hin as [Hin|Hin]; [discriminate|].
           apply (Hno ty). left. assumption.
        -- destruct Hin as [[= <-]|Hin].
           ++ apply (Hwell ty). apply (malformed_evolves _ _ _ _ _ E03). assumption.
           ++ apply (Hno ty). right. exists c'. split; [assumption|].
              apply (malformed_evolves _ _ _ _ _ E04). assumption.
      * right. exists ty, s'. rewrite Hloop.
        split; [reflexivity|]. split; [eapply evolves_trans; eassumption|].
        split; [assumption|].
        apply (offends_evolves _ _ _ _ _ E04) in Hoff.
        destruct Hoff as [Hin|(c' & Hin & Hm)].
        -- left. right. assumption.
        -- right. exists c'. split; [right; assumption | assumption].
    + right. exists ty, s4. rewrite (bind_Raise _ _ _ _ _ Hout).
      split; [reflexivity|].
      split. { eapply evolves_trans; [exact E03|]. eapply evolves_mono; [|exact E4]. lia. }
      split; [assumption|].
      right. exists c. split; [left; reflexivity|].
      apply (malformed_evolves _ _ _ _ _ E03). assumption.
  - (* a value that is no view *)
    right. exists tyname, s. simpl.
    split; [reflexivity|]. split; [apply evolves_refl|]. split; [assumption|].
    left. left. reflexivity.
Qed.

(** The loop over a prefix of views that reconcile: each is attached
    and stays so while the later ones, of smaller rank, are handled.
    Where every view has an environment of its own, each has inherited
    from the environment of [self]. *)
Lemma rebuild_loop_prefix self (cs : list loc) (tail : list value) :
  (rk self <= R)%nat ->
  forall idx acc s me,
  wf rk N s ->
  views s !! self = Some me ->
  descending rk cs ->
  (forall c, In c cs ->
     is_Some (views s !! c) /\ (rk c < rk self)%nat /\ forall ty, ~ Malformed s c ty) ->
  exists s1,
    rebuild_loop rec self (map VView cs ++ tail) idx acc s
      = rebuild_loop rec self tail (idx + Z.of_nat (length cs)) (acc ++ cs) s1 /\
    evolves rk (rank_bound rk cs) s s1 /\ wf rk N s1 /\
    (forall i c, cs !! i = Some c ->
      exists oc, views s !! c = Some oc /\
        views s1 !! c = Some (attached self (idx + Z.of_nat i) oc)) /\
    (private_envs s -> forall Em, envs s !! env me = Some Em ->
     forall i c oc, cs !! i = Some c -> views s !! c = Some oc ->
      exists Ec, envs s !! env oc = Some Ec /\
        envs s1 !! env oc = Some (inherit Ec Em)).
Proof.
  intros HR. induction cs as [|c cs IH]; intros idx acc s me W Hme Hdesc Hcs.
  - exists s. simpl. rewrite Z.add_0_r, app_nil_r.
    split; [reflexivity|]. split; [apply evolves_refl|]. split; [assumption|].
    split.
    + intros i c H. rewrite lookup_nil in H. discriminate.
    + intros _ Em _ i c oc H. rewrite lookup_nil in H. discriminate.
  - destruct (Hcs c (in_eq _ _)) as ([oc Hoc] & Hlt & Hwell).
    destruct Hdesc as [Hlower Hdesc].
    assert (Hne : c <> self) by (intros ->; lia).
    set (oc1 := set_parent (Some self) oc).
    set (s1 := mkState (<[c := oc1]> (views s)) (envs s)).
    assert (W1 : wf rk N s1).
    { apply wf_update with (o := oc); try assumption; try reflexivity.
      - intros c' Hin. apply (wf_subviews _ _ _ W _ _ _ Hoc Hin).
      - intros p [= <-]. eauto. }
    assert (E1 : evolves rk (S (rk c)) s s1).
    { apply evolves_update with (o := oc); [assumption| |lia].
      destruct oc; reflexivity. }
    assert (Hoc1 : views s1 !! c = Some oc1) by apply lookup_insert_eq.
    set (oc2 := set_index idx oc1).
    set (s2 := mkState (<[c := oc2]> (views s1)) (envs s1)).
    assert (W2 : wf rk N s2).
    { apply wf_update with (o := oc1); try assumption; try reflexivity.
      - intros c' Hin. destruct (wf_subviews _ _ _ W1 _ _ _ Hoc1 Hin). auto.
      - intros p Hp. apply (wf_parent _ _ _ W1 _ _ _ Hoc1 Hp). }
    assert (E2 : evolves rk (S (rk c)) s1 s2).
    { apply evolves_update with (o := oc1); [assumption| |lia].
      destruct oc; reflexivity. }
    assert (Hoc2 : views s2 !! c = Some oc2) by apply lookup_insert_eq.
    assert (Hme2 : views s2 !! self = Some me).
    { unfold s2, s1; simpl. rewrite !lookup_insert_ne by assumption. assumption. }
    destruct (wf_env _ _ _ W _ _ Hoc) as [Ec HEc].
    destruct (wf_env _ _ _ W _ _ Hme) as [Em HEm].
    assert (HEc2 : envs s2 !! env oc2 = Some Ec) by exact HEc.
    assert (HEm2 : envs s2 !! env me = Some Em) by exact HEm.
    set (s3 := mkState (views s2) (<[env oc2 := inherit Ec Em]> (envs s2))).
    assert (W3 : wf rk N s3) by (apply wf_env_insert; assumption).
    assert (E3 : evolves rk (S (rk c)) s2 s3).
    { apply evolves_inherit with (x := c) (o := oc2); auto. }
    assert (E03 : evolves rk (S (rk c)) s s3).
    { eapply evolves_trans; [|exact E3]. eapply evolves_trans; eassumption. }
    assert (Hrun : rebuild_loop rec self (map VView (c :: cs) ++ tail) idx acc s
                   = (rec c ;; rebuild_loop rec self (map VView cs ++ tail) (idx + 1)
                                  (acc ++ [c])) s3).
    { simpl.
      rewrite (bind_Ok _ _ _ _ _ (update_view_Ok c _ s oc Hoc)).
      rewrite (bind_Ok _ _ _ _ _ (update_view_Ok c _ s1 oc1 Hoc1)).
      rewrite (bind_Ok _ _ _ _ _ (get_view_Ok c s2 oc2 Hoc2)).
      rewrite (bind_Ok _ _ _ _ _ (get_view_Ok self s2 me Hme2)).
      rewrite (bind_Ok _ _ _ _ _ (env_inherit_Ok _ _ s2 Ec Em HEc2 HEm2)).
      reflexivity. }
    destruct (reconciles_cases c oc2 s3 _ Hoc2 (rec_reconciles c s3 oc2 W3 Hoc2 ltac:(lia)))
      as [(s4 & Hout & E4 & W4 & Hc4 & _ & Hframe) | (ty & s4 & Hout & E4 & W4 & Hbad)].
    2:{ exfalso. apply (Hwell ty). apply (malformed_evolves _ _ _ _ _ E03). assumption. }
    assert (E04 : evolves rk (S (rk c)) s s4) by (eapply evolves_trans; eassumption).
    assert (Hme4 : views s4 !! self = Some me).
    { destruct (evolves_lookup _ _ _ _ _ E04 Hme) as (o' & Ho' & _ & Hsame).
      rewrite (Hsame ltac:(lia)) in Ho'. exact Ho'. }
    destruct (IH (idx + 1) (acc ++ [c]) s4 me W4 Hme4 Hdesc)
      as (s' & Hloop & E' & W' & Hviews & Henvs).
    { intros c' Hin. destruct (Hcs c' (in_cons _ _ _ Hin)) as (Hs & Hr & Hw).
      split; [eapply evolves_is_Some; eassumption|]. split; [assumption|].
      intros ty Hm. apply (Hw ty). apply (malformed_evolves _ _ _ _ _ E04). assumption. }
    assert (Hb : (rank_bound rk cs <= rk c)%nat).
    { destruct cs as [|c' cs']; simpl; [lia|]. inversion Hlower; subst. lia. }
    exists s'. split.
    { rewrite Hrun, (bind_Ok _ _ _ _ _ Hout), Hloop. simpl length.
      rewrite <- app_assoc. simpl.
      replace (idx + 1 + Z.of_nat (length cs)) with (idx + Z.of_nat (S (length cs))) by lia.
      reflexivity. }
    split.
    { simpl. eapply evolves_trans; [exact E04|].
      eapply evolves_mono; [|exact E']. lia. }
    split; [assumption|].
    split.
    + intros [|i] c' Hi; simpl in Hi.
      * injection Hi as <-. exists oc. split; [assumption|].
        destruct (evolves_lookup _ _ _ _ _ E' Hc4) as (o' & Ho' & _ & Hsame).
        rewrite (Hsame Hb) in Ho'. rewrite Ho'. simpl. rewrite Z.add_0_r.
        destruct oc; reflexivity.
      * destruct (Hviews i c' Hi) as (oc' & Hoc' & Hv').
        destruct (evolves_lookup_inv _ _ _ _ _ E04 Hoc') as (oc0 & Hoc0 & Hrel & _).
        exists oc0. split; [assumption|].
        rewrite Hv'. rewrite (attached_relinked _ _ _ _ Hrel).
        replace (idx + 1 + Z.of_nat i) with (idx + Z.of_nat (S i)) by lia. reflexivity.
    + intros P Em' HEm' i c' oc' Hi Hoc'.
      rewrite HEm in HEm'. injection HEm' as <-.
      assert (P3 : private_envs s3) by (eapply private_envs_evolves; eassumption).
      assert (P4 : private_envs s4) by (eapply private_envs_evolves; eassumption).
      assert (HEm4 : envs s4 !! env me = Some Em).
      { destruct (evolves_env_lookup _ _ _ _ _ E04 HEm) as (E0 & HE0 & _ & Hk).
        rewrite HE0, Hk; [reflexivity|].
        intros x ox Hx He. rewrite (P x self ox me Hx Hme He). lia. }
      destruct i as [|i]; simpl in Hi.
      * injection Hi as <-. rewrite Hoc in Hoc'. injection Hoc' as <-.
        exists Ec. split; [assumption|].
        assert (HEc4 : envs s4 !! env oc = Some (inherit Ec Em)).
        { apply Hframe; [simpl; apply lookup_insert_eq|].
          intros x ox Hx He. rewrite (P3 x c ox oc2 Hx Hoc2 He). lia. }
        destruct (evolves_env_lookup _ _ _ _ _ E' HEc4) as (En & HEn & _ & Hk).
        rewrite HEn, Hk; [reflexivity|].
        intros x ox Hx He.
        assert (Hx4 : x = c).
        { apply (P4 x c ox _ Hx Hc4). rewrite He. destruct oc; reflexivity. }
        subst x. exact Hb.
      * destruct (evolves_lookup _ _ _ _ _ E04 Hoc') as (oc4 & Hoc4 & Hrel & _).
        destruct (Henvs P4 Em HEm4 i c' oc4 Hi Hoc4) as (Ec4 & HEc4 & He').
        destruct (wf_env _ _ _ W _ _ Hoc') as [Ec0 HEc0].
        destruct (evolves_env_lookup _ _ _ _ _ E04 HEc0) as (En & HEn & Hown & _).
        rewrite (relinked_env _ _ Hrel) in HEc4, He'.
        rewrite HEc4 in HEn. injection HEn as <-.
        exists Ec0. split; [assumption|].
        rewrite He'. unfold inherit. rewrite Hown. reflexivity.
Qed.

End RebuildLoop.

Lemma in_views_of c (produced : list value) :
  In c (views_of produced) <-> In (VView c) produced.
Proof.
  induction produced as [|[c'|ty] rest IH]; simpl.
  - tauto.
  - rewrite IH. split; intros [H|H]; auto; left; congruence.
  - rewrite IH. split; [auto | intros [H|H]; [discriminate | assumption]].
Qed.

Lemma rebuild_reconciles fuel :
  forall c s o, wf rk N s -> views s !! c = Some o -> (rk c < fuel)%nat ->
  reconciles rk N c o s (rebuild fuel c s).
Proof.
  induction fuel as [|n IH]; intros c s o W Hc Hlt; [lia|].
  simpl. rewrite (bind_Ok _ _ _ _ _ (get_view_Ok c s o Hc)).
  destruct (rebuild_loop_spec (rebuild n) n IH c (content o) ltac:(lia) 0 [] s W)
    as [(s' & Hloop & E' & W' & Hno) | (ty & s' & Hloop & E' & W' & Hoff)].
  { eauto. }
  { intros c' Hin. apply (wf_content _ _ _ W _ _ _ Hc Hin). }
  - left. rewrite (bind_Ok _ _ _ _ _ Hloop). simpl.
    destruct (evolves_lookup _ _ _ _ _ E' Hc) as (o' & Ho' & _ & Hsame).
    rewrite (Hsame ltac:(lia)) in Ho'.
    rewrite (update_view_Ok c _ s' o Ho').
    exists s'. split; [reflexivity|].
    split; [assumption|].
    split.
    { apply wf_update with (o := o); try assumption; try reflexivity.
      - intros c' Hin. simpl in Hin. apply in_views_of in Hin.
        apply (wf_content _ _ _ W' _ _ _ Ho' Hin).
      - intros p Hp. apply (wf_parent _ _ _ W' _ _ _ Ho' Hp). }
    intros ty Hm. apply (Hno ty). apply (malformed_offends _ _ _ _ Hc). assumption.
  - right. exists ty, s'. rewrite (bind_Raise _ _ _ _ _ Hloop).
    split; [reflexivity|]. split; [assumption|]. split; [assumption|].
    apply (malformed_offends _ _ _ _ Hc). assumption.
Qed.

Lemma wfb_wf s : wfb rk N s = true -> wf rk N s.
Proof.
  unfold wfb. rewrite forallb_forall. intros H.
  assert (K : forall l o, views s !! l = Some o ->
    ((rk l <? N)%nat
    && bool_decide (is_Some (envs s !! env o))
    && forallb (fun v =>
         match v with
         | VView c => bool_decide (is_Some (views s !! c)) && (rk c <? rk l)%nat
         | VOther _ => true
         end) (content o)
    && forallb (fun c => bool_decide (is_Some (views s !! c)) && (rk c <? rk l)%nat)
         (subviews o)
    && match parent o with
       | Some p => bool_decide (is_Some (views s !! p)) && (rk l <? rk p)%nat
       | None => true
       end) = true).
  { intros l o Hl. apply (H (l, o)). apply list_elem_of_In.
    apply elem_of_map_to_list. assumption. }
  clear H.
  split; intros l o.
  - intros Hl. specialize (K l o Hl). rewrite !andb_true_iff in K.
    destruct K as [[[[K _] _] _] _]. apply Nat.ltb_lt. assumption.
  - intros Hl. specialize (K l o Hl). rewrite !andb_true_iff in K.
    destruct K as [[[[_ K] _] _] _]. apply bool_decide_eq_true in K. assumption.
  - intros c Hl Hin. specialize (K l o Hl). rewrite !andb_true_iff in K.
    destruct K as [[[_ K] _] _]. rewrite forallb_forall in K.
    specialize (K _ Hin). simpl in K. rewrite andb_true_iff in K.
    destruct K as [K1 K2]. apply bool_decide_eq_true in K1. apply Nat.ltb_lt in K2. auto.
  - intros c Hl Hin. specialize (K l o Hl). rewrite !andb_true_iff in K.
    destruct K as [[_ K] _]. rewrite forallb_forall in K.
    specialize (K _ Hin). simpl in K. rewrite andb_true_iff in K.
    destruct K as [K1 K2]. apply bool_decide_eq_true in K1. apply Nat.ltb_lt in K2. auto.
  - intros p Hl Hp. specialize (K l o Hl). rewrite !andb_true_iff in K.
    destruct K as [_ K]. rewrite Hp in K. rewrite andb_true_iff in K.
    destruct K as [K1 K2]. apply bool_decide_eq_true in K1. apply Nat.ltb_lt in K2. auto.
Qed.

(** C3.  On a well-formed store and with fuel for the node's rank,
    [rebuild(node)] either returns with the declared views installed as
    [node.subviews], or raises the [ValueError] whose message names the
    runtime type of a value that is no view; it raises exactly when such
    a value is declared by the node or, through the views it declares,
    below it; and when it raises, the node, its [subviews] among the
    rest, is as it was before the call. *)
Theorem rebuild_raises_iff_malformed fuel (node : loc) (s : state) (o : ViewObj) :
  wf rk N s -> views s !! node = Some o -> (rk node < fuel)%nat ->
  ((exists ty s', rebuild fuel node s = Raise (ValueError (error_message ty)) s')
     <-> (exists ty, Malformed s node ty)) /\
  (forall e s', rebuild fuel node s = Raise e s' ->
     exists ty, e = ValueError (error_message ty) /\
       (exists before after, error_message ty = (before ++ ty ++ after)%string) /\
       Malformed s node ty /\
       views s' !! node = Some o /\
       subviews <$> views s' !! node = subviews <$> views s !! node) /\
  (forall s', rebuild fuel node s = Ok tt s' ->
     subviews <$> views s' !! node = Some (views_of (content o))) /\
  ((exists s', rebuild fuel node s = Ok tt s') \/
   (exists ty s', rebuild fuel node s = Raise (ValueError (error_message ty)) s')).
Proof.
  intros W Hnode Hlt.
  destruct (reconciles_cases node o s _ Hnode (rebuild_reconciles fuel node s o W Hnode Hlt))
    as [(s1 & Hout & E & W1 & Hn1 & Hwell & _) | (ty & s1 & Hout & E & W1 & Hbad)].
  - split.
    { split.
      - intros (ty & s' & H). rewrite Hout in H. discriminate.
      - intros (ty & H). destruct (Hwell ty H). }
    split. { intros e s' H. rewrite Hout in H. discriminate. }
    split. { intros s' H. rewrite Hout in H. injection H as <-. rewrite Hn1. reflexivity. }
    left. eauto.
  - destruct (evolves_lookup _ _ _ _ _ E Hnode) as (o' & Ho' & _ & Hsame).
    rewrite (Hsame ltac:(lia)) in Ho'.
    split.
    { split; [intros _ | intros _]; eauto. }
    split.
    { intros e s' H. rewrite Hout in H. injection H as <- <-.
      exists ty. split; [reflexivity|].
      split. { eexists _, _. reflexivity. }
      split; [assumption|]. split; [assumption|]. rewrite Ho', Hnode. reflexivity. }
    split. { intros s' H. rewrite Hout in H. discriminate. }
    right. eauto.
Qed.

(** C10.  When the values a node declares are views, each of which
    reconciles, followed by a value that is no view, [rebuild(node)]
    raises for that value and [node.subviews] is as before, yet every
    view before the offender has been changed in place: its [parent] is
    the node, its [index] its position, and its own [subviews] are the
    views it declares, its own [rebuild] having completed; and where
    every view has an environment object of its own, that environment
    has inherited the node's.  The views are taken to be siblings of a
    tree: ranks descending in declaration order. *)
Theorem failed_rebuild_leaves_earlier_children_attached
    fuel (node : loc) (s : state) (o : ViewObj)
    (cs : list loc) (ty : string) (rest : list value) :
  wf rk N s ->
  views s !! node = Some o ->
  (rk node < fuel)%nat ->
  content o = map VView cs ++ VOther ty :: rest ->
  descending rk cs ->
  (forall c t, In c cs -> ~ Malformed s c t) ->
  exists s',
    rebuild fuel node s = Raise (ValueError (error_message ty)) s' /\
    subviews <$> views s' !! node = subviews <$> views s !! node /\
    (forall i c, cs !! i = Some c ->
      exists oc o',
        views s !! c = Some oc /\
        views s' !! c = Some o' /\
        parent o' = Some node /\
        index o' = Z.of_nat i /\
        subviews o' = views_of (content oc) /\
        relinked oc o') /\
    (private_envs s -> forall E, envs s !! env o = Some E ->
     forall i c oc, cs !! i = Some c -> views s !! c = Some oc ->
      exists Ec, envs s !! env oc = Some Ec /\
        envs s' !! env oc = Some (inherit Ec E)).
Proof.
  intros W Hnode Hlt Hcontent Hdesc Hwell.
  destruct fuel as [|n]; [lia|].
  assert (Hcs : forall c, In c cs ->
            is_Some (views s !! c) /\ (rk c < rk node)%nat /\ forall t, ~ Malformed s c t).
  { intros c Hin.
    destruct (wf_content _ _ _ W node o c Hnode) as [Hs Hr].
    { rewrite Hcontent. apply in_or_app. left. apply in_map. assumption. }
    split; [assumption|]. split; [assumption|]. intros t. apply Hwell. assumption. }
  destruct (rebuild_loop_prefix (rebuild n) n (rebuild_reconciles n) node cs
              (VOther ty :: rest) ltac:(lia) 0 [] s o W Hnode Hdesc Hcs)
    as (s1 & Hloop & E1 & W1 & Hviews & Henvs).
  assert (Hb : (rank_bound rk cs <= rk node)%nat).
  { destruct cs as [|c cs']; simpl; [lia|].
    destruct (Hcs c (in_eq _ _)) as (_ & Hr & _). lia. }
  exists s1. split.
  { simpl. rewrite (bind_Ok _ _ _ _ _ (get_view_Ok node s o Hnode)).
    apply bind_Raise. rewrite Hcontent, Hloop. reflexivity. }
  split.
  { destruct (evolves_lookup _ _ _ _ _ E1 Hnode) as (o' & Ho' & _ & Hsame).
    rewrite (Hsame Hb) in Ho'. rewrite Ho', Hnode. reflexivity. }
  split; [|exact Henvs].
  intros i c Hi.
  destruct (Hviews i c Hi) as (oc & Hoc & Hv).
  exists oc, (attached node (0 + Z.of_nat i) oc).
  split; [assumption|]. split; [assumption|].
  split; [reflexivity|]. split; [simpl; lia|]. split; [reflexivity|].
  destruct oc; reflexivity.
Qed.

(** *** Stores that were laid out *)

Lemma relaid_refl s : relaid s s.
Proof.
  split; [|reflexivity].
  intros x. destruct (views s !! x); [apply reframed_refl | exact I].
Qed.

Lemma relaid_trans s1 s2 s3 : relaid s1 s2 -> relaid s2 s3 -> relaid s1 s3.
Proof.
  intros [A A'] [B B']. split; [|congruence].
  intros x. specialize (A x). specialize (B x).
  destruct (views s1 !! x), (views s2 !! x), (views s3 !! x); try tauto.
  eapply reframed_trans; eassumption.
Qed.

Lemma relaid_lookup s s' x o :
  relaid s s' -> views s !! x = Some o ->
  exists o', views s' !! x = Some o' /\ reframed o o'.
Proof.
  intros [A _] Hx. specialize (A x). rewrite Hx in A.
  destruct (views s' !! x) as [o'|]; [eauto | contradiction].
Qed.

Lemma relaid_lookup_inv s s' x o' :
  relaid s s' -> views s' !! x = Some o' ->
  exists o, views s !! x = Some o /\ reframed o o'.
Proof.
  intros [A _] Hx. specialize (A x). rewrite Hx in A.
  destruct (views s !! x) as [o|]; [eauto | contradiction].
Qed.

Lemma relaid_is_Some s s' x :
  relaid s s' -> is_Some (views s !! x) -> is_Some (views s' !! x).
Proof.
  intros Hr [o Ho]. destruct (relaid_lookup _ _ _ _ Hr Ho) as (o' & Ho' & _). eauto.
Qed.

Lemma relaid_update s l o o' :
  views s !! l = Some o -> reframed o o' ->
  relaid s (mkState (<[l := o']> (views s)) (envs s)).
Proof.
  intros Hl Hr. split; [|reflexivity]. simpl.
  intros x. destruct (decide (l = x)) as [<-|Hne].
  - rewrite Hl, lookup_insert_eq. assumption.
  - rewrite lookup_insert_ne by assumption.
    destruct (views s !! x); [apply reframed_refl | exact I].
Qed.

Lemma wf_relaid s s' : wf rk N s -> relaid s s' -> wf rk N s'.
Proof.
  intros W Hr. split; intros l o'.
  - intros Hl. destruct (relaid_lookup_inv _ _ _ _ Hr Hl) as (o & Ho & _).
    eapply wf_rank; eassumption.
  - intros Hl. destruct (relaid_lookup_inv _ _ _ _ Hr Hl) as (o & Ho & Hf).
    rewrite (rl_envs _ _ Hr), Hf. simpl. eapply wf_env; eassumption.
  - intros c Hl Hin. destruct (relaid_lookup_inv _ _ _ _ Hr Hl) as (o & Ho & Hf).
    rewrite Hf in Hin. destruct (wf_content _ _ _ W _ _ _ Ho Hin) as [Hs Hk].
    split; [eapply relaid_is_Some; eassumption | assumption].
  - intros c Hl Hin. destruct (relaid_lookup_inv _ _ _ _ Hr Hl) as (o & Ho & Hf).
    rewrite Hf in Hin. destruct (wf_subviews _ _ _ W _ _ _ Ho Hin) as [Hs Hk].
    split; [eapply relaid_is_Some; eassumption | assumption].
  - intros q Hl Hq. destruct (relaid_lookup_inv _ _ _ _ Hr Hl) as (o & Ho & Hf).
    rewrite Hf in Hq. destruct (wf_parent _ _ _ W _ _ _ Ho Hq) as [Hs Hk].
    split; [eapply relaid_is_Some; eassumption | assumption].
Qed.

(** *** resize and reposition return *)

Section LayoutLoops.

Variable R : nat.

Lemma resize_loop_total (rec : loc -> Size -> M unit) (inside : Size) :
  (forall c a s, wf rk N s -> is_Some (views s !! c) -> (rk c < R)%nat ->
     exists s', rec c a s = Ok tt s' /\ relaid s s') ->
  forall (l : list loc) mw mh s,
  wf rk N s ->
  (forall c, In c l -> is_Some (views s !! c) /\ (rk c < R)%nat) ->
  exists r s', resize_loop rec inside l mw mh s = Ok r s' /\ relaid s s'.
Proof.
  intros Hrec. induction l as [|c l IH]; intros mw mh s W Hl.
  - exists (mw, mh), s. split; [reflexivity | apply relaid_refl].
  - destruct (Hl c (in_eq _ _)) as [Hs Hr].
    destruct (Hrec c inside s W Hs Hr) as (s1 & Hout & R1).
    destruct (relaid_is_Some _ _ _ R1 Hs) as [o1 Ho1].
    destruct (IH (Z.max mw (width (frame o1))) (Z.max mh (height (frame o1))) s1)
      as (r & s' & Hloop & R').
    { eapply wf_relaid; eassumption. }
    { intros c' Hin. destruct (Hl c' (in_cons _ _ _ Hin)).
      split; [eapply relaid_is_Some; eassumption | assumption]. }
    exists r, s'. split; [|eapply relaid_trans; eassumption].
    simpl. rewrite (bind_Ok _ _ _ _ _ Hout).
    rewrite (bind_Ok _ _ _ _ _ (get_view_Ok c s1 o1 Ho1)). exact Hloop.
Qed.

Lemma reposition_loop_total (rec : loc -> Rect -> M unit) (inner : Rect) :
  (forall c a s, wf rk N s -> is_Some (views s !! c) -> (rk c < R)%nat ->
     exists s', rec c a s = Ok tt s' /\ relaid s s') ->
  forall (l : list loc) s,
  wf rk N s ->
  (forall c, In c l -> is_Some (views s !! c) /\ (rk c < R)%nat) ->
  exists s', reposition_loop rec inner l s = Ok tt s' /\ relaid s s'.
Proof.
  intros Hrec. induction l as [|c l IH]; intros s W Hl.
  - exists s. split; [reflexivity | apply relaid_refl].
  - destruct (Hl c (in_eq _ _)) as [Hs Hr].
    destruct (Hrec c inner s W Hs Hr) as (s1 & Hout & R1).
    destruct (IH s1) as (s' & Hloop & R').
    { eapply wf_relaid; eassumption. }
    { intros c' Hin. destruct (Hl c' (in_cons _ _ _ Hin)).
      split; [eapply relaid_is_Some; eassumption | assumption]. }
    exists s'. split; [|eapply relaid_trans; eassumption].
    simpl. rewrite (bind_Ok _ _ _ _ _ Hout). exact Hloop.
Qed.

End LayoutLoops.

Lemma resize_total fuel :
  forall c a s, wf rk N s -> is_Some (views s !! c) -> (rk c < fuel)%nat ->
  exists s', resize fuel c a s = Ok tt s' /\ relaid s s'.
Proof.
  induction fuel as [|n IH]; intros c a s W [o Ho] Hlt; [lia|].
  simpl. rewrite (bind_Ok _ _ _ _ _ (get_view_Ok c s o Ho)).
  set (inside := mkSize _ _).
  destruct (resize_loop_total n (resize n) inside IH (subviews o) 0 0 s W)
    as (r & s1 & Hloop & R1).
  { intros c' Hin. destruct (wf_subviews _ _ _ W _ _ _ Ho Hin). split; [assumption | lia]. }
  rewrite (bind_Ok _ _ _ _ _ Hloop).
  destruct (relaid_lookup _ _ _ _ R1 Ho) as (o1 & Ho1 & _).
  rewrite (bind_Ok _ _ _ _ _ (get_view_Ok c s1 o1 Ho1)).
  rewrite (update_view_Ok c _ s1 o1 Ho1).
  eexists. split; [reflexivity|].
  eapply relaid_trans; [exact R1|].
  apply relaid_update with (o := o1); [assumption | destruct o1; reflexivity].
Qed.

Lemma reposition_total fuel :
  forall c a s, wf rk N s -> is_Some (views s !! c) -> (rk c < fuel)%nat ->
  exists s', reposition fuel c a s = Ok tt s' /\ relaid s s'.
Proof.
  induction fuel as [|n IH]; intros c a s W [o Ho] Hlt; [lia|].
  simpl. rewrite (bind_Ok _ _ _ _ _ (update_view_Ok c _ s o Ho)).
  match goal with |- context [mkState (<[c := ?o']> _) _] => set (o1 := o') end.
  set (s1 := mkState _ _).
  assert (R1 : relaid s s1).
  { apply relaid_update with (o := o); [assumption | destruct o; reflexivity]. }
  assert (Ho1 : views s1 !! c = Some o1) by apply lookup_insert_eq.
  rewrite (bind_Ok _ _ _ _ _ (get_view_Ok c s1 o1 Ho1)).
  assert (W1 : wf rk N s1) by (eapply wf_relaid; eassumption).
  destruct (reposition_loop_total n (reposition n)
              (rect_sub (rect_sub a (padding o1)) (border o1)) IH (subviews o1) s1 W1)
    as (s' & Hloop & R').
  { intros c' Hin. destruct (wf_subviews _ _ _ W1 _ _ _ Ho1 Hin). split; [assumption | lia]. }
  exists s'. split; [exact Hloop | eapply relaid_trans; eassumption].
Qed.

(** *** root *)

Lemma root_total fuel :
  forall l s o, wf rk N s -> views s !! l = Some o -> (N <= fuel + rk l)%nat ->
  exists r o', root fuel l s = Ok r s /\ views s !! r = Some o' /\ parent o' = None.
Proof.
  induction fuel as [|n IH]; intros l s o W Hl Hfuel.
  - pose proof (wf_rank _ _ _ W _ _ Hl). lia.
  - simpl. rewrite (bind_Ok _ _ _ _ _ (get_view_Ok l s o Hl)).
    destruct (parent o) as [p|] eqn:Hp.
    + destruct (wf_parent _ _ _ W _ _ _ Hl Hp) as [[op Hop] Hr].
      apply (IH p s op W Hop). lia.
    + exists l, o. auto.
Qed.

(** *** layout and state_changed *)

Lemma layout_total fuel r rect s o :
  wf rk N s -> views s !! r = Some o -> (forall ty, ~ Malformed s r ty) ->
  (rk r < fuel)%nat ->
  exists s', layout fuel r rect s = Ok tt s' /\ dirty_of s' r = Some false.
Proof.
  intros W Hr Hwell Hlt. unfold layout.
  rewrite (bind_Ok _ _ _ _ _ (get_view_Ok r s o Hr)).
  assert (H1 : exists s1,
    (match subviews o with [] => rebuild fuel r | _ :: _ => ret tt end) s = Ok tt s1 /\
    wf rk N s1 /\ is_Some (views s1 !! r)).
  { destruct (subviews o).
    - destruct (reconciles_cases r o s _ Hr (rebuild_reconciles fuel r s o W Hr Hlt))
        as [(s1 & Hout & E & W1 & Hn1 & _) | (ty & s1 & Hout & E & W1 & Hbad)].
      + exists s1. eauto.
      + destruct (Hwell ty Hbad).
    - exists s. eauto. }
  destruct H1 as (s1 & Hout1 & W1 & Hs1).
  rewrite (bind_Ok _ _ _ _ _ Hout1).
  destruct (resize_total fuel r (size rect) s1 W1 Hs1 Hlt) as (s2 & Hout2 & R2).
  rewrite (bind_Ok _ _ _ _ _ Hout2).
  assert (W2 : wf rk N s2) by (eapply wf_relaid; eassumption).
  assert (Hs2 : is_Some (views s2 !! r)) by (eapply relaid_is_Some; eassumption).
  destruct (reposition_total fuel r rect s2 W2 Hs2 Hlt) as (s3 & Hout3 & R3).
  rewrite (bind_Ok _ _ _ _ _ Hout3).
  destruct (relaid_is_Some _ _ _ R3 Hs2) as [o3 Ho3].
  rewrite (update_view_Ok r _ s3 o3 Ho3).
  eexists. split; [reflexivity|].
  unfold dirty_of. simpl. rewrite lookup_insert_eq. reflexivity.
Qed.

(** *** The subtree of a view *)

Lemma below_trans s a b c : below s a b -> below s b c -> below s a c.
Proof.
  intros Hab Hbc. induction Hbc as [o c Hb Hin | p o c _ IH Hp Hin].
  - eapply below_deeper; eassumption.
  - eapply below_deeper; [exact IH | eassumption | assumption].
Qed.

Lemma below_inv s l x :
  below s l x ->
  exists o c, views s !! l = Some o /\ In (VView c) (content o) /\
    (c = x \/ below s c x).
Proof.
  induction 1 as [o c Hl Hin | p o c Hb IH Hp Hin].
  - exists o, c. auto.
  - destruct IH as (o0 & c0 & Hl & Hin0 & [->|Hb0]).
    + exists o0, p. split; [assumption|]. split; [assumption|].
      right. eapply below_child; eassumption.
    + exists o0, c0. split; [assumption|]. split; [assumption|].
      right. eapply below_deeper; eassumption.
Qed.

Lemma below_rank s l x :
  wf rk N s -> below s l x -> is_Some (views s !! x) /\ (rk x < rk l)%nat.
Proof.
  intros W. induction 1 as [o c Hl Hin | p o c Hb [_ IH] Hp Hin].
  - apply (wf_content _ _ _ W _ _ _ Hl Hin).
  - destruct (wf_content _ _ _ W _ _ _ Hp Hin) as [Hs Hr]. split; [assumption | lia].
Qed.

Lemma same_contents_lookup s s' x o :
  same_contents s s' -> views s !! x = Some o ->
  exists o', views s' !! x = Some o' /\ content o' = content o.
Proof.
  intros H Hx. specialize (H x). rewrite Hx in H.
  destruct (views s' !! x) as [o'|]; simpl in H; [|discriminate].
  injection H as H. eauto.
Qed.

Lemma same_contents_sym s s' : same_contents s s' -> same_contents s' s.
Proof. intros H x. symmetry. apply H. Qed.

Lemma same_contents_trans s1 s2 s3 :
  same_contents s1 s2 -> same_contents s2 s3 -> same_contents s1 s3.
Proof. intros A B x. rewrite (B x). apply A. Qed.

Lemma evolves_same_contents T s s' : evolves rk T s s' -> same_contents s s'.
Proof.
  intros E x. pose proof (ev_views _ _ _ _ E x) as H.
  destruct (views s !! x) as [o|], (views s' !! x) as [o'|]; try tauto.
  destruct H as [Hr _]. simpl. rewrite (relinked_content _ _ Hr). reflexivity.
Qed.

Lemma below_same_contents s s' l x :
  same_contents s s' -> below s l x -> below s' l x.
Proof.
  intros S. induction 1 as [o c Hl Hin | p o c Hb IH Hp Hin].
  - destruct (same_contents_lookup _ _ _ _ S Hl) as (o' & Ho' & Hc).
    eapply below_child; [eassumption|]. rewrite Hc. assumption.
  - destruct (same_contents_lookup _ _ _ _ S Hp) as (o' & Ho' & Hc).
    eapply below_deeper; [exact IH | eassumption|]. rewrite Hc. assumption.
Qed.

Lemma declared_once_same_contents s s' :
  same_contents s s' -> declared_once s -> declared_once s'.
Proof.
  intros S [D U]. apply same_contents_sym in S. split.
  - intros l o' Hl. destruct (same_contents_lookup _ _ _ _ S Hl) as (o & Ho & Hc).
    rewrite <- Hc. eapply D; eassumption.
  - intros l l' o1 o2 c H1 H2 I1 I2.
    destruct (same_contents_lookup _ _ _ _ S H1) as (p1 & Hp1 & Hc1).
    destruct (same_contents_lookup _ _ _ _ S H2) as (p2 & Hp2 & Hc2).
    apply (U l l' p1 p2 c); try assumption; [rewrite Hc1 | rewrite Hc2]; assumption.
Qed.

(** In a tree, two views above a third lie on one branch. *)
Lemma below_one_branch s a b x :
  declared_once s -> below s a x -> below s b x ->
  a = b \/ below s a b \/ below s b a.
Proof.
  intros [_ U] Ha. revert b.
  induction Ha as [o c Ha Hin | p o c Hap IH Hp Hin]; intros b Hb.
  - inversion Hb as [o' c' Hb' Hin' | p' o' c' Hbp' Hp' Hin']; subst.
    + left. apply (U a b o o' c); assumption.
    + right. right. rewrite (U a p' o o' c); assumption.
  - inversion Hb as [o' c' Hb' Hin' | p' o' c' Hbp' Hp' Hin']; subst.
    + right. left. rewrite (U b p o' o c); assumption.
    + apply IH. rewrite (U p p' o o' c); assumption.
Qed.

Lemma sibling_not_below s p o a b :
  wf rk N s -> declared_once s ->
  views s !! p = Some o -> In (VView a) (content o) -> In (VView b) (content o) ->
  ~ below s a b.
Proof.
  intros W [_ U] Hp Ia Ib Hab.
  destruct (wf_content _ _ _ W _ _ _ Hp Ia) as [_ Hra].
  inversion Hab as [o' c' Ha' Hin' | q o' c' Haq Hq Hin']; subst.
  - rewrite (U a p o' o b) in Hra; try assumption. lia.
  - rewrite (U q p o' o b) in Haq; try assumption.
    destruct (below_rank _ _ _ W Haq). lia.
Qed.

Lemma siblings_disjoint s p o a b x :
  wf rk N s -> declared_once s ->
  views s !! p = Some o -> In (VView a) (content o) -> In (VView b) (content o) ->
  a <> b ->
  x = a \/ below s a x -> x = b \/ below s b x -> False.
Proof.
  intros W D Hp Ia Ib Hne [->|Ha] [Hb|Hb].
  - congruence.
  - apply (sibling_not_below s p o b a); assumption.
  - subst x. apply (sibling_not_below s p o a b); assumption.
  - destruct (below_one_branch s a b x D Ha Hb) as [H|[H|H]].
    + contradiction.
    + apply (sibling_not_below s p o a b); assumption.
    + apply (sibling_not_below s p o b a); assumption.
Qed.

Lemma declared_onceb_sound s : declared_onceb s = true -> declared_once s.
Proof.
  unfold declared_onceb. rewrite forallb_forall. intros H.
  assert (Hin : forall l o, views s !! l = Some o -> In (l, o) (map_to_list (views s))).
  { intros l o Hl. apply list_elem_of_In, elem_of_map_to_list. assumption. }
  split.
  - intros l o Hl. specialize (H (l, o) (Hin _ _ Hl)). simpl in H.
    apply andb_true_iff in H as [H _]. apply bool_decide_eq_true in H. assumption.
  - intros l l' o o' c Hl Hl' I I'.
    specialize (H (l, o) (Hin _ _ Hl)). simpl in H.
    apply andb_true_iff in H as [_ H]. rewrite forallb_forall in H.
    specialize (H (l', o') (Hin _ _ Hl')). simpl in H. rewrite forallb_forall in H.
    specialize (H c ltac:(apply in_views_of; assumption)).
    apply orb_true_iff in H as [H|H].
    + apply negb_true_iff, bool_decide_eq_false in H. exfalso. apply H.
      apply list_elem_of_In, in_views_of. assumption.
    + apply Nat.eqb_eq in H. assumption.
Qed.

(** What is settled depends on the links and declarations of the
    subtree only. *)
Lemma subtree_reconciled_transfer s s' l :
  same_contents s s' ->
  (forall x o, x = l \/ below s l x -> views s !! x = Some o ->
     exists o', views s' !! x = Some o' /\ parent o' = parent o /\
       index o' = index o /\ subviews o' = subviews o /\ content o' = content o) ->
  subtree_reconciled s l -> subtree_reconciled s' l.
Proof.
  intros S Hsame [Hl Hbelow].
  assert (K : forall x, x = l \/ below s l x -> settled s x -> settled s' x).
  { intros x Hx (o & Ho & Hsub & Hch).
    destruct (Hsame x o Hx Ho) as (o' & Ho' & _ & _ & Hs' & Hc').
    exists o'. split; [assumption|]. split; [rewrite Hs', Hc'; assumption|].
    intros i c Hi. rewrite Hs' in Hi.
    destruct (Hch i c Hi) as (oc & Hoc & Hp & Hidx).
    assert (Hc : below s l c).
    { assert (Hin : In (VView c) (content o)).
      { apply in_views_of. rewrite <- Hsub. apply list_elem_of_In.
        eapply list_elem_of_lookup_2. eassumption. }
      destruct Hx as [->|Hx].
      - eapply below_child; eassumption.
      - eapply below_deeper; eassumption. }
    destruct (Hsame c oc (or_intror Hc) Hoc) as (oc' & Hoc' & Hp' & Hi' & _).
    exists oc'. split; [assumption|]. split; congruence. }
  split.
  - apply K; auto.
  - intros x Hx. apply same_contents_sym in S.
    pose proof (below_same_contents _ _ _ _ S Hx) as Hx0.
    apply K; auto.
Qed.


(** *** What rebuild leaves alone *)

Lemma leaves_Ok {A} (a : A) s s' : leaves (Ok a s) s' -> s' = s.
Proof. intros [(b & H)|(e & H)]; [injection H as _ <-; reflexivity | discriminate]. Qed.

Lemma leaves_Raise {A} e s s' : leaves (@Raise A e s) s' -> s' = s.
Proof. intros [(b & H)|(e' & H)]; [discriminate | injection H as _ <-; reflexivity]. Qed.

Lemma leaves_bind {A B} (c : M A) (k : A -> M B) s s' :
  leaves ((mbind k c) s) s' ->
  (exists a s1, c s = Ok a s1 /\ leaves (k a s1) s') \/ (exists e, c s = Raise e s').
Proof.
  unfold mbind, M_bind, bind. destruct (c s) as [a s1|e s1| |] eqn:Hc; intros H.
  - left. eauto.
  - right. exists e. rewrite (leaves_Raise _ _ _ H). reflexivity.
  - destruct H as [(? & H)|(? & H)]; discriminate.
  - destruct H as [(? & H)|(? & H)]; discriminate.
Qed.

Lemma update_view_leaves l f s s' :
  leaves (update_view l f s) s' ->
  exists o, views s !! l = Some o /\ s' = mkState (<[l := f o]> (views s)) (envs s).
Proof.
  unfold update_view. destruct (views s !! l) as [o|]; intros H.
  - exists o. split; [reflexivity | apply (leaves_Ok _ _ _ H)].
  - destruct H as [(? & H)|(? & H)]; discriminate.
Qed.

Lemma update_view_inv l f s a s1 :
  update_view l f s = Ok a s1 ->
  exists o, views s !! l = Some o /\ s1 = mkState (<[l := f o]> (views s)) (envs s).
Proof.
  intros H. apply (update_view_leaves l f s s1). left. exists a. assumption.
Qed.

Lemma update_view_no_raise l f s e s1 : update_view l f s <> Raise e s1.
Proof. unfold update_view. destruct (views s !! l); discriminate. Qed.

Lemma get_view_inv l s o s1 : get_view l s = Ok o s1 -> views s !! l = Some o /\ s1 = s.
Proof.
  unfold get_view. destruct (views s !! l); [|discriminate].
  intros [= -> ->]. auto.
Qed.

Lemma get_view_no_raise l s e s1 : get_view l s <> Raise e s1.
Proof. unfold get_view. destruct (views s !! l); discriminate. Qed.

Lemma env_inherit_inv c p s a s1 :
  env_inherit c p s = Ok a s1 -> views s1 = views s.
Proof.
  unfold env_inherit. destruct (envs s !! c), (envs s !! p); try discriminate.
  intros [= _ <-]. reflexivity.
Qed.

Lemma env_inherit_no_raise c p s e s1 : env_inherit c p s <> Raise e s1.
Proof. unfold env_inherit. destruct (envs s !! c), (envs s !! p); discriminate. Qed.

Lemma same_contents_update s l o f :
  views s !! l = Some o -> content (f o) = content o ->
  same_contents s (mkState (<[l := f o]> (views s)) (envs s)).
Proof.
  intros Hl Hc x. simpl. destruct (decide (l = x)) as [<-|Hne].
  - rewrite lookup_insert_eq, Hl. simpl. rewrite Hc. reflexivity.
  - rewrite lookup_insert_ne by assumption. reflexivity.
Qed.

Lemma same_contents_views s s' : views s' = views s -> same_contents s s'.
Proof. intros H x. rewrite H. reflexivity. Qed.

Section RebuildFrame.

Variable rec : loc -> M unit.
Hypothesis rec_frame : forall c s s',
  leaves (rec c s) s' -> same_contents s s' /\ outside_untouched s s' c.

Lemma rebuild_loop_frame self (produced : list value) :
  forall idx acc s s',
  leaves (rebuild_loop rec self produced idx acc s) s' ->
  same_contents s s' /\
  forall x, ~ In (VView x) produced ->
    (forall c, In (VView c) produced -> ~ below s c x) ->
    views s' !! x = views s !! x.
Proof.
  induction produced as [|[c|ty] rest IH]; intros idx acc s s' Hl.
  - apply leaves_Ok in Hl. subst s'. split; [intros x; reflexivity | auto].
  - simpl in Hl.
    apply leaves_bind in Hl as [(a1 & s1 & H1 & Hl)|(e & H)];
      [|destruct (update_view_no_raise _ _ _ _ _ H)].
    apply update_view_inv in H1 as (oc & Hoc & ->).
    set (s1 := mkState (<[c := set_parent (Some self) oc]> (views s)) (envs s)) in *.
    apply leaves_bind in Hl as [(a2 & s2 & H2 & Hl)|(e & H)];
      [|destruct (update_view_no_raise _ _ _ _ _ H)].
    apply update_view_inv in H2 as (oc1 & Hoc1 & ->).
    set (s2 := mkState (<[c := set_index idx oc1]> (views s1)) (envs s1)) in *.
    apply leaves_bind in Hl as [(child & s3 & H3 & Hl)|(e & H)];
      [|destruct (get_view_no_raise _ _ _ _ H)].
    apply get_view_inv in H3 as (Hchild & ->).
    apply leaves_bind in Hl as [(me & s4 & H4 & Hl)|(e & H)];
      [|destruct (get_view_no_raise _ _ _ _ H)].
    apply get_view_inv in H4 as (Hme & ->).
    apply leaves_bind in Hl as [(a5 & s5 & H5 & Hl)|(e & H)];
      [|destruct (env_inherit_no_raise _ _ _ _ _ H)].
    apply env_inherit_inv in H5.
    assert (S02 : same_contents s s2).
    { eapply same_contents_trans.
      - apply (same_contents_update s c oc (set_parent (Some self)) Hoc). reflexivity.
      - apply (same_contents_update s1 c oc1 (set_index idx) Hoc1). reflexivity. }
    assert (S05 : same_contents s s5).
    { eapply same_contents_trans; [exact S02 | apply same_contents_views; assumption]. }
    assert (F05 : forall x, x <> c -> views s5 !! x = views s !! x).
    { intros x Hx. rewrite H5. unfold s2, s1. simpl.
      rewrite !lookup_insert_ne by congruence. reflexivity. }
    assert (Hstep : forall s6, leaves (rec c s5) s6 ->
              same_contents s s6 /\
              forall x, x <> c -> ~ below s c x -> views s6 !! x = views s !! x).
    { intros s6 H6. destruct (rec_frame c s5 s6 H6) as [S56 F56]. split.
      - eapply same_contents_trans; eassumption.
      - intros x Hx Hnb. rewrite (F56 x Hx), (F05 x Hx); [reflexivity|].
        intros Hb. apply Hnb. eapply below_same_contents; [|exact Hb].
        apply same_contents_sym. assumption. }
    apply leaves_bind in Hl as [(a6 & s6 & H6 & Hl)|(e & H6)].
    + destruct (Hstep s6 ltac:(left; eauto)) as [S06 F06].
      destruct (IH _ _ _ _ Hl) as [S6 F6]. split.
      * eapply same_contents_trans; eassumption.
      * intros x Hnin Hnb. rewrite F6, F06; [reflexivity | | | |].
        -- intros ->. apply Hnin. left. reflexivity.
        -- apply Hnb. left. reflexivity.
        -- intros Hin. apply Hnin. right. assumption.
        -- intros c' Hin Hb. apply (Hnb c' (in_cons _ _ _ Hin)).
           eapply below_same_contents; [|exact Hb]. apply same_contents_sym. assumption.
    + destruct (Hstep s' ltac:(right; eauto)) as [S06 F06]. split; [assumption|].
      intros x Hnin Hnb. apply F06.
      * intros ->. apply Hnin. left. reflexivity.
      * apply Hnb. left. reflexivity.
  - simpl in Hl. apply leaves_Raise in Hl. subst s'.
    split; [intros x; reflexivity | auto].
Qed.

End RebuildFrame.

Lemma rebuild_frame fuel :
  forall l s s', leaves (rebuild fuel l s) s' ->
  same_contents s s' /\ outside_untouched s s' l.
Proof.
  induction fuel as [|n IH]; intros l s s' Hl.
  - destruct Hl as [(? & H)|(? & H)]; discriminate.
  - simpl in Hl.
    apply leaves_bind in Hl as [(me & s1 & H1 & Hl)|(e & H)];
      [|destruct (get_view_no_raise _ _ _ _ H)].
    apply get_view_inv in H1 as (Hme & ->).
    assert (K : forall s2, leaves (rebuild_loop (rebuild n) l (content me) 0 [] s) s2 ->
              same_contents s s2 /\
              forall x, x <> l -> ~ below s l x -> views s2 !! x = views s !! x).
    { intros s2 H2. destruct (rebuild_loop_frame (rebuild n) IH l _ _ _ _ _ H2) as [S2 F2].
      split; [assumption|]. intros x Hx Hnb. apply F2.
      - intros Hin. apply Hnb. eapply below_child; eassumption.
      - intros c Hin Hb. apply Hnb.
        eapply below_trans; [eapply below_child; eassumption | exact Hb]. }
    apply leaves_bind in Hl as [(news & s2 & H2 & Hl)|(e & H2)].
    + destruct (K s2 ltac:(left; eauto)) as [S2 F2].
      apply update_view_leaves in Hl as (o2 & Ho2 & ->). split.
      * eapply same_contents_trans; [exact S2|].
        apply (same_contents_update s2 l o2 (set_subviews news) Ho2). reflexivity.
      * intros x Hx Hnb. simpl. rewrite lookup_insert_ne by congruence.
        apply F2; assumption.
    + apply (K s'). right. eauto.
Qed.


(** *** The subtree rebuild leaves *)

Lemma rebuild_loop_step rec self c rest idx acc s oc me Ec Em :
  views s !! c = Some oc -> c <> self -> views s !! self = Some me ->
  envs s !! env oc = Some Ec -> envs s !! env me = Some Em ->
  rebuild_loop rec self (VView c :: rest) idx acc s =
  (rec c;; rebuild_loop rec self rest (idx + 1) (acc ++ [c]))
    (mkState (<[c := set_index idx (set_parent (Some self) oc)]> (views s))
             (<[env oc := inherit Ec Em]> (envs s))).
Proof.
  intros Hoc Hne Hme HEc HEm. simpl.
  rewrite (bind_Ok _ _ _ _ _ (update_view_Ok c _ s oc Hoc)).
  set (s1 := mkState (<[c := set_parent (Some self) oc]> (views s)) (envs s)).
  assert (Hoc1 : views s1 !! c = Some (set_parent (Some self) oc)) by apply lookup_insert_eq.
  rewrite (bind_Ok _ _ _ _ _ (update_view_Ok c _ s1 _ Hoc1)).
  set (s2 := mkState (<[c := set_index idx (set_parent (Some self) oc)]> (views s1)) (envs s1)).
  assert (Hoc2 : views s2 !! c = Some (set_index idx (set_parent (Some self) oc)))
    by apply lookup_insert_eq.
  assert (Hme2 : views s2 !! self = Some me).
  { unfold s2, s1; simpl. rewrite !lookup_insert_ne by assumption. assumption. }
  rewrite (bind_Ok _ _ _ _ _ (get_view_Ok c s2 _ Hoc2)).
  rewrite (bind_Ok _ _ _ _ _ (get_view_Ok self s2 me Hme2)).
  rewrite (bind_Ok _ _ _ _ _ (env_inherit_Ok _ _ s2 Ec Em HEc HEm)).
  unfold s2, s1. simpl. rewrite insert_insert_eq. reflexivity.
Qed.

Lemma views_of_all (produced : list value) :
  (forall ty, ~ In (VOther ty) produced) -> produced = map VView (views_of produced).
Proof.
  induction produced as [|[c|ty] rest IH]; intros H; simpl.
  - reflexivity.
  - rewrite <- IH; [reflexivity|]. intros ty Hin. apply (H ty). right. assumption.
  - destruct (H ty). left. reflexivity.
Qed.

Section RebuildSubtree.

Variable rec : loc -> M unit.
Variable R : nat.
Hypothesis rec_reconciles : forall c s o,
  wf rk N s -> views s !! c = Some o -> (rk c < R)%nat ->
  reconciles rk N c o s (rec c s).
Hypothesis rec_frame : forall c s s',
  leaves (rec c s) s' -> same_contents s s' /\ outside_untouched s s' c.
Hypothesis rec_subtree : forall c s o s',
  wf rk N s -> declared_once s -> views s !! c = Some o -> (rk c < R)%nat ->
  rec c s = Ok tt s' -> subtree_reconciled s' c.

(** The loop over the views a view of a tree declares: each is attached
    and its subtree reconciled, and stays so while its later siblings
    are handled. *)
Lemma rebuild_loop_subtree self me (cs : list loc) :
  (rk self <= R)%nat ->
  forall idx acc s,
  wf rk N s -> declared_once s -> views s !! self = Some me -> NoDup cs ->
  (forall c, In c cs -> In (VView c) (content me)) ->
  (forall c ty, In c cs -> ~ Malformed s c ty) ->
  exists s1,
    rebuild_loop rec self (map VView cs) idx acc s = Ok (acc ++ cs) s1 /\
    wf rk N s1 /\ evolves rk (rk self) s s1 /\
    (forall x, ~ In x cs -> (forall c, In c cs -> ~ below s c x) ->
       views s1 !! x = views s !! x) /\
    (forall i c, cs !! i = Some c ->
       subtree_reconciled s1 c /\
       exists oc, views s1 !! c = Some oc /\ parent oc = Some self /\
         index oc = idx + Z.of_nat i).
Proof.
  intros HR. induction cs as [|c cs IH]; intros idx acc s W D Hme Hnd Hch Hwell.
  - exists s. simpl. rewrite app_nil_r.
    split; [reflexivity|]. split; [assumption|]. split; [apply evolves_refl|].
    split; [reflexivity|]. intros i c H. rewrite lookup_nil in H. discriminate.
  - assert (Ic : In (VView c) (content me)) by (apply Hch; left; reflexivity).
    destruct (wf_content _ _ _ W _ _ _ Hme Ic) as [[oc Hoc] Hlt].
    assert (Hne : c <> self) by (intros ->; lia).
    destruct (wf_env _ _ _ W _ _ Hoc) as [Ec HEc].
    destruct (wf_env _ _ _ W _ _ Hme) as [Em HEm].
    set (oc2 := set_index idx (set_parent (Some self) oc)).
    set (s2 := mkState (<[c := oc2]> (views s)) (envs s)).
    set (s3 := mkState (<[c := oc2]> (views s)) (<[env oc := inherit Ec Em]> (envs s))).
    assert (W2 : wf rk N s2).
    { apply wf_update with (o := oc); try assumption; try reflexivity.
      - intros c' Hin. apply (wf_subviews _ _ _ W _ _ _ Hoc Hin).
      - intros p [= <-]. eauto. }
    assert (W3 : wf rk N s3) by (apply (wf_env_insert s2); assumption).
    assert (Hoc2 : views s2 !! c = Some oc2) by apply lookup_insert_eq.
    assert (Hoc3 : views s3 !! c = Some oc2) by apply lookup_insert_eq.
    assert (E03 : evolves rk (rk self) s s3).
    { eapply evolves_trans.
      - apply evolves_update with (l := c) (o := oc) (o' := oc2);
          [assumption | destruct oc; reflexivity | assumption].
      - apply (evolves_inherit (rk self) s2 (env oc) Ec Em c oc2); auto. }
    change (map VView (c :: cs)) with (VView c :: map VView cs).
    rewrite (rebuild_loop_step rec self c (map VView cs) idx acc s oc me Ec Em)
      by assumption.
    fold oc2. fold s3.
    destruct (reconciles_cases c oc2 s3 _ Hoc3 (rec_reconciles c s3 oc2 W3 Hoc3 ltac:(lia)))
      as [(s4 & Hout & E4 & W4 & Hc4 & _ & _) | (ty & s4 & Hout & E4 & W4 & Hbad)].
    2:{ exfalso. apply (Hwell c ty (in_eq _ _)).
        apply (malformed_evolves _ _ _ _ _ E03). assumption. }
    pose proof (evolves_same_contents _ _ _ E03) as S03.
    pose proof (declared_once_same_contents _ _ S03 D) as D3.
    pose proof (rec_subtree c s3 oc2 s4 W3 D3 Hoc3 ltac:(lia) Hout) as R4.
    destruct (rec_frame c s3 s4 ltac:(left; eauto)) as [S34 F34].
    assert (E04 : evolves rk (rk self) s s4).
    { eapply evolves_trans; [exact E03|]. eapply evolves_mono; [|exact E4]. lia. }
    pose proof (evolves_same_contents _ _ _ E04) as S04.
    pose proof (declared_once_same_contents _ _ S04 D) as D4.
    assert (Hme4 : views s4 !! self = Some me).
    { destruct (evolves_lookup _ _ _ _ _ E04 Hme) as (o' & Ho' & _ & Hsame).
      rewrite (Hsame ltac:(lia)) in Ho'. exact Ho'. }
    apply NoDup_cons in Hnd as [Hnin Hnd]. rewrite list_elem_of_In in Hnin.
    destruct (IH (idx + 1) (acc ++ [c]) s4 W4 D4 Hme4 Hnd) as (s5 & Hloop & W5 & E5 & F5 & Hcs5).
    { intros c' Hin. apply Hch. right. assumption. }
    { intros c' ty Hin Hm. apply (Hwell c' ty (in_cons _ _ _ Hin)).
      apply (malformed_evolves _ _ _ _ _ E04). assumption. }
    exists s5. split.
    { rewrite (bind_Ok _ _ _ _ _ Hout), Hloop. rewrite <- app_assoc. reflexivity. }
    split; [assumption|].
    split; [eapply evolves_trans; eassumption|].
    split.
    { intros x Hx Hnb. rewrite F5.
      - rewrite (F34 x).
        + simpl. apply lookup_insert_ne. intros ->. apply Hx. left. reflexivity.
        + intros ->. apply Hx. left. reflexivity.
        + intros Hb. apply (Hnb c (in_eq _ _)).
          eapply below_same_contents; [|exact Hb]. apply same_contents_sym. assumption.
      - intros Hin. apply Hx. right. assumption.
      - intros c' Hin Hb. apply (Hnb c' (in_cons _ _ _ Hin)).
        eapply below_same_contents; [|exact Hb]. apply same_contents_sym. assumption. }
    assert (Hkeep : forall x, x = c \/ below s4 c x -> views s5 !! x = views s4 !! x).
    { intros x Hx. apply F5.
      - intros Hin.
        apply (siblings_disjoint s4 self me c x x W4 D4 Hme4 Ic (Hch x (in_cons _ _ _ Hin)));
          [intros -> | | left]; auto.
      - intros c' Hin Hb.
        apply (siblings_disjoint s4 self me c c' x W4 D4 Hme4 Ic (Hch c' (in_cons _ _ _ Hin)));
          [intros -> | | right]; auto. }
    intros [|i] c' Hi; simpl in Hi.
    + injection Hi as <-. split.
      * apply (subtree_reconciled_transfer s4 s5 c).
        -- eapply evolves_same_contents. eassumption.
        -- intros x o Hx Ho. exists o. rewrite (Hkeep x Hx). auto.
        -- assumption.
      * eexists. split; [rewrite (Hkeep c (or_introl eq_refl)); exact Hc4|].
        split; [reflexivity|]. simpl. lia.
    + destruct (Hcs5 i c' Hi) as (Hr & oc' & Hoc' & Hp & Hidx).
      split; [assumption|]. exists oc'. split; [assumption|]. split; [assumption|]. lia.
Qed.

End RebuildSubtree.

Lemma rebuild_subtree fuel :
  forall c s o s',
  wf rk N s -> declared_once s -> views s !! c = Some o -> (rk c < fuel)%nat ->
  rebuild fuel c s = Ok tt s' -> subtree_reconciled s' c.
Proof.
  induction fuel as [|n IH]; intros c s o s' W D Hc Hlt Hout; [lia|].
  assert (Hwell : forall ty, ~ Malformed s c ty).
  { destruct (reconciles_cases c o s _ Hc (rebuild_reconciles (S n) c s o W Hc Hlt))
      as [(s1 & H1 & _ & _ & _ & Hw & _) | (ty & s1 & H1 & _)];
      [assumption | rewrite Hout in H1; discriminate]. }
  assert (Hmap : content o = map VView (views_of (content o))).
  { apply views_of_all. intros ty Hin. apply (Hwell ty).
    eapply malformed_here; eassumption. }
  remember (views_of (content o)) as cs eqn:Hcs.
  simpl in Hout. rewrite (bind_Ok _ _ _ _ _ (get_view_Ok c s o Hc)) in Hout.
  destruct (rebuild_loop_subtree (rebuild n) n (rebuild_reconciles n) (rebuild_frame n) IH
              c o cs ltac:(lia) 0 [] s W D Hc)
    as (s1 & Hloop & W1 & E1 & F1 & Hcs1).
  { subst cs. apply (proj1 D c o Hc). }
  { intros c' Hin. rewrite Hmap. apply in_map. assumption. }
  { intros c' ty Hin Hm. apply (Hwell ty).
    eapply malformed_below; [eassumption | | eassumption].
    rewrite Hmap. apply in_map. assumption. }
  rewrite Hmap in Hout at 1. rewrite (bind_Ok _ _ _ _ _ Hloop) in Hout.
  destruct (evolves_lookup _ _ _ _ _ E1 Hc) as (o1 & Ho1 & _ & Hsame).
  rewrite (Hsame ltac:(lia)) in Ho1.
  rewrite (update_view_Ok c _ s1 o Ho1) in Hout. injection Hout as <-.
  simpl app.
  pose proof (evolves_same_contents _ _ _ E1) as S1.
  set (s2 := mkState (<[c := set_subviews cs o]> (views s1)) (envs s1)).
  assert (S12 : same_contents s1 s2).
  { apply (same_contents_update s1 c o (set_subviews cs) Ho1). reflexivity. }
  assert (Hchild : forall x, In x cs -> In (VView x) (content o)).
  { intros x Hin. rewrite Hmap. apply in_map. assumption. }
  assert (Hlow : forall x, below s1 c x -> x <> c).
  { intros x Hb ->. destruct (below_rank _ _ _ W1 Hb). lia. }
  assert (Hsettled : forall x, below s1 c x -> settled s1 x -> settled s2 x).
  { intros x Hb (ox & Hox & Hsub & Hkids).
    exists ox. split; [unfold s2; simpl; rewrite lookup_insert_ne; auto|].
    { intros E. apply (Hlow x Hb). congruence. }
    split; [assumption|]. intros i k Hi.
    destruct (Hkids i k Hi) as (ok & Hok & Hp & Hidx).
    exists ok. split; [|auto]. unfold s2; simpl. rewrite lookup_insert_ne; [assumption|].
    intros <-. apply (Hlow c); [|reflexivity].
    eapply below_deeper; [exact Hb | exact Hox|].
    apply in_views_of. rewrite <- Hsub. apply list_elem_of_In.
    eapply list_elem_of_lookup_2. eassumption. }
  split.
  - exists (set_subviews cs o). split; [apply lookup_insert_eq|].
    split; [exact Hcs|].
    intros i k Hi. change (cs !! i = Some k) in Hi.
    destruct (Hcs1 i k Hi) as (_ & ok & Hok & Hp & Hidx).
    exists ok. split; [|split; [assumption | lia]].
    unfold s2; simpl. rewrite lookup_insert_ne; [assumption|].
    intros <-. apply list_elem_of_lookup_2, list_elem_of_In in Hi.
    destruct (wf_content _ _ _ W _ _ _ Hc (Hchild _ Hi)). lia.
  - intros x Hb.
    assert (Hb1 : below s1 c x).
    { eapply below_same_contents; [|exact Hb]. apply same_contents_sym. assumption. }
    apply (Hsettled x Hb1).
    destruct (below_inv _ _ _ Hb1) as (o' & k & Ho' & Hin & Hk).
    rewrite Ho1 in Ho'. injection Ho' as <-.
    assert (Hk' : In k cs) by (subst cs; apply in_views_of; assumption).
    apply list_elem_of_In, list_elem_of_lookup_1 in Hk' as [i Hi].
    destruct (Hcs1 i k Hi) as ([Hs Hbel] & _).
    destruct Hk as [<-|Hk]; [assumption | apply Hbel; assumption].
Qed.

(** [root] follows links that a store changed below the view keeps. *)
Lemma root_unchanged fuel :
  forall l s s' r,
  wf rk N s ->
  (forall x, (rk l <= rk x)%nat -> parent <$> views s' !! x = parent <$> views s !! x) ->
  root fuel l s = Ok r s -> root fuel l s' = Ok r s'.
Proof.
  induction fuel as [|n IH]; intros l s s' r W Hsame H; [discriminate|].
  simpl in H. unfold mbind, M_bind, bind in H.
  destruct (get_view l s) as [o s0| | |] eqn:Hg; try discriminate.
  apply get_view_inv in Hg as [Hl ->].
  pose proof (Hsame l ltac:(lia)) as Hp. rewrite Hl in Hp.
  destruct (views s' !! l) as [o'|] eqn:Hl'; [|discriminate].
  simpl in Hp. injection Hp as Hp.
  simpl. rewrite (bind_Ok _ _ _ _ _ (get_view_Ok l s' o' Hl')). rewrite Hp.
  destruct (parent o) as [p|] eqn:Hpar.
  - apply (IH p s s' r W); [|assumption].
    intros x Hx. apply Hsame.
    destruct (wf_parent _ _ _ W _ _ _ Hl Hpar). lia.
  - injection H as <-. reflexivity.
Qed.



Lemma private_envsb_sound s : private_envsb s = true -> private_envs s.
Proof.
  unfold private_envsb. rewrite forallb_forall. intros H x y ox oy Hx Hy He.
  specialize (H (x, ox)). rewrite forallb_forall in H.
  assert (Hin : forall l o, views s !! l = Some o -> In (l, o) (map_to_list (views s))).
  { intros l o Hl. apply list_elem_of_In, elem_of_map_to_list. assumption. }
  specialize (H (Hin _ _ Hx) (y, oy) (Hin _ _ Hy)). simpl in H.
  apply orb_true_iff in H as [H|H].
  - apply negb_true_iff, Nat.eqb_neq in H. contradiction.
  - apply Nat.eqb_eq in H. assumption.
Qed.

Lemma declares_viewsb_sound s :
  declares_viewsb s = true -> forall x ty, ~ Malformed s x ty.
Proof.
  unfold declares_viewsb. rewrite forallb_forall. intros H x ty Hm.
  induction Hm as [l o ty Hl Hin | l o c ty Hl Hin _ IH]; [|exact IH].
  specialize (H (l, o)). rewrite forallb_forall in H.
  specialize (H ltac:(apply list_elem_of_In, elem_of_map_to_list; assumption) _ Hin).
  discriminate.
Qed.

End StoreFacts.

(** ** The statements on the example stores *)

Section OnExamples.
Import Store StoreSpec StoreExamples.
Local Open Scope nat_scope.

Lemma broken_wf : wf rank 5 broken.
Proof. apply wfb_wf. vm_compute. reflexivity. Qed.

Lemma broken_children_reconcile c t : In c [1; 2] -> ~ Malformed broken c t.
Proof.
  assert (H3 : ~ Malformed broken 3 t).
  { intros Hm. inversion Hm as [l o ty Hl Hin | l o c' ty Hl Hin Hm']; subst;
      vm_compute in Hl; injection Hl as <-; vm_compute in Hin; tauto. }
  intros [<-|[<-|[]]] Hm;
    inversion Hm as [l o ty Hl Hin | l o c' ty Hl Hin Hm']; subst;
    vm_compute in Hl; injection Hl as <-; vm_compute in Hin.
  - destruct Hin as [Hin|[]]. discriminate.
  - destruct Hin as [[= <-]|[]]. contradiction.
  - contradiction.
  - contradiction.
Qed.

Lemma rebuild_raises_iff_malformed_witness :
  ((exists ty s', rebuild 5 0 broken = Raise (ValueError (error_message ty)) s')
     <-> (exists ty, Malformed broken 0 ty)) /\
  (forall e s', rebuild 5 0 broken = Raise e s' ->
     exists ty, e = ValueError (error_message ty) /\
       (exists before after, error_message ty = (before ++ ty ++ after)%string) /\
       Malformed broken 0 ty /\
       views s' !! 0 = Some broken_root /\
       subviews <$> views s' !! 0 = subviews <$> views broken !! 0) /\
  (forall s', rebuild 5 0 broken = Ok tt s' ->
     subviews <$> views s' !! 0 = Some (views_of (content broken_root))) /\
  ((exists s', rebuild 5 0 broken = Ok tt s') \/
   (exists ty s', rebuild 5 0 broken = Raise (ValueError (error_message ty)) s')).
Proof.
  apply (rebuild_raises_iff_malformed rank 5 5 0 broken broken_root).
  - exact broken_wf.
  - reflexivity.
  - vm_compute. lia.
Defined.

Lemma failed_rebuild_leaves_earlier_children_attached_witness :
  exists s',
    rebuild 5 0 broken = Raise (ValueError (error_message "int")) s' /\
    subviews <$> views s' !! 0 = subviews <$> views broken !! 0 /\
    (forall i c, [1; 2] !! i = Some c ->
      exists oc o',
        views broken !! c = Some oc /\
        views s' !! c = Some o' /\
        parent o' = Some 0 /\
        index o' = Z.of_nat i /\
        subviews o' = views_of (content oc) /\
        relinked oc o') /\
    (forall i c oc, [1; 2] !! i = Some c -> views broken !! c = Some oc ->
      exists Ec, envs broken !! env oc = Some Ec /\
        envs s' !! env oc = Some (inherit Ec (mkEnv {[ "font" := PStr "serif" ]} ∅))).
Proof.
  destruct (failed_rebuild_leaves_earlier_children_attached rank 5 5 0 broken broken_root
              [1; 2] "int" [VView 3]) as (s' & Hraise & Hsub & Hviews & Henvs).
  - exact broken_wf.
  - reflexivity.
  - vm_compute. lia.
  - reflexivity.
  - simpl. repeat constructor.
  - intros c t. apply broken_children_reconcile.
  - exists s'. split; [exact Hraise|]. split; [exact Hsub|]. split; [exact Hviews|].
    apply Henvs.
    + apply private_envsb_sound. vm_compute. reflexivity.
    + reflexivity.
Defined.

Lemma family_built_wf : wf rank 5 (family_built ∅).
Proof. apply wfb_wf. vm_compute. reflexivity. Qed.

Lemma grown_wf : wf rank 5 grown.
Proof. apply wfb_wf. vm_compute. reflexivity. Qed.


(** C9.  The code fails the claim.  In the family, view 1 overrides
    [font] in an environment of its own and its sibling, view 2, has no
    override; the root and the views 2 and 3 hold the environment of the
    class.  Reconciling the root makes that one object inherit from view
    1's environment, for view 3, so that afterwards the sibling and the
    root both read view 1's [font]; had view 1 no override, they would
    read none. *)
Theorem class_environment_leaks_override :
  let mono : gmap string pyval := {[ "font" := PStr "mono" ]} in
  rebuild 5 0 (family mono) = Ok tt (family_built mono) /\
  rebuild 5 0 (family ∅) = Ok tt (family_built ∅) /\
  env <$> views (family mono) !! 2 = Some class_env /\
  env <$> views (family mono) !! 0 = Some class_env /\
  env <$> views (family mono) !! 3 = Some class_env /\
  reads (family mono) 2 "font" = None /\
  reads (family_built mono) 1 "font" = Some (PStr "mono") /\
  reads (family_built mono) 2 "font" = Some (PStr "mono") /\
  reads (family_built mono) 0 "font" = Some (PStr "mono") /\
  reads (family_built ∅) 2 "font" = None /\
  reads (family_built ∅) 0 "font" = None.
Proof.
  cbn zeta. repeat split; vm_compute; reflexivity.
Qed.

(** C5, the claim as worded fails: the leaf's [minimum_size()] returns
    (50,20), but [layout] never asks for it; with the [content_size] of
    [View] the leaf's frame is 0 by 0 and the root's 20 by 20. *)
Lemma layout_ignores_minimum_size :
  let s := scene (Some (mkSize 50 20)) (fun _ => Size0) in
  let s' := scene_laid_out (Some (mkSize 50 20)) (fun _ => Size0) 0 0 in
  padding <$> views s !! 0 = Some (mkInsets 10 10 10 10) /\
  minimum_size 2 1 s = Ok (mkSize 50 20) s /\
  layout 2 0 (viewport 0 0) s = Ok tt s' /\
  frame_of s' 1 = Some (mkRect (mkPoint 100 50) (mkSize 0 0)) /\
  frame_of s' 0 = Some (mkRect (mkPoint 90 40) (mkSize 20 20)) /\
  ~ (exists leaf root, frame_of s' 1 = Some leaf /\ frame_of s' 0 = Some root /\
       (50 <= width leaf)%Z /\ (20 <= height leaf)%Z /\
       (70 <= width root)%Z /\ (40 <= height root)%Z).
Proof.
  cbn zeta.
  assert (H1 : frame_of (scene_laid_out (Some (mkSize 50 20)) (fun _ => Size0) 0 0) 1
               = Some (mkRect (mkPoint 100 50) (mkSize 0 0))) by (vm_compute; reflexivity).
  repeat (split; [vm_compute; reflexivity|]).
  intros (leaf & root & Hl & _ & Hw & _). rewrite H1 in Hl. injection Hl as <-.
  vm_compute in Hw. apply Hw. reflexivity.
Qed.

(** C5, as the code has it.  A root with padding (10,10,10,10) and one
    leaf whose [content_size] returns (50,20), laid out in a viewport of
    size (200,100): the leaf's frame is 50 by 20, the root's 70 by 40,
    the root is centered in the viewport and the leaf is centered in the
    root's frame less its padding and border.  The leaf's
    [minimum_size()] plays no part. *)
Theorem layout_of_padded_root_with_leaf (leaf_minimum : option Size) (x0 y0 : Z) :
  let s := scene leaf_minimum (fun _ => mkSize 50 20) in
  let s' := scene_laid_out leaf_minimum (fun _ => mkSize 50 20) x0 y0 in
  layout 2 0 (viewport x0 y0) s = Ok tt s' /\
  exists leaf root inner,
    frame_of s' 1 = Some leaf /\ frame_of s' 0 = Some root /\
    inner_of s' 0 = Some inner /\
    size leaf = mkSize 50 20 /\
    size root = mkSize 70 40 /\
    (left root = x0 + 65)%Z /\ (top root = y0 + 30)%Z /\
    (left leaf = x0 + 75)%Z /\ (top leaf = y0 + 40)%Z /\
    centered_in (viewport x0 y0) root /\
    centered_in inner leaf /\
    dirty_of s' 0 = Some false.
Proof.
  cbn zeta. split; [vm_compute; reflexivity|].
  exists (mkRect (mkPoint (x0 + 10 + 0 + 65) (y0 + 10 + 0 + 30)) (mkSize 50 20)),
         (mkRect (mkPoint (x0 + 65) (y0 + 30)) (mkSize 70 40)),
         (mkRect (mkPoint (x0 + 65 + 10 + 0) (y0 + 30 + 10 + 0)) (mkSize 50 20)).
  split; [vm_compute; reflexivity|].
  split; [vm_compute; reflexivity|].
  split; [vm_compute; reflexivity|].
  unfold centered_in, viewport, left, top, width, height. simpl.
  change ((50 - 50) / 2)%Z with 0%Z. change ((20 - 20) / 2)%Z with 0%Z.
  repeat split; try reflexivity; lia.
Qed.

End OnExamples.

(** ** More facts about the tree *)

Section TreeExtraFacts.
Import Tree TreeSpec TreeExamples TreeExtra.

Lemma render_loop_flat_map (f : View -> list (View * Rect)) (views : list View) :
  render_loop f views = flat_map f views.
Proof. induction views as [|c rest IH]; simpl; congruence. Qed.

Lemma render_unfold v :
  render v = (v, inner_of_frame v) :: flat_map render (subviews v).
Proof. destruct v; simpl. rewrite render_loop_flat_map. reflexivity. Qed.

Lemma resize_unfold available v :
  resize available v =
  let inside :=
    mkSize (Z.max 0 (w available - iwidth (padding v) - iwidth (border v)))
           (Z.max 0 (h available - iheight (padding v) - iheight (border v))) in
  let views' := map (resize inside) (subviews v) in
  with_frame (with_subviews v views')
    (set_size (frame v)
       (mkSize (Z.max (max_width views') (w (content_size_hook v inside))
                  + iwidth (padding v) + iwidth (border v))
               (Z.max (max_height views') (h (content_size_hook v inside))
                  + iheight (padding v) + iheight (border v)))).
Proof.
  destruct v as [f p b i d dy ix o mh ch sub].
  cbn zeta. unfold resize; fold resize.
  cbn [subviews padding border frame content_size_hook].
  rewrite resize_loop_spec. reflexivity.
Qed.

Lemma reposition_unfold inside v :
  reposition inside v =
  with_frame
    (with_subviews v
       (map (reposition (rect_sub (rect_sub inside (padding v)) (border v))) (subviews v)))
    (set_origin (frame v)
       (mkPoint (left inside + (width inside - width (frame v)) / 2)
                (top inside + (height inside - height (frame v)) / 2))).
Proof.
  destruct v as [f p b i d dy ix o mh ch sub].
  unfold reposition; fold reposition. rewrite reposition_loop_map. reflexivity.
Qed.

(** *** What resize and reposition establish *)

Lemma fold_right_max_ge (l : list Z) (a z : Z) :
  In z l -> z <= fold_right Z.max a l.
Proof.
  induction l as [|y l IH]; simpl; [tauto|].
  intros [->|H]; [lia | specialize (IH H); lia].
Qed.

Lemma fold_right_max_ge_init (l : list Z) (a : Z) : a <= fold_right Z.max a l.
Proof. induction l as [|y l IH]; simpl; lia. Qed.

(** X1.  After [resize], in every node of the tree the frame is at least
    the node's padding and border, and each subview's frame plus that
    padding and border is no larger than the node's frame, on both
    axes. *)
Theorem resize_fits (available : Size) (v : View) : Fits (resize available v).
Proof.
  revert available. induction v as [v IH] using View_induction. intros available.
  rewrite resize_unfold. cbn zeta.
  set (inside := mkSize _ _).
  pose proof (fold_right_max_ge_init
                (map (fun c => width (frame c)) (map (resize inside) (subviews v))) 0) as Hw0.
  pose proof (fold_right_max_ge_init
                (map (fun c => height (frame c)) (map (resize inside) (subviews v))) 0) as Hh0.
  constructor.
  - unfold max_width, width in *. simpl. lia.
  - unfold max_height, height in *. simpl. lia.
  - simpl. apply Forall_forall. intros c Hc. apply list_elem_of_In in Hc.
    pose proof (fold_right_max_ge _ 0 _ (in_map (fun c => width (frame c)) _ _ Hc)) as Hw.
    pose proof (fold_right_max_ge _ 0 _ (in_map (fun c => height (frame c)) _ _ Hc)) as Hh.
    unfold max_width, max_height, width, height in *. simpl in *. lia.
  - simpl. apply Forall_forall. intros c Hc. apply list_elem_of_In in Hc.
    apply in_map_iff in Hc as (c0 & <- & Hc0).
    rewrite Forall_forall in IH. apply IH. apply list_elem_of_In. assumption.
Qed.

Lemma preorder_resize_origins (available : Size) (v : View) :
  origins (resize available v) = origins v.
Proof.
  revert available. induction v as [v IH] using View_induction. intros available.
  unfold origins. rewrite resize_unfold. cbn zeta.
  rewrite (preorder_unfold v), preorder_unfold. simpl. f_equal.
  rewrite !flat_map_concat_map, !concat_map, !map_map. f_equal.
  apply map_ext_in. intros c Hc. rewrite Forall_forall in IH.
  apply (IH c). apply list_elem_of_In. assumption.
Qed.

Lemma resize_again (available : Size) (v : View) :
  resize available (resize available v) = resize available v.
Proof.
  revert available. induction v as [v IH] using View_induction. intros available.
  rewrite (resize_unfold available (resize available v)).
  rewrite (resize_unfold available v). cbn zeta. simpl.
  set (inside := mkSize _ _).
  assert (E : map (resize inside) (map (resize inside) (subviews v))
              = map (resize inside) (subviews v)).
  { rewrite map_map. apply map_ext_in. intros c Hc. rewrite Forall_forall in IH.
    apply (IH c). apply list_elem_of_In. assumption. }
  rewrite E. reflexivity.
Qed.

(** X2.  [resize] writes frame sizes only and can be run again: it
    leaves every frame origin of the tree as it was, and resizing the
    result for the same offer changes nothing. *)
Theorem resize_keeps_origins_and_is_idempotent (available : Size) (v : View) :
  origins (resize available v) = origins v /\
  resize available (resize available v) = resize available v.
Proof. split; [apply preorder_resize_origins | apply resize_again]. Qed.

Lemma preorder_reposition_sizes (inside : Rect) (v : View) :
  sizes (reposition inside v) = sizes v.
Proof.
  revert inside. induction v as [v IH] using View_induction. intros inside.
  unfold sizes. rewrite reposition_unfold.
  rewrite (preorder_unfold v), preorder_unfold. simpl. f_equal.
  rewrite !flat_map_concat_map, !concat_map, !map_map. f_equal.
  apply map_ext_in. intros c Hc. rewrite Forall_forall in IH.
  apply (IH c). apply list_elem_of_In. assumption.
Qed.

Lemma reposition_again (inside : Rect) (v : View) :
  reposition inside (reposition inside v) = reposition inside v.
Proof.
  revert inside. induction v as [v IH] using View_induction. intros inside.
  rewrite (reposition_unfold inside (reposition inside v)).
  rewrite (reposition_unfold inside v). simpl.
  set (inner := rect_sub _ _).
  assert (E : map (reposition inner) (map (reposition inner) (subviews v))
              = map (reposition inner) (subviews v)).
  { rewrite map_map. apply map_ext_in. intros c Hc. rewrite Forall_forall in IH.
    apply (IH c). apply list_elem_of_In. assumption. }
  rewrite E. reflexivity.
Qed.

(** X3.  [reposition] writes frame origins only and can be run again: it
    leaves every frame size of the tree as it was, and repositioning the
    result within the same rect changes nothing. *)
Theorem reposition_keeps_sizes_and_is_idempotent (inside : Rect) (v : View) :
  sizes (reposition inside v) = sizes v /\
  reposition inside (reposition inside v) = reposition inside v.
Proof. split; [apply preorder_reposition_sizes | apply reposition_again]. Qed.

Lemma half_step (a d : Z) : 0 <= d -> a / 2 <= (a + d) / 2 <= a / 2 + d.
Proof. intros Hd. Z.div_mod_to_equations. lia. Qed.

Lemma reposition_nested (inside : Rect) (v : View) :
  Fits v -> Nested (reposition inside v).
Proof.
  revert inside. induction v as [v IH] using View_induction. intros inside HF.
  inversion HF as [v' Hw Hh Hsub Hall]; subst v'.
  rewrite reposition_unfold.
  set (inner := rect_sub _ _).
  constructor; simpl.
  - apply Forall_forall. intros c' Hc'. apply list_elem_of_In in Hc'.
    apply in_map_iff in Hc' as (c & <- & Hc).
    rewrite Forall_forall in Hsub.
    destruct (Hsub c ltac:(apply list_elem_of_In; assumption)) as [Hcw Hch].
    rewrite (reposition_unfold inner c).
    unfold within, inner_of_frame, inner, rect_sub, right, bottom, left, top,
      width, height, set_origin in *. simpl in *.
    pose proof (half_step (w (size inside) - w (size (frame v)))
                  (w (size (frame v)) - iwidth (padding v) - iwidth (border v)
                   - w (size (frame c))) ltac:(lia)) as Hx.
    pose proof (half_step (h (size inside) - h (size (frame v)))
                  (h (size (frame v)) - iheight (padding v) - iheight (border v)
                   - h (size (frame c))) ltac:(lia)) as Hy.
    replace (w (size inside) - w (size (frame v))
             + (w (size (frame v)) - iwidth (padding v) - iwidth (border v)
                - w (size (frame c))))
      with (w (size inside) - iwidth (padding v) - iwidth (border v)
            - w (size (frame c))) in Hx by lia.
    replace (h (size inside) - h (size (frame v))
             + (h (size (frame v)) - iheight (padding v) - iheight (border v)
                - h (size (frame c))))
      with (h (size inside) - iheight (padding v) - iheight (border v)
            - h (size (frame c))) in Hy by lia.
    unfold iwidth, iheight in *. lia.
  - apply Forall_forall. intros c' Hc'. apply list_elem_of_In in Hc'.
    apply in_map_iff in Hc' as (c & <- & Hc).
    rewrite Forall_forall in IH, Hall.
    apply IH; [|apply Hall]; apply list_elem_of_In; assumption.
Qed.

(** X4.  After [resize] and then [reposition], whatever the offered size
    and the enclosing rect, in every node of the tree each subview's
    frame lies within the node's frame less its padding and border. *)
Theorem laid_out_subviews_are_nested (available : Size) (inside : Rect) (v : View) :
  Nested (reposition inside (resize available v)).
Proof. apply reposition_nested, resize_fits. Qed.

(** *** render *)

(** X5.  [render] draws every node of the tree once, in pre-order, which
    is the order in which [find_all] without filters lists them, and
    gives each [draw] the node's frame less its padding and border. *)
Theorem render_draws_in_find_all_order (v : View) :
  map fst (render v) = find_all [] v /\
  map fst (render v) = preorder v /\
  Forall (fun call => snd call = inner_of_frame (fst call)) (render v).
Proof.
  assert (H1 : map fst (render v) = preorder v).
  { induction v as [v IH] using View_induction.
    rewrite render_unfold, preorder_unfold. simpl. f_equal.
    rewrite !flat_map_concat_map, concat_map, map_map. f_equal.
    apply map_ext_in. intros c Hc. rewrite Forall_forall in IH.
    apply (IH c). apply list_elem_of_In. assumption. }
  split; [|split; [exact H1|]].
  - rewrite H1, find_all_preorder.
    assert (E : forall l : list View, List.filter (matches []) l = l).
    { induction l as [|c l IHl]; [reflexivity|]. cbn. rewrite IHl. reflexivity. }
    rewrite E. reflexivity.
  - clear H1. induction v as [v IH] using View_induction.
    rewrite render_unfold. constructor; [reflexivity|].
    apply Forall_forall. intros call Hin. apply list_elem_of_In in Hin.
    apply in_flat_map in Hin as (c & Hc & Hcall).
    rewrite Forall_forall in IH.
    specialize (IH c ltac:(apply list_elem_of_In; assumption)).
    rewrite Forall_forall in IH. apply IH. apply list_elem_of_In. assumption.
Qed.

(** *** find and find_all *)

Lemma hit_facts pt filters (v d : View) :
  Hit pt filters v d ->
  contains (frame d) pt = true /\ matches filters d = true /\ In d (preorder v).
Proof.
  induction 1 as [v Hc Hm | v c d Hc Hin _ (IH1 & IH2 & IH3)].
  - split; [assumption|]. split; [assumption|]. rewrite preorder_unfold. left. reflexivity.
  - split; [assumption|]. split; [assumption|]. rewrite preorder_unfold. right.
    apply in_flat_map. eauto.
Qed.

(** X6.  What [find] returns is a node of the tree whose frame contains
    the point, that satisfies the filters, and that [find_all] lists for
    the same filters; and the frame of the node [find] was called on
    contains the point too. *)
Theorem find_result_is_sound pt filters (v r : View) :
  find pt filters v = Some r ->
  contains (frame r) pt = true /\
  contains (frame v) pt = true /\
  matches filters r = true /\
  In r (preorder v) /\
  In r (find_all filters v).
Proof.
  intros H. pose proof (find_hit pt filters v r H) as [Hh _].
  destruct (hit_facts _ _ _ _ Hh) as (H1 & H2 & H3).
  split; [assumption|].
  split.
  { rewrite find_unfold in H. destruct (contains (frame v) pt); [reflexivity | discriminate]. }
  split; [assumption|]. split; [assumption|].
  rewrite find_all_preorder. apply filter_In. auto.
Qed.

Lemma find_result_is_sound_witness :
  contains (frame level3) (mkPoint 3 3) = true /\
  contains (frame level1) (mkPoint 3 3) = true /\
  matches [] level3 = true /\
  In level3 (preorder level1) /\
  In level3 (find_all [] level1).
Proof.
  apply (find_result_is_sound (mkPoint 3 3) [] level1 level3). reflexivity.
Defined.

Lemma filter_and_sublist {A} (p q : A -> bool) (l : list A) :
  sublist (List.filter (fun a => p a && q a) l) (List.filter p l).
Proof.
  induction l as [|a l IH]; simpl; [constructor|].
  destruct (p a); simpl; [|assumption].
  destruct (q a); [apply sublist_skip | apply sublist_cons]; assumption.
Qed.

(** X7.  More filters never add results: what [find_all] lists for the
    filters with further ones added is a sublist, in the same order, of
    what it lists for the filters alone. *)
Theorem find_all_more_filters_is_sublist filters more (v : View) :
  sublist (find_all (filters ++ more) v) (find_all filters v).
Proof.
  rewrite !find_all_preorder.
  assert (E : forall l, List.filter (matches (filters ++ more)) l
                        = List.filter (fun a => matches filters a && matches more a) l).
  { intros l. apply filter_ext. intros a. unfold matches. apply forallb_app. }
  rewrite E. apply filter_and_sublist.
Qed.

Lemma filter_all {A} (p : A -> bool) (l : list A) :
  (forall a, In a l -> p a = true) -> List.filter p l = l.
Proof.
  induction l as [|a l IH]; intros Hl; [reflexivity|]. simpl.
  rewrite (Hl a (in_eq _ _)), IH; [reflexivity|].
  intros a' Ha'. apply Hl. right. assumption.
Qed.

Lemma filter_none {A} (p : A -> bool) (l : list A) :
  (forall a, In a l -> p a = false) -> List.filter p l = [].
Proof.
  induction l as [|a l IH]; intros Hl; [reflexivity|]. simpl.
  rewrite (Hl a (in_eq _ _)). apply IH.
  intros a' Ha'. apply Hl. right. assumption.
Qed.

Lemma getattr_optional attr (c : View) :
  optional attr -> options c !! attr = None -> getattr c attr = PNone.
Proof.
  intros [Hnames _] Hnone.
  assert (K : forall name, In name names_of_View -> String.eqb attr name = false).
  { intros name Hin. destruct (String.eqb attr name) eqn:E; [|reflexivity].
    rewrite <- Hnames. symmetry. apply existsb_exists. eauto. }
  unfold getattr.
  rewrite !K by (simpl; tauto). rewrite Hnone. reflexivity.
Qed.

(** X8.  A filter on an attribute no node of the tree has compares the
    default [None]: with the value [None] it matches every node, so
    [find_all] lists the whole tree, and with any other value it matches
    none, so [find_all] lists nothing and [find] gives nothing.  The
    attribute is one that only an instance can have ([optional]: no name
    of the class [View] or of Python's objects), and no node of the tree
    has it set. *)
Theorem filter_on_missing_attribute attr (v : View) :
  optional attr ->
  Forall (fun c => options c !! attr = None) (preorder v) ->
  find_all [(attr, PNone)] v = preorder v /\
  forall value, value <> PNone ->
    find_all [(attr, value)] v = [] /\
    forall pt, find pt [(attr, value)] v = None.
Proof.
  intros Hopt Hall. rewrite Forall_forall in Hall.
  assert (Hm : forall value c, In c (preorder v) ->
                 matches [(attr, value)] c = py_eqb PNone value).
  { intros value c Hc. unfold matches. simpl.
    rewrite (getattr_optional attr c Hopt (Hall c ltac:(apply list_elem_of_In; assumption))).
    apply andb_true_r. }
  split.
  - rewrite find_all_preorder.
    apply filter_all. intros c Hc. rewrite (Hm PNone c Hc). reflexivity.
  - intros value Hv.
    assert (Hf : py_eqb PNone value = false) by (destruct value; [contradiction | | |]; reflexivity).
    split.
    + rewrite find_all_preorder.
      apply filter_none. intros c Hc. rewrite (Hm value c Hc). assumption.
    + intros pt. destruct (find pt [(attr, value)] v) as [r|] eqn:E; [|reflexivity].
      apply find_hit in E as [Hh _].
      destruct (hit_facts _ _ _ _ Hh) as (_ & H2 & H3).
      rewrite (Hm value r H3), Hf in H2. discriminate.
Qed.

Lemma filter_on_missing_attribute_witness :
  find_all [("tag"%string, PNone)] level1 = preorder level1 /\
  forall value, value <> PNone ->
    find_all [("tag"%string, value)] level1 = [] /\
    forall pt, find pt [("tag"%string, value)] level1 = None.
Proof.
  apply (filter_on_missing_attribute "tag" level1).
  - split; reflexivity.
  - repeat constructor.
Defined.

(** *** minimum_size *)

Lemma min_fold_lower (l : list View) (acc : Size) :
  Forall (fun c =>
    0 <= iaxis (padding c) HORIZONTAL + iaxis (border c) HORIZONTAL /\
    0 <= iaxis (padding c) VERTICAL + iaxis (border c) VERTICAL) l ->
  (w acc <= w (fold_left min_fold_step l acc) /\
   h acc <= h (fold_left min_fold_step l acc)) /\
  Forall (fun c =>
    w (minimum_size c) <= w (fold_left min_fold_step l acc) /\
    h (minimum_size c) <= h (fold_left min_fold_step l acc)) l.
Proof.
  intros H. revert acc. induction H as [|c l [Hc1 Hc2] _ IH]; intros acc; cbn [fold_left].
  - split; [lia | constructor].
  - destruct (IH (min_fold_step acc c)) as [[Ha Hb] Hall].
    set (r := fold_left min_fold_step l (min_fold_step acc c)) in *.
    assert (Hw : w (min_fold_step acc c)
                 = Z.max (w (minimum_size c))
                     (w acc + iaxis (padding c) HORIZONTAL + iaxis (border c) HORIZONTAL))
      by reflexivity.
    assert (Hh : h (min_fold_step acc c)
                 = Z.max (h (minimum_size c))
                     (h acc + iaxis (padding c) VERTICAL + iaxis (border c) VERTICAL))
      by reflexivity.
    split; [lia|]. constructor; [lia | assumption].
Qed.

(** X9.  When no subview has negative padding plus border on an axis,
    [View.minimum_size] of a node is, on each axis, at least zero and at
    least the [minimum_size()] of every one of its subviews. *)
Theorem minimum_size_covers_subviews (v : View) :
  Forall (fun c =>
    0 <= iaxis (padding c) HORIZONTAL + iaxis (border c) HORIZONTAL /\
    0 <= iaxis (padding c) VERTICAL + iaxis (border c) VERTICAL) (subviews v) ->
  0 <= w (View_minimum_size v) /\ 0 <= h (View_minimum_size v) /\
  Forall (fun c =>
    w (minimum_size c) <= w (View_minimum_size v) /\
    h (minimum_size c) <= h (View_minimum_size v)) (subviews v).
Proof.
  intros H. unfold View_minimum_size. rewrite minimum_size_loop_fold.
  destruct (min_fold_lower (subviews v) (mkSize 0 0) H) as [[Ha Hb] Hall].
  simpl in Ha, Hb. auto.
Qed.

Lemma minimum_size_covers_subviews_witness :
  0 <= w (View_minimum_size two_widgets) /\ 0 <= h (View_minimum_size two_widgets) /\
  Forall (fun c =>
    w (minimum_size c) <= w (View_minimum_size two_widgets) /\
    h (minimum_size c) <= h (View_minimum_size two_widgets)) (subviews two_widgets).
Proof.
  apply (minimum_size_covers_subviews two_widgets).
  repeat constructor; vm_compute; discriminate.
Defined.

End TreeExtraFacts.

(** ** More facts about the store *)

Section StoreExtraFacts.
Import Store StoreSpec StoreExamples.

Variable rk : loc -> nat.
Variable N : nat.

(** X10.  When every value a node declares is a view that reconciles,
    [rebuild(node)] returns with [node.subviews] the declared views in
    order, and each of them, at position [i], has the node as [parent],
    [i] as [index] and the views it declares itself as [subviews].  The
    views are taken to be siblings of a tree: ranks descending in
    declaration order. *)
Theorem rebuild_attaches_children
    fuel (node : loc) (s : state) (o : ViewObj) (cs : list loc) :
  wf rk N s ->
  views s !! node = Some o ->
  (rk node < fuel)%nat ->
  content o = map VView cs ->
  descending rk cs ->
  (forall c t, In c cs -> ~ Malformed s c t) ->
  exists s',
    rebuild fuel node s = Ok tt s' /\
    subviews <$> views s' !! node = Some cs /\
    parent <$> views s' !! node = parent <$> views s !! node /\
    index <$> views s' !! node = index <$> views s !! node /\
    forall i c, cs !! i = Some c ->
      exists oc o',
        views s !! c = Some oc /\
        views s' !! c = Some o' /\
        parent o' = Some node /\
        index o' = Z.of_nat i /\
        subviews o' = views_of (content oc) /\
        relinked oc o'.
Proof.
  intros W Hnode Hlt Hcontent Hdesc Hwell.
  destruct fuel as [|n]; [lia|].
  assert (Hcs : forall c, In c cs ->
            is_Some (views s !! c) /\ (rk c < rk node)%nat /\ forall t, ~ Malformed s c t).
  { intros c Hin.
    destruct (wf_content _ _ _ W node o c Hnode) as [Hs Hr].
    { rewrite Hcontent. apply in_map. assumption. }
    split; [assumption|]. split; [assumption|]. intros t. apply Hwell. assumption. }
  destruct (rebuild_loop_prefix rk N (rebuild n) n (rebuild_reconciles rk N n) node cs
              [] ltac:(lia) 0 [] s o W Hnode Hdesc Hcs)
    as (s1 & Hloop & E1 & W1 & Hviews & _).
  assert (Hb : (rank_bound rk cs <= rk node)%nat).
  { destruct cs as [|c cs']; simpl; [lia|].
    destruct (Hcs c (in_eq _ _)) as (_ & Hr & _). lia. }
  destruct (evolves_lookup _ _ _ _ _ _ E1 Hnode) as (o1 & Ho1 & _ & Hsame).
  rewrite (Hsame Hb) in Ho1.
  rewrite app_nil_r in Hloop. simpl in Hloop.
  eexists. split.
  { simpl. rewrite (bind_Ok _ _ _ _ _ (get_view_Ok node s o Hnode)).
    rewrite Hcontent. rewrite (bind_Ok _ _ _ _ _ Hloop).
    apply update_view_Ok. exact Ho1. }
  simpl. rewrite lookup_insert_eq, Hnode. simpl.
  split; [reflexivity|]. split; [reflexivity|]. split; [reflexivity|].
  intros i c Hi.
  destruct (Hviews i c Hi) as (oc & Hoc & Hv).
  assert (Hne : node <> c).
  { intros <-. apply list_elem_of_lookup_2, list_elem_of_In in Hi.
    destruct (Hcs node Hi) as (_ & Hr & _). lia. }
  exists oc, (attached node (0 + Z.of_nat i) oc).
  split; [assumption|].
  split; [rewrite lookup_insert_ne by assumption; assumption|].
  split; [reflexivity|]. split; [simpl; lia|]. split; [reflexivity|].
  destruct oc; reflexivity.
Qed.

(** X11.  On the views of the store [rebuild] writes links only:
    whether it returns or raises, every view keeps its frame, padding,
    border, [dirty], declared contents, environment reference and
    measuring methods, so that only [parent], [index] and [subviews] may
    differ; and a view that is neither the node nor declared below it
    is left as it was altogether. *)
Theorem rebuild_only_relinks fuel (node : loc) (s : state) (o : ViewObj) :
  wf rk N s -> views s !! node = Some o -> (rk node < fuel)%nat ->
  exists s',
    (rebuild fuel node s = Ok tt s' \/
     exists ty, rebuild fuel node s = Raise (ValueError (error_message ty)) s') /\
    (forall x a, views s !! x = Some a ->
       exists b, views s' !! x = Some b /\
         frame b = frame a /\ padding b = padding a /\ border b = border a /\
         dirty b = dirty a /\ contents b = contents a /\ env b = env a /\
         minimum_size_hook b = minimum_size_hook a /\
         content_size_hook b = content_size_hook a) /\
    (forall x, x <> node -> ~ below s node x -> views s' !! x = views s !! x).
Proof.
  intros W Hnode Hlt.
  assert (K : forall s', evolves rk (S (rk node)) s s' ->
    forall x a, views s !! x = Some a ->
      exists b, views s' !! x = Some b /\
        frame b = frame a /\ padding b = padding a /\ border b = border a /\
        dirty b = dirty a /\ contents b = contents a /\ env b = env a /\
        minimum_size_hook b = minimum_size_hook a /\
        content_size_hook b = content_size_hook a).
  { intros s' E x a Hx.
    destruct (evolves_lookup _ _ _ _ _ _ E Hx) as (b & Hb & Hr & _).
    exists b. split; [assumption|]. rewrite Hr. simpl. tauto. }
  destruct (reconciles_cases rk N node o s _ Hnode
              (rebuild_reconciles rk N fuel node s o W Hnode Hlt))
    as [(s1 & Hout & E & _) | (ty & s1 & Hout & E & _)].
  - exists s1. split; [left; assumption|]. split; [apply K; assumption|].
    apply (rebuild_frame fuel node s s1). left. eauto.
  - exists s1. split; [right; eauto|]. split.
    + apply K. eapply evolves_mono; [|exact E]. lia.
    + apply (rebuild_frame fuel node s s1). right. eauto.
Qed.

(** X12.  When the node's declarations are malformed, [state_changed]
    raises the [ValueError] of [rebuild] and marks nothing: the [dirty]
    flag of every view, the root's among them, is as it was. *)
Theorem state_changed_raises_and_marks_nothing
    fuel (node : loc) (s : state) (o : ViewObj) (name : string) (value : pyval)
    (offender : string) :
  wf rk N s -> views s !! node = Some o -> (rk node < fuel)%nat ->
  Malformed s node offender ->
  exists ty s',
    state_changed fuel node name value s = Raise (ValueError (error_message ty)) s' /\
    Malformed s node ty /\
    forall x, dirty_of s' x = dirty_of s x.
Proof.
  intros W Hnode Hlt Hbad.
  destruct (reconciles_cases rk N node o s _ Hnode
              (rebuild_reconciles rk N fuel node s o W Hnode Hlt))
    as [(s1 & Hout & E & W1 & Hn1 & Hwell & _) | (ty & s1 & Hout & E & W1 & Hm)].
  - destruct (Hwell offender Hbad).
  - exists ty, s1. split.
    { unfold state_changed. apply bind_Raise. assumption. }
    split; [assumption|].
    intros x. unfold dirty_of. pose proof (ev_views _ _ _ _ E x) as H.
    destruct (views s !! x) as [a|], (views s1 !! x) as [b|]; try tauto.
    destruct H as [Hr _]. rewrite Hr. reflexivity.
Qed.

(** X13.  [layout] reconciles only a view without subviews.  On a view
    that has some it returns whatever the view now declares, malformed
    or not, clears the view's [dirty] and leaves every other [dirty],
    every [parent], [index], [subviews] and declared contents and every
    environment as they were: only frames change. *)
Theorem layout_with_subviews_does_not_reconcile
    fuel (r : loc) (rect : Rect) (s : state) (o : ViewObj) :
  wf rk N s -> views s !! r = Some o -> subviews o <> [] ->
  (rk r < fuel)%nat ->
  exists s',
    layout fuel r rect s = Ok tt s' /\
    dirty_of s' r = Some false /\
    envs s' = envs s /\
    forall x,
      match views s !! x, views s' !! x with
      | Some a, Some b =>
          parent b = parent a /\ index b = index a /\ subviews b = subviews a /\
          contents b = contents a /\ env b = env a /\
          (x <> r -> dirty b = dirty a)
      | None, None => True
      | _, _ => False
      end.
Proof.
  intros W Hr Hsub Hlt. unfold layout.
  rewrite (bind_Ok _ _ _ _ _ (get_view_Ok r s o Hr)).
  destruct (subviews o) as [|c0 rest] eqn:Hsubs; [contradiction|].
  rewrite (bind_Ok _ _ _ _ _ (eq_refl : ret tt s = Ok tt s)).
  destruct (resize_total rk N fuel r (size rect) s W ltac:(eauto) Hlt) as (s2 & Hout2 & R2).
  rewrite (bind_Ok _ _ _ _ _ Hout2).
  assert (W2 : wf rk N s2) by (eapply wf_relaid; eassumption).
  assert (Hs2 : is_Some (views s2 !! r)) by (eapply relaid_is_Some; eauto).
  destruct (reposition_total rk N fuel r rect s2 W2 Hs2 Hlt) as (s3 & Hout3 & R3).
  rewrite (bind_Ok _ _ _ _ _ Hout3).
  destruct (relaid_is_Some _ _ _ R3 Hs2) as [o3 Ho3].
  rewrite (update_view_Ok r _ s3 o3 Ho3).
  pose proof (relaid_trans rk N _ _ _ R2 R3) as R.
  eexists. split; [reflexivity|].
  split; [unfold dirty_of; simpl; rewrite lookup_insert_eq; reflexivity|].
  split; [simpl; apply (rl_envs _ _ R)|].
  intros x. simpl. pose proof (rl_views _ _ R x) as H.
  destruct (decide (r = x)) as [<-|Hne].
  - rewrite lookup_insert_eq. rewrite Hr, Ho3 in *. rewrite H. simpl.
    repeat split; try reflexivity. intros Hx. contradiction.
  - rewrite lookup_insert_ne by assumption.
    destruct (views s !! x) as [a|], (views s3 !! x) as [b|]; try tauto.
    rewrite H. simpl. repeat split; reflexivity.
Qed.

(** *** root *)

Lemma root_more_fuel n :
  forall m l s r, root n l s = Ok r s -> (n <= m)%nat -> root m l s = Ok r s.
Proof.
  induction n as [|n IH]; intros m l s r H Hle; [discriminate|].
  destruct m as [|m]; [lia|].
  simpl in *. unfold mbind, M_bind, bind in *.
  destruct (get_view l s) as [o s0| | |] eqn:Hg; try discriminate.
  unfold get_view in Hg. destruct (views s !! l); [|discriminate].
  injection Hg as -> ->.
  destruct (parent o) as [p|]; [|assumption].
  apply IH; [assumption | lia].
Qed.

(** X14.  On a well-formed store [root] returns a view without parent
    and leaves the store as it is; the root of that view is the view
    itself, and a view and its parent have the same root. *)
Theorem root_is_parentless_and_shared fuel (l : loc) (s : state) (o : ViewObj) :
  wf rk N s -> views s !! l = Some o -> (N < fuel)%nat ->
  exists r o_r,
    root fuel l s = Ok r s /\
    views s !! r = Some o_r /\ parent o_r = None /\
    root fuel r s = Ok r s /\
    forall p, parent o = Some p -> root fuel p s = Ok r s.
Proof.
  intros W Hl Hfuel.
  destruct (root_total rk N fuel l s o W Hl ltac:(lia)) as (r & o_r & Hroot & Hr & Hpar).
  exists r, o_r. split; [assumption|]. split; [assumption|]. split; [assumption|].
  split.
  - destruct fuel as [|n]; [lia|]. simpl.
    rewrite (bind_Ok _ _ _ _ _ (get_view_Ok r s o_r Hr)), Hpar. reflexivity.
  - intros p Hp. destruct fuel as [|n]; [lia|].
    simpl in Hroot. rewrite (bind_Ok _ _ _ _ _ (get_view_Ok l s o Hl)), Hp in Hroot.
    apply (root_more_fuel n); [assumption | lia].
Qed.

End StoreExtraFacts.

(** ** Facts about identifiers and lookup by path *)

Section LookupFacts.
Import Store StoreSpec Lookup.

Variable class_name : loc -> string.

Lemma descend_app s (r : loc) (a b : list key) :
  descend class_name s r (a ++ b) =
  match descend class_name s r a with
  | Found u => descend class_name s u b
  | other => other
  end.
Proof.
  revert r. induction a as [|k a IH]; intros r; simpl; [reflexivity|].
  destruct (getitem class_name s r k); try reflexivity. apply IH.
Qed.

Section Ranked.

Variable rk : loc -> nat.
Variable N : nat.

(** On a well-formed store the parents of a view are finitely many:
    [id_path] returns, given fuel for them. *)
Lemma id_path_loop_total s :
  wf rk N s ->
  forall fuel v o acc, views s !! v = Some o -> (N <= fuel + rk v)%nat ->
  exists path, id_path_loop class_name fuel s (Some v) acc = Some path.
Proof.
  intros W. induction fuel as [|n IH]; intros v o acc Hv Hf.
  - pose proof (wf_rank _ _ _ W _ _ Hv). lia.
  - simpl. rewrite Hv. destruct (parent o) as [p|] eqn:Hp.
    + destruct (wf_parent _ _ _ W _ _ _ Hv Hp) as [[op Hop] Hr].
      apply (IH p op _ Hop). lia.
    + destruct n; simpl; eauto.
Qed.

Lemma id_path_loop_descend s :
  linked class_name s ->
  forall fuel v acc path,
  id_path_loop class_name fuel s (Some v) acc = Some path ->
  exists r o_r pre,
    root fuel v s = Ok r s /\
    views s !! r = Some o_r /\ parent o_r = None /\
    path = id_of class_name r o_r :: pre ++ acc /\
    descend class_name s r (map KStr pre) = Found v.
Proof.
  intros L. induction fuel as [|n IH]; intros v acc path H; [discriminate|].
  simpl in H. destruct (views s !! v) as [o|] eqn:Hv; [|discriminate].
  simpl. unfold mbind, M_bind, bind, get_view. rewrite Hv.
  destruct (parent o) as [p|] eqn:Hp.
  - destruct (IH p _ _ H) as (r & o_r & pre & Hroot & Hr & Hpar & Hpath & Hd).
    exists r, o_r, (pre ++ [id_of class_name v o]).
    split; [assumption|]. split; [assumption|]. split; [assumption|].
    split; [rewrite <- app_assoc; exact Hpath|].
    rewrite map_app, descend_app, Hd. simpl.
    rewrite (L v o p Hv Hp). reflexivity.
  - exists v, o, []. destruct n; simpl in H; injection H as <-; auto.
Qed.

(** X15.  Round trip: on a well-formed store where every view is what
    its parent's lookup by id gives for the view's id, [id_path] of a
    view returns a path that starts with the id of the view's [root],
    and [resolve] on that root with the path gives the view back. *)
Theorem resolve_id_path fuel (s : state) (v : loc) (o : ViewObj) :
  wf rk N s -> linked class_name s ->
  views s !! v = Some o -> (N <= fuel + rk v)%nat ->
  exists path r o_r rest,
    id_path class_name fuel s v = Some path /\
    root fuel v s = Ok r s /\
    views s !! r = Some o_r /\ parent o_r = None /\
    path = id_of class_name r o_r :: rest /\
    resolve class_name s r (map KStr path) = Found v.
Proof.
  intros W L Hv Hfuel.
  destruct (id_path_loop_total s W fuel v o [] Hv Hfuel) as [path H].
  destruct (id_path_loop_descend s L fuel v [] path H)
    as (r & o_r & pre & Hroot & Hr & Hpar & Hpath & Hd).
  rewrite app_nil_r in Hpath.
  exists path, r, o_r, pre.
  split; [assumption|]. split; [assumption|]. split; [assumption|].
  split; [assumption|]. split; [assumption|].
  rewrite Hpath. simpl. unfold id. rewrite Hr. simpl.
  rewrite String.eqb_refl. exact Hd.
Qed.

End Ranked.

Lemma getitem_loop_found s name (l : list loc) (v : loc) :
  getitem_loop class_name s name l = Found v ->
  In v l /\ id class_name s v = Some name.
Proof.
  induction l as [|c l IH]; simpl; [discriminate|].
  destruct (id class_name s c) as [i|] eqn:Hi; [|discriminate].
  destruct (String.eqb i name) eqn:E.
  - intros [= <-]. apply String.eqb_eq in E. subst. auto.
  - intros H. destruct (IH H). auto.
Qed.

Lemma descend_id_path s (r : loc) (o_r : ViewObj) :
  adopted s ->
  views s !! r = Some o_r -> parent o_r = None ->
  forall names v n acc,
  descend class_name s r (map KStr names) = Found v ->
  (length names < n)%nat ->
  id_path_loop class_name n s (Some v) acc
    = Some (id_of class_name r o_r :: names ++ acc).
Proof.
  intros A Hr Hpar names. induction names as [|nm names IH] using rev_ind;
    intros v n acc Hd Hn.
  - simpl in Hd. injection Hd as <-. destruct n as [|n]; [simpl in Hn; lia|].
    simpl. rewrite Hr, Hpar. destruct n; reflexivity.
  - rewrite map_app, descend_app in Hd.
    destruct (descend class_name s r (map KStr names)) as [u| | |] eqn:Hu;
      try discriminate.
    simpl in Hd. unfold getitem in Hd.
    destruct (views s !! u) as [ou|] eqn:Hou; [|discriminate].
    destruct (getitem_loop class_name s nm (subviews ou)) as [v'| | |] eqn:Hg;
      try discriminate.
    injection Hd as ->.
    apply getitem_loop_found in Hg as [Hin Hid].
    destruct (A u ou v Hou Hin) as (ov & Hov & Hpv).
    unfold id in Hid. rewrite Hov in Hid. simpl in Hid. injection Hid as <-.
    rewrite length_app in Hn. simpl in Hn.
    destruct n as [|n]; [lia|].
    simpl. rewrite Hov, Hpv.
    rewrite (IH u n _ eq_refl ltac:(lia)).
    rewrite <- app_assoc. reflexivity.
Qed.

(** X16.  The other way round: on a store where every subview has the
    view that holds it as parent, when [resolve] on a view without
    parent gives a view for a path of ids, that path is the view's
    [id_path]. *)
Theorem id_path_of_resolved fuel (s : state) (r v : loc) (o_r : ViewObj)
    (path : list string) :
  adopted s ->
  views s !! r = Some o_r -> parent o_r = None ->
  resolve class_name s r (map KStr path) = Found v ->
  (length path <= fuel)%nat ->
  id_path class_name fuel s v = Some path.
Proof.
  intros A Hr Hpar H Hfuel.
  destruct path as [|nm names]; [discriminate|].
  simpl in H. unfold id in H. rewrite Hr in H. simpl in H.
  destruct (String.eqb nm (id_of class_name r o_r)) eqn:E; [|discriminate].
  apply String.eqb_eq in E. subst nm.
  unfold id_path.
  rewrite (descend_id_path s r o_r A Hr Hpar names v fuel [] H ltac:(simpl in Hfuel; lia)).
  rewrite app_nil_r. reflexivity.
Qed.

Lemma getitem_loop_no_index_error s name (l : list loc) :
  getitem_loop class_name s name l <> IndexError.
Proof.
  induction l as [|c l IH]; simpl; [discriminate|].
  destruct (id class_name s c); [|discriminate].
  destruct (String.eqb _ _); [discriminate | assumption].
Qed.

Lemma descend_no_index_error s (names : list string) :
  forall r, descend class_name s r (map KStr names) <> IndexError.
Proof.
  induction names as [|nm names IH]; intros r; simpl; [discriminate|].
  unfold getitem. destruct (views s !! r) as [o|]; [|discriminate].
  pose proof (getitem_loop_no_index_error s nm (subviews o)) as H.
  destruct (getitem_loop class_name s nm (subviews o)); try discriminate;
    [apply IH | contradiction].
Qed.

(** X17.  [resolve] on a path of ids never raises [IndexError]; it gives
    [None] for the empty path and for a path whose first part is not the
    view's own id, be it another id or an [int].  An [int] further down
    the path is used as a list index: out of range, [resolve] raises
    [IndexError]. *)
Theorem resolve_edges (s : state) (r : loc) (o_r : ViewObj) :
  views s !! r = Some o_r ->
  (forall names, resolve class_name s r (map KStr names) <> IndexError) /\
  resolve class_name s r [] = Nothing /\
  (forall name rest, name <> id_of class_name r o_r ->
     resolve class_name s r (KStr name :: rest) = Nothing) /\
  (forall i rest, resolve class_name s r (KInt i :: rest) = Nothing) /\
  (forall i rest,
     (i < - Z.of_nat (length (subviews o_r)) \/ Z.of_nat (length (subviews o_r)) <= i) ->
     resolve class_name s r (KStr (id_of class_name r o_r) :: KInt i :: rest)
       = IndexError).
Proof.
  intros Hr.
  split.
  { intros [|nm names]; simpl; [discriminate|].
    unfold id. rewrite Hr. simpl.
    destruct (String.eqb _ _); [apply descend_no_index_error | discriminate]. }
  split; [reflexivity|].
  split.
  { intros name rest Hne. simpl. unfold id. rewrite Hr. simpl.
    rewrite (proj2 (String.eqb_neq _ _) Hne). reflexivity. }
  split.
  { intros i rest. simpl. unfold id. rewrite Hr. reflexivity. }
  intros i rest Hi. simpl. unfold id. rewrite Hr. simpl.
  rewrite String.eqb_refl. unfold getitem. rewrite Hr. unfold list_index.
  destruct ((0 <=? i) && (i <? Z.of_nat (length (subviews o_r)))) eqn:E1.
  { apply andb_true_iff in E1 as [E1 E2]. apply Z.leb_le in E1. apply Z.ltb_lt in E2. lia. }
  destruct ((- Z.of_nat (length (subviews o_r)) <=? i) && (i <? 0)) eqn:E2.
  { apply andb_true_iff in E2 as [E2 E3]. apply Z.leb_le in E2. apply Z.ltb_lt in E3. lia. }
  reflexivity.
Qed.

Lemma string_app_inv_head (a b c : string) :
  (a ++ b = a ++ c)%string -> b = c.
Proof. induction a as [|x a IH]; simpl; [tauto|]. intros [= H]. auto. Qed.

Lemma getitem_loop_positioned s cn (l : list loc) :
  forall k : nat,
  (forall j c, l !! j = Some c ->
     class_name c = cn /\
     exists oc, views s !! c = Some oc /\ index oc = Z.of_nat (k + j)) ->
  forall j c oc, l !! j = Some c -> views s !! c = Some oc ->
    getitem_loop class_name s (id_of class_name c oc) l = Found c.
Proof.
  induction l as [|c0 l IH]; intros k Hl j c oc Hj Hc.
  - rewrite lookup_nil in Hj. discriminate.
  - destruct (Hl 0%nat c0 eq_refl) as (Hcn0 & oc0 & Hoc0 & Hidx0).
    simpl. unfold id at 1. rewrite Hoc0. simpl.
    destruct j as [|j]; simpl in Hj.
    + injection Hj as <-. rewrite Hoc0 in Hc. injection Hc as <-.
      rewrite String.eqb_refl. reflexivity.
    + destruct (Hl (S j) c Hj) as (Hcn & oc' & Hoc' & Hidx).
      rewrite Hc in Hoc'. injection Hoc' as <-.
      destruct (String.eqb (id_of class_name c0 oc0) (id_of class_name c oc)) eqn:E.
      * apply String.eqb_eq in E. unfold id_of in E. rewrite Hcn0, Hcn in E.
        apply string_app_inv_head in E. apply string_app_inv_head in E.
        apply (inj pretty) in E. lia.
      * apply (IH (S k)) with (j := j); [|assumption|assumption].
        intros j' c' Hj'. destruct (Hl (S j') c' Hj') as (H1 & oc'' & H2 & H3).
        split; [assumption|]. exists oc''. split; [assumption|]. lia.
Qed.

(** X18.  When the subviews of a view are of one class and each has its
    position as [index], as [rebuild] leaves them, their ids differ and
    looking a subview's id up in the view gives that subview. *)
Theorem getitem_by_id_finds_positioned
    (s : state) (p : loc) (op : ViewObj) (cn : string) :
  views s !! p = Some op ->
  (forall j c, subviews op !! j = Some c ->
     class_name c = cn /\
     exists oc, views s !! c = Some oc /\ index oc = Z.of_nat j) ->
  forall j c oc, subviews op !! j = Some c -> views s !! c = Some oc ->
    getitem class_name s p (KStr (id_of class_name c oc)) = Found c.
Proof.
  intros Hp Hl j c oc Hj Hc. unfold getitem. rewrite Hp.
  apply (getitem_loop_positioned s cn (subviews op) 0%nat) with (j := j); assumption.
Qed.

Lemma linkedb_sound s : linkedb class_name s = true -> linked class_name s.
Proof.
  unfold linkedb. rewrite forallb_forall. intros H c o p Hc Hp.
  specialize (H (c, o) ltac:(apply list_elem_of_In, elem_of_map_to_list; assumption)).
  simpl in H. rewrite Hp in H.
  destruct (getitem class_name s p (KStr (id_of class_name c o))) as [c'| | |];
    try discriminate.
  apply Nat.eqb_eq in H. congruence.
Qed.

Lemma adoptedb_sound s : adoptedb s = true -> adopted s.
Proof.
  unfold adoptedb. rewrite forallb_forall. intros H p op c Hp Hin.
  specialize (H (p, op) ltac:(apply list_elem_of_In, elem_of_map_to_list; assumption)).
  simpl in H. rewrite forallb_forall in H. specialize (H c Hin).
  destruct (views s !! c) as [oc|]; [|discriminate].
  destruct (parent oc) as [q|] eqn:Hq; [|discriminate].
  apply Nat.eqb_eq in H. subst q. exists oc. auto.
Qed.

End LookupFacts.

(** ** Facts about the controls *)

Section ControlFacts.
Import Control.

(** X19.  With both [_start] and [_end] set, the selection of a text
    field is the set of the indices from the smaller to the larger of
    the two, both included, whichever way round they are; with either
    unset there is no selection. *)
Theorem selection_is_closed_range (t ph : str) (a b : Z) :
  (exists S : gset Z,
     selection (mkTextField t ph (Some a) (Some b)) = Some S /\
     selection (mkTextField t ph (Some b) (Some a)) = Some S /\
     forall i, i ∈ S <-> Z.min a b <= i <= Z.max a b) /\
  selection (mkTextField t ph None (Some b)) = None /\
  selection (mkTextField t ph (Some a) None) = None.
Proof.
  split; [|split; reflexivity].
  eexists. split; [reflexivity|]. split.
  - unfold selection. simpl. rewrite (Z.min_comm b a), (Z.max_comm b a). reflexivity.
  - intros i. rewrite elem_of_list_to_set, elem_of_seqZ. lia.
Qed.

Lemma slice_to_nonneg {A} (t : list A) (i : Z) :
  0 <= i -> slice_to t i = take (Z.to_nat i) t.
Proof.
  intros H. unfold slice_to. destruct (i <? 0) eqn:E; [|reflexivity].
  apply Z.ltb_lt in E. lia.
Qed.

Lemma slice_from_nonneg {A} (t : list A) (i : Z) :
  0 <= i -> slice_from t i = drop (Z.to_nat i) t.
Proof.
  intros H. unfold slice_from. destruct (i <? 0) eqn:E; [|reflexivity].
  apply Z.ltb_lt in E. lia.
Qed.

(** X20.  Backspace with a selection from [s] to [e] inside the text
    keeps the text before [s] and the text from [e] on: it removes
    [e - s] characters, one fewer than are selected, the character at
    [e] staying, now at [s]; a selection of one character removes
    nothing.  The selection is cleared. *)
Theorem backspace_with_selection (f : TextField) (a b mods : Z) :
  start_ f = Some a -> end_ f = Some b ->
  0 <= Z.min a b -> Z.max a b <= Z.of_nat (length (text f)) ->
  let s := Z.to_nat (Z.min a b) in
  let e := Z.to_nat (Z.max a b) in
  let f' := keydown f SDLK_BACKSPACE mods in
  text f' = take s (text f) ++ drop e (text f) /\
  length (text f') = (length (text f) - (e - s))%nat /\
  (forall c, text f !! e = Some c -> text f' !! s = Some c) /\
  (a = b -> text f' = text f) /\
  start_ f' = None /\ end_ f' = None /\ selection f' = None.
Proof.
  intros Ha Hb Hmin Hmax. cbn zeta.
  assert (Ht : text (keydown f SDLK_BACKSPACE mods)
               = take (Z.to_nat (Z.min a b)) (text f)
                 ++ drop (Z.to_nat (Z.max a b)) (text f)).
  { unfold keydown. rewrite Z.eqb_refl, Ha, Hb. simpl.
    rewrite slice_to_nonneg, slice_from_nonneg by lia. reflexivity. }
  assert (Hs : start_ (keydown f SDLK_BACKSPACE mods) = None
               /\ end_ (keydown f SDLK_BACKSPACE mods) = None).
  { unfold keydown. rewrite Z.eqb_refl, Ha, Hb. simpl. auto. }
  split; [exact Ht|].
  split. { rewrite Ht, length_app, length_take, length_drop. lia. }
  split.
  { intros c Hc. rewrite Ht.
    rewrite lookup_app_r by (rewrite length_take; lia).
    rewrite length_take, lookup_drop, <- Hc. f_equal. lia. }
  split.
  { intros ->. rewrite Ht, Z.min_id, Z.max_id. apply take_drop. }
  destruct Hs as [H1 H2]. split; [assumption|]. split; [assumption|].
  unfold selection. rewrite H1. reflexivity.
Qed.

Lemma backspace_with_selection_witness :
  let f := mkTextField [104; 101; 108; 108; 111]%N [] (Some 3) (Some 1) in
  let f' := keydown f SDLK_BACKSPACE 0 in
  text f' = take 1 (text f) ++ drop 3 (text f) /\
  length (text f') = (length (text f) - (3 - 1))%nat /\
  (forall c, text f !! 3%nat = Some c -> text f' !! 1%nat = Some c) /\
  (3 = 1 -> text f' = text f) /\
  start_ f' = None /\ end_ f' = None /\ selection f' = None.
Proof.
  cbn zeta.
  apply (backspace_with_selection
           (mkTextField [104; 101; 108; 108; 111]%N [] (Some 3) (Some 1)) 3 1 0).
  - reflexivity.
  - reflexivity.
  - vm_compute. discriminate.
  - vm_compute. discriminate.
Defined.

(** X21.  Backspace without a selection, [_start] or [_end] being unset,
    removes the last character and nothing else; on an empty text it
    leaves the text empty. *)
Theorem backspace_without_selection (f : TextField) (mods : Z) :
  start_ f = None \/ end_ f = None ->
  let f' := keydown f SDLK_BACKSPACE mods in
  text f' = removelast (text f) /\
  length (text f') = pred (length (text f)) /\
  (text f = [] -> text f' = []) /\
  start_ f' = start_ f /\ end_ f' = end_ f.
Proof.
  intros H. cbn zeta.
  assert (E : keydown f SDLK_BACKSPACE mods
              = mkTextField (slice_to (text f) (-1)) (placeholder f) (start_ f) (end_ f)).
  { unfold keydown. rewrite Z.eqb_refl.
    destruct H as [H|H]; rewrite H; [reflexivity|]. destruct (start_ f); reflexivity. }
  rewrite E. simpl.
  assert (Hr : slice_to (text f) (-1) = removelast (text f)).
  { unfold slice_to. simpl. rewrite removelast_firstn_len. f_equal. lia. }
  rewrite Hr.
  split; [reflexivity|].
  split. { rewrite removelast_firstn_len, length_take. lia. }
  split; [intros ->; reflexivity | auto].
Qed.

Lemma backspace_without_selection_witness :
  let f := mkTextField [104; 105]%N [] (Some 1) None in
  let f' := keydown f SDLK_BACKSPACE 0 in
  text f' = removelast (text f) /\
  length (text f') = pred (length (text f)) /\
  (text f = [] -> text f' = []) /\
  start_ f' = start_ f /\ end_ f' = end_ f.
Proof.
  cbn zeta.
  apply (backspace_without_selection (mkTextField [104; 105]%N [] (Some 1) None) 0).
  right. reflexivity.
Defined.

(** X22.  A [mousedown] leaves no selection, whatever the font finds at
    the point, and reports whether it found an index; a Backspace right
    after it removes the last character of the text, not the one at the
    point. *)
Theorem mousedown_then_backspace (f : TextField) (found : option Z) (mods : Z) :
  let f1 := fst (mousedown f found) in
  selection f1 = None /\
  start_ f1 = found /\
  (snd (mousedown f found) = true <-> found <> None) /\
  text f1 = text f /\
  text (keydown f1 SDLK_BACKSPACE mods) = removelast (text f).
Proof.
  cbn zeta. split.
  { unfold selection. simpl. destruct found; reflexivity. }
  split; [reflexivity|].
  split. { destruct found; simpl; split; congruence. }
  split; [reflexivity|].
  unfold keydown. rewrite Z.eqb_refl. simpl.
  destruct found; simpl; unfold slice_to; simpl;
    rewrite removelast_firstn_len; f_equal; lia.
Qed.

(** X23.  What a [SecureField] shows is as long as the text and made of
    bullets only, so that two texts show the same exactly when they are
    equally long. *)
Theorem secure_representation_hides_text (f g : TextField) :
  length (secure_text_representation f) = length (text f) /\
  Forall (fun c => c = bullet) (secure_text_representation f) /\
  (secure_text_representation f = secure_text_representation g
     <-> length (text f) = length (text g)).
Proof.
  unfold secure_text_representation.
  split; [apply repeat_length|].
  split. { apply Forall_forall. intros c Hc. apply list_elem_of_In in Hc.
           eapply repeat_spec. eassumption. }
  split.
  - intros H. apply (f_equal (@length N)) in H. rewrite !repeat_length in H. assumption.
  - intros ->. reflexivity.
Qed.

Section Clamped.

Variable clamp : Z -> Z -> Z -> Z.

(** X24.  On a slider of fewer than ten values whose value is within
    its bounds, an arrow key with Shift held moves by [span // 10],
    which is zero: the slider stays as it is and its binding is not
    assigned.  [clamp] is taken to return a value within the bounds
    unchanged. *)
Theorem shift_arrow_on_short_slider (sl : Slider) (key mods : Z) :
  (forall v lo hi, lo <= v <= hi -> clamp v lo hi = v) ->
  minimum sl <= current sl <= maximum sl ->
  span sl < 10 ->
  Z.land mods KMOD_SHIFT <> 0 ->
  slider_keydown clamp sl key mods = sl.
Proof.
  intros Hclamp Hin Hspan Hshift.
  assert (Hamt : span sl / 10 = 0).
  { apply Z.div_small. unfold span in *. lia. }
  assert (Hset : slider_set clamp sl (current sl) = sl).
  { unfold slider_set. rewrite (Hclamp _ _ _ Hin), Z.eqb_refl. reflexivity. }
  unfold slider_keydown.
  rewrite (proj2 (Z.eqb_neq _ _) Hshift). simpl. rewrite Hamt.
  rewrite Z.sub_0_r, Z.add_0_r, Hset.
  destruct (key =? SDLK_LEFT); [reflexivity|].
  destruct (key =? SDLK_RIGHT); reflexivity.
Qed.

End Clamped.

Lemma shift_arrow_on_short_slider_witness :
  slider_keydown (fun v lo hi => Z.max lo (Z.min v hi))
    (mkSlider 0 5 2 0) SDLK_RIGHT 1 = mkSlider 0 5 2 0.
Proof.
  apply (shift_arrow_on_short_slider (fun v lo hi => Z.max lo (Z.min v hi))
           (mkSlider 0 5 2 0) SDLK_RIGHT 1).
  - intros v lo hi H. lia.
  - simpl. lia.
  - vm_compute. reflexivity.
  - vm_compute. discriminate.
Defined.

End ControlFacts.

(** ** The further statements on the example stores *)

Section OnMoreExamples.
Import Store StoreSpec StoreExamples Lookup.
Local Open Scope nat_scope.

Lemma family_wf : wf rank 5 (family ∅).
Proof. apply wfb_wf. vm_compute. reflexivity. Qed.

Lemma rebuild_attaches_children_witness :
  exists s',
    rebuild 5 0 (family ∅) = Ok tt s' /\
    subviews <$> views s' !! 0 = Some [1; 2] /\
    parent <$> views s' !! 0 = parent <$> views (family ∅) !! 0 /\
    index <$> views s' !! 0 = index <$> views (family ∅) !! 0 /\
    forall i c, [1; 2] !! i = Some c ->
      exists oc o',
        views (family ∅) !! c = Some oc /\
        views s' !! c = Some o' /\
        parent o' = Some 0 /\
        index o' = Z.of_nat i /\
        subviews o' = views_of (content oc) /\
        relinked oc o'.
Proof.
  apply (rebuild_attaches_children rank 5 5 0 (family ∅)
           (fresh class_env [DView 1; DView 2]) [1; 2]).
  - exact family_wf.
  - reflexivity.
  - vm_compute. lia.
  - reflexivity.
  - simpl. repeat constructor.
  - intros c t _. apply declares_viewsb_sound. vm_compute. reflexivity.
Defined.

Lemma rebuild_only_relinks_witness :
  exists s',
    (rebuild 5 1 broken = Ok tt s' \/
     exists ty, rebuild 5 1 broken = Raise (ValueError (error_message ty)) s') /\
    (forall x a, views broken !! x = Some a ->
       exists b, views s' !! x = Some b /\
         frame b = frame a /\ padding b = padding a /\ border b = border a /\
         dirty b = dirty a /\ contents b = contents a /\ env b = env a /\
         minimum_size_hook b = minimum_size_hook a /\
         content_size_hook b = content_size_hook a) /\
    (forall x, x <> 1 -> ~ below broken 1 x -> views s' !! x = views broken !! x).
Proof.
  apply (rebuild_only_relinks rank 5 5 1 broken (fresh 1 [DView 3])).
  - exact broken_wf.
  - reflexivity.
  - vm_compute. lia.
Defined.

Lemma state_changed_raises_and_marks_nothing_witness :
  exists ty s',
    state_changed 5 0 "value" (PInt 1) broken = Raise (ValueError (error_message ty)) s' /\
    Malformed broken 0 ty /\
    forall x, dirty_of s' x = dirty_of broken x.
Proof.
  apply (state_changed_raises_and_marks_nothing rank 5 5 0 broken broken_root
           "value" (PInt 1) "int").
  - exact broken_wf.
  - reflexivity.
  - vm_compute. lia.
  - apply malformed_here with (o := broken_root); [reflexivity|].
    simpl. auto.
Defined.

Lemma layout_with_subviews_does_not_reconcile_witness :
  exists s',
    layout 5 0 (viewport 0 0) (family_built ∅) = Ok tt s' /\
    dirty_of s' 0 = Some false /\
    envs s' = envs (family_built ∅) /\
    forall x,
      match views (family_built ∅) !! x, views s' !! x with
      | Some a, Some b =>
          parent b = parent a /\ index b = index a /\ subviews b = subviews a /\
          contents b = contents a /\ env b = env a /\
          (x <> 0 -> dirty b = dirty a)
      | None, None => True
      | _, _ => False
      end.
Proof.
  apply (layout_with_subviews_does_not_reconcile rank 5 5 0 (viewport 0 0) (family_built ∅)
           (set_subviews [1; 2] (fresh class_env [DView 1; DView 2]))).
  - exact family_built_wf.
  - vm_compute. reflexivity.
  - discriminate.
  - vm_compute. lia.
Defined.

Lemma root_is_parentless_and_shared_witness :
  exists r o_r,
    root 6 3 (family_built ∅) = Ok r (family_built ∅) /\
    views (family_built ∅) !! r = Some o_r /\ parent o_r = None /\
    root 6 r (family_built ∅) = Ok r (family_built ∅) /\
    forall p, parent (attached 1 0 (fresh class_env [])) = Some p ->
      root 6 p (family_built ∅) = Ok r (family_built ∅).
Proof.
  apply (root_is_parentless_and_shared rank 5 6 3 (family_built ∅)
           (attached 1 0 (fresh class_env []))).
  - exact family_built_wf.
  - vm_compute. reflexivity.
  - lia.
Defined.

(** Every view of the examples is of class [View]. *)
Lemma resolve_id_path_witness :
  exists o_r rest,
    id_path (fun _ => "View"%string) 5 (family_built ∅) 3
      = Some ["View-0"; "View-0"; "View-0"]%string /\
    root 5 3 (family_built ∅) = Ok 0 (family_built ∅) /\
    views (family_built ∅) !! 0 = Some o_r /\ parent o_r = None /\
    ["View-0"; "View-0"; "View-0"]%string = id_of (fun _ => "View"%string) 0 o_r :: rest /\
    resolve (fun _ => "View"%string) (family_built ∅) 0
      (map KStr ["View-0"; "View-0"; "View-0"]%string) = Found 3.
Proof.
  destruct (resolve_id_path (fun _ => "View"%string) rank 5 5 (family_built ∅) 3
              (attached 1 0 (fresh class_env [])))
    as (path & r & o_r & rest & Hpath & Hroot & Hr & Hpar & Hhead & Hres).
  - exact family_built_wf.
  - apply linkedb_sound. vm_compute. reflexivity.
  - vm_compute. reflexivity.
  - vm_compute. lia.
  - assert (Hp : path = ["View-0"; "View-0"; "View-0"]%string)
      by (vm_compute in Hpath; injection Hpath as <-; reflexivity).
    assert (H0 : r = 0) by (vm_compute in Hroot; injection Hroot as <-; reflexivity).
    rewrite Hp in Hpath, Hhead, Hres. rewrite H0 in Hroot, Hr, Hhead, Hres.
    exists o_r, rest.
    repeat (split; [assumption|]). assumption.
Defined.

Lemma id_path_of_resolved_witness :
  id_path (fun _ => "View"%string) 5 (family_built ∅) 2
    = Some ["View-0"; "View-1"]%string.
Proof.
  apply (id_path_of_resolved (fun _ => "View"%string) 5 (family_built ∅) 0 2
           (set_subviews [1; 2] (fresh class_env [DView 1; DView 2]))).
  - apply adoptedb_sound. vm_compute. reflexivity.
  - vm_compute. reflexivity.
  - reflexivity.
  - vm_compute. reflexivity.
  - simpl. lia.
Defined.

Lemma resolve_edges_witness :
  let cls := fun _ : loc => "View"%string in
  let o_r := set_subviews [1; 2] (fresh class_env [DView 1; DView 2]) in
  (forall names, resolve cls (family_built ∅) 0 (map KStr names) <> IndexError) /\
  resolve cls (family_built ∅) 0 [] = Nothing /\
  (forall name rest, name <> id_of cls 0 o_r ->
     resolve cls (family_built ∅) 0 (KStr name :: rest) = Nothing) /\
  (forall i rest, resolve cls (family_built ∅) 0 (KInt i :: rest) = Nothing) /\
  (forall i rest,
     (i < - Z.of_nat (length (subviews o_r)) \/ Z.of_nat (length (subviews o_r)) <= i)%Z ->
     resolve cls (family_built ∅) 0 (KStr (id_of cls 0 o_r) :: KInt i :: rest)
       = IndexError).
Proof.
  cbn zeta.
  apply (resolve_edges (fun _ => "View"%string) (family_built ∅) 0
           (set_subviews [1; 2] (fresh class_env [DView 1; DView 2]))).
  vm_compute. reflexivity.
Defined.

Lemma getitem_by_id_finds_positioned_witness :
  getitem (fun _ => "View"%string) (family_built ∅) 0
    (KStr (id_of (fun _ => "View"%string) 2 (attached 0 1 (fresh class_env []))))
  = Found 2.
Proof.
  apply (getitem_by_id_finds_positioned (fun _ => "View"%string) (family_built ∅) 0
           (set_subviews [1; 2] (fresh class_env [DView 1; DView 2])) "View"
           ltac:(vm_compute; reflexivity)
           ltac:(intros [|[|j]] c Hj; simpl in Hj; try discriminate; injection Hj as <-;
                 (split; [reflexivity|]); eexists;
                 (split; [vm_compute; reflexivity | reflexivity]))
           1%nat 2 (attached 0 1 (fresh class_env []))).
  - reflexivity.
  - vm_compute. reflexivity.
Defined.

End OnMoreExamples.
